(** * super-parser: a shallow embedding of the DASH-to-HLS engine

    The development follows the JavaScript sources module by module:
    the binary cursor ([data_view_reader]), the MP4 box walker
    ([mp4parser]), the PSSH builder and parser ([pssh]), the SIDX parser
    ([mp4_segment_index_parser]), SegmentTimeline expansion
    ([mpd_utils.createTimeline]), ContentProtection analysis
    ([content_protection]), the Representation gate of [dash_parser], the
    bandwidth-tier policy of [superparser.js] and the rolling HLS window
    of [segment_saver].

    JavaScript numbers that hold integers are embedded as [Z], within the
    range where a number holds them exactly; the times of a SIDX are
    rationals ([Q]); the numbers of [createTimeline] are IEEE 754 doubles
    ([SpecFloat]); byte buffers are lists of [Byte.byte]; thrown
    exceptions are the [Throw] case of [res]. *)

From Stdlib Require Import ZArith QArith Qround Qabs Lia Bool List.
From Stdlib Require Import Strings.String Strings.Ascii.
From Stdlib Require Strings.Byte.
From Stdlib Require Import DecimalString DecimalN DecimalZ.
From Stdlib Require Import Floats.SpecFloat.
From stdpp Require Import base list gmap strings.

Open Scope Z_scope.

(** ** Exceptions and results *)

Module Js.

(** [error.Code] members thrown by the modelled sources. *)
Inductive Code :=
  | BUFFER_READ_OUT_OF_BOUNDS
  | JS_INTEGER_OVERFLOW
  | MP4_SIDX_WRONG_BOX_TYPE
  | MP4_SIDX_INVALID_TIMESCALE
  | MP4_SIDX_TYPE_NOT_SUPPORTED
  | DASH_CONFLICTING_KEY_IDS
  | DASH_MULTIPLE_KEY_IDS_NOT_SUPPORTED
  | DASH_PSSH_BAD_ENCODING
  | DASH_NO_COMMON_KEY_SYSTEM
  | DASH_NO_SEGMENT_INFO
  | DASH_EMPTY_ADAPTATION_SET
  | SEGMENT_MANIPULATION_FAILED.

Inductive Severity := RECOVERABLE | CRITICAL.
Inductive Category := NETWORK | MEDIA | MANIFEST | SEGMENT.

(** What a [throw] (or a failing built-in) raises. *)
Inductive exn :=
  | Error (s : Severity) (c : Category) (code : Code)
  | AssertionError (msg : string)
  | TypeError (msg : string)
  | ReferenceError (msg : string)
  | RangeError (msg : string)
  | SystemError (msg : string).

Inductive res (A : Type) :=
  | Ok (a : A)
  | Throw (e : exn).
Arguments Ok {A} a.
Arguments Throw {A} e.

Definition bind {A B} (m : res A) (k : A -> res B) : res B :=
  match m with
  | Ok a => k a
  | Throw e => Throw e
  end.

Definition assert (b : bool) (msg : string) : res unit :=
  if b then Ok tt else Throw (AssertionError msg).

End Js.

Export Js.

#[global] Instance res_bind : MBind res := fun A B k m => Js.bind m k.
#[global] Instance res_ret : MRet res := fun A a => Ok a.

(** ** [buffer_utils] and [data_view_reader] *)

Module DataViewReader.

Abbreviation byte := Byte.byte.

Definition byte_val (b : byte) : Z := Z.of_N (Byte.to_N b).

(** A typed-array store: the value is reduced modulo 256. *)
Definition byte_of_Z (z : Z) : byte :=
  match Byte.of_N (Z.to_N (z mod 256)) with
  | Some b => b
  | None => Byte.x00
  end.

(** A [DataView] or [Uint8Array]: a window on a shared [ArrayBuffer]. *)
Record View := {
  buffer : list byte;
  byteOffset : Z;
  byteLength : Z;
}.

Definition wf_view (v : View) : Prop :=
  0 <= byteOffset v /\ 0 <= byteLength v /\
  byteOffset v + byteLength v <= Z.of_nat (length (buffer v)).

(** The bytes a view shows. *)
Definition view_bytes (v : View) : list byte :=
  take (Z.to_nat (byteLength v)) (drop (Z.to_nat (byteOffset v)) (buffer v)).

(** [new Uint8Array(bytes)] on a fresh buffer. *)
Definition view_of_bytes (bs : list byte) : View :=
  {| buffer := bs; byteOffset := 0; byteLength := Z.of_nat (length bs) |}.

(** Modelled from the spec: [buffer_utils.toUint8(data, offset, length)] and
    [buffer_utils.toDataView(data)] are imported from [buffer_utils.js],
    which is not among the sources.  The views they build share the
    buffer of [data] ("Record the original box bytes for later
    re-emission"): the result starts [offset] bytes after the start of
    [data] (before it when [offset] is negative) and is clamped to the
    buffer start and to the end of [data]. *)
Definition toUint8 (data : View) (offset : Z) (len : option Z) : View :=
  let dataEnd := byteOffset data + byteLength data in
  let rawStart := byteOffset data + offset in
  let start := Z.max 0 (Z.min rawStart dataEnd) in
  let stop :=
    match len with
    | Some l => Z.min (start + Z.max l 0) dataEnd
    | None => dataEnd
    end in
  {| buffer := buffer data; byteOffset := start; byteLength := stop - start |}.

Definition toDataView (data : View) : View := toUint8 data 0 None.

(** [DataView.prototype.getUint8]; [None] is the built-in's RangeError. *)
Definition getUint8 (v : View) (pos : Z) : option Z :=
  if (0 <=? pos) && (pos + 1 <=? byteLength v) then
    byte_val <$> buffer v !! Z.to_nat (byteOffset v + pos)
  else None.

Definition getUint16 (v : View) (pos : Z) (littleEndian : bool) : option Z :=
  if (0 <=? pos) && (pos + 2 <=? byteLength v) then
    b0 ← getUint8 v pos;
    b1 ← getUint8 v (pos + 1);
    Some (if littleEndian then b0 + b1 * 2 ^ 8 else b0 * 2 ^ 8 + b1)
  else None.

Definition getUint32 (v : View) (pos : Z) (littleEndian : bool) : option Z :=
  if (0 <=? pos) && (pos + 4 <=? byteLength v) then
    b0 ← getUint8 v pos;
    b1 ← getUint8 v (pos + 1);
    b2 ← getUint8 v (pos + 2);
    b3 ← getUint8 v (pos + 3);
    Some (if littleEndian
          then b0 + b1 * 2 ^ 8 + b2 * 2 ^ 16 + b3 * 2 ^ 24
          else b0 * 2 ^ 24 + b1 * 2 ^ 16 + b2 * 2 ^ 8 + b3)
  else None.

Inductive Endianness := BIG_ENDIAN | LITTLE_ENDIAN.

Record Reader := {
  dataView_ : View;
  littleEndian_ : bool;
  position_ : Z;
}.

(** The constructor. *)
Definition new (data : View) (endianness : Endianness) : Reader :=
  {| dataView_ := toDataView data;
     littleEndian_ := match endianness with
                      | LITTLE_ENDIAN => true
                      | BIG_ENDIAN => false
                      end;
     position_ := 0 |}.

Definition advance (r : Reader) (n : Z) : Reader :=
  {| dataView_ := dataView_ r;
     littleEndian_ := littleEndian_ r;
     position_ := position_ r + n |}.

Definition hasMoreData (r : Reader) : bool :=
  position_ r <? byteLength (dataView_ r).

Definition getPosition (r : Reader) : Z := position_ r.

Definition outOfBounds_ : exn := Error CRITICAL MEDIA BUFFER_READ_OUT_OF_BOUNDS.

Definition readUint8 (r : Reader) : res (Z * Reader) :=
  match getUint8 (dataView_ r) (position_ r) with
  | Some value => Ok (value, advance r 1)
  | None => Throw outOfBounds_
  end.

Definition readUint16 (r : Reader) : res (Z * Reader) :=
  match getUint16 (dataView_ r) (position_ r) (littleEndian_ r) with
  | Some value => Ok (value, advance r 2)
  | None => Throw outOfBounds_
  end.

Definition readUint32 (r : Reader) : res (Z * Reader) :=
  match getUint32 (dataView_ r) (position_ r) (littleEndian_ r) with
  | Some value => Ok (value, advance r 4)
  | None => Throw outOfBounds_
  end.

(** The two words are fetched inside the [try]; the overflow test and the
    cursor update come after it. *)
Definition readUint64 (r : Reader) : res (Z * Reader) :=
  let words :=
    if littleEndian_ r then
      low ← getUint32 (dataView_ r) (position_ r) true;
      high ← getUint32 (dataView_ r) (position_ r + 4) true;
      Some (high, low)
    else
      high ← getUint32 (dataView_ r) (position_ r) false;
      low ← getUint32 (dataView_ r) (position_ r + 4) false;
      Some (high, low) in
  match words with
  | None => Throw outOfBounds_
  | Some (high, low) =>
      if high >? 0x1FFFFF then Throw (Error CRITICAL MEDIA JS_INTEGER_OVERFLOW)
      else Ok (high * 2 ^ 32 + low, advance r 8)
  end.

Definition readBytes (r : Reader) (bytes : Z) : res (View * Reader) :=
  _ ← assert (0 <=? bytes) "Bad call to DataViewReader.readBytes";
  if position_ r + bytes >? byteLength (dataView_ r) then Throw outOfBounds_
  else Ok (toUint8 (dataView_ r) (position_ r) (Some bytes), advance r bytes).

Definition skip (r : Reader) (bytes : Z) : res Reader :=
  _ ← assert (0 <=? bytes) "Bad call to DataViewReader.skip";
  if position_ r + bytes >? byteLength (dataView_ r) then Throw outOfBounds_
  else Ok (advance r bytes).

(** *** Reference reading of a 32-bit word, byte by byte *)

Definition be_word (bs : list byte) : Z :=
  fold_left (fun acc b => acc * 256 + byte_val b) bs 0.

Definition word (littleEndian : bool) (bs : list byte) : Z :=
  if littleEndian then be_word (rev bs) else be_word bs.

(** The [n] bytes a view shows from position [p] on. *)
Definition sub_bytes (v : View) (p : Z) (n : nat) : list byte :=
  take n (drop (Z.to_nat p) (view_bytes v)).

Lemma byte_val_range b : 0 <= byte_val b < 256.
Proof.
  unfold byte_val. pose proof (Byte.to_N_bounded b). lia.
Qed.

Lemma byte_of_Z_val b : byte_of_Z (byte_val b) = b.
Proof.
  unfold byte_of_Z. pose proof (byte_val_range b) as Hr.
  rewrite Z.mod_small by lia. unfold byte_val.
  rewrite N2Z.id, Byte.of_to_N. reflexivity.
Qed.

Lemma byte_val_of_Z z : byte_val (byte_of_Z z) = z mod 256.
Proof.
  unfold byte_of_Z, byte_val.
  assert (Hr : 0 <= z mod 256 < 256) by (apply Z.mod_pos_bound; lia).
  destruct (Byte.of_N (Z.to_N (z mod 256))) as [b|] eqn:E.
  - apply Byte.to_of_N in E. rewrite E. lia.
  - apply Byte.of_N_None_iff in E. lia.
Qed.

Lemma view_bytes_lookup v i :
  wf_view v -> 0 <= i < byteLength v ->
  view_bytes v !! Z.to_nat i = buffer v !! Z.to_nat (byteOffset v + i).
Proof.
  intros (Ho & Hl & Hb) Hi. unfold view_bytes.
  rewrite lookup_take_lt by lia. rewrite lookup_drop. f_equal. lia.
Qed.

Lemma view_bytes_length v :
  wf_view v -> length (view_bytes v) = Z.to_nat (byteLength v).
Proof.
  intros (Ho & Hl & Hb). unfold view_bytes.
  rewrite length_take, length_drop. lia.
Qed.

Lemma getUint8_lookup v p :
  wf_view v -> 0 <= p ->
  getUint8 v p = byte_val <$> view_bytes v !! Z.to_nat p.
Proof.
  intros Hwf Hp. unfold getUint8.
  destruct (Z.leb_spec 0 p); [|lia]. simpl.
  destruct (Z.leb_spec (p + 1) (byteLength v)).
  - rewrite view_bytes_lookup by (auto; lia). reflexivity.
  - rewrite (lookup_ge_None_2 (view_bytes v)); [reflexivity|].
    rewrite view_bytes_length by auto. destruct Hwf as (? & ? & ?). lia.
Qed.

Lemma sub_bytes_4 v p :
  wf_view v -> 0 <= p -> p + 4 <= byteLength v ->
  exists b0 b1 b2 b3,
    sub_bytes v p 4 = [b0; b1; b2; b3] /\
    getUint8 v p = Some (byte_val b0) /\
    getUint8 v (p + 1) = Some (byte_val b1) /\
    getUint8 v (p + 2) = Some (byte_val b2) /\
    getUint8 v (p + 3) = Some (byte_val b3).
Proof.
  intros Hwf Hp Hlen.
  pose proof (view_bytes_length v Hwf) as Hl.
  unfold sub_bytes. set (d := drop (Z.to_nat p) (view_bytes v)).
  assert (Hk : forall i : nat,
             getUint8 v (p + Z.of_nat i) = byte_val <$> d !! i).
  { intros i. rewrite getUint8_lookup by (auto; lia).
    unfold d. rewrite lookup_drop. do 2 f_equal. lia. }
  assert (Hd : (4 <= length d)%nat) by (unfold d; rewrite length_drop; lia).
  pose proof (Hk 0%nat) as E0. pose proof (Hk 1%nat) as E1.
  pose proof (Hk 2%nat) as E2. pose proof (Hk 3%nat) as E3.
  rewrite Z.add_0_r in E0.
  change (Z.of_nat 1) with 1 in E1. change (Z.of_nat 2) with 2 in E2.
  change (Z.of_nat 3) with 3 in E3.
  destruct d as [|b0 [|b1 [|b2 [|b3 tl]]]]; simpl in Hd; try lia.
  exists b0, b1, b2, b3. rewrite E0, E1, E2, E3. repeat split; reflexivity.
Qed.

Lemma getUint32_word v p le :
  wf_view v -> 0 <= p -> p + 4 <= byteLength v ->
  getUint32 v p le = Some (word le (sub_bytes v p 4)) /\
  0 <= word le (sub_bytes v p 4) < 2 ^ 32.
Proof.
  intros Hwf Hp Hlen.
  destruct (sub_bytes_4 v p Hwf Hp Hlen)
    as (b0 & b1 & b2 & b3 & -> & E0 & E1 & E2 & E3).
  unfold getUint32. rewrite E0, E1, E2, E3.
  destruct (Z.leb_spec 0 p); [|lia].
  destruct (Z.leb_spec (p + 4) (byteLength v)); [|lia].
  pose proof (byte_val_range b0). pose proof (byte_val_range b1).
  pose proof (byte_val_range b2). pose proof (byte_val_range b3).
  destruct le; cbn [andb mbind option_bind word be_word rev app fold_left];
    (split; [f_equal; lia | lia]).
Qed.

Lemma getUint32_short v p le :
  byteLength v < p + 4 -> getUint32 v p le = None.
Proof.
  intros H. unfold getUint32.
  destruct (Z.leb_spec (p + 4) (byteLength v)); [lia|].
  rewrite andb_false_r. reflexivity.
Qed.

(** C7. With at least 8 readable bytes, [readUint64] fetches the two 32-bit
    words in the reader's endianness, fails with JS_INTEGER_OVERFLOW exactly
    when the high word exceeds 0x1FFFFF and otherwise returns
    [high * 2^32 + low] and advances by 8; with fewer than 8 bytes left it
    fails with BUFFER_READ_OUT_OF_BOUNDS. *)
Theorem readUint64_spec (r : Reader) :
  wf_view (dataView_ r) -> 0 <= position_ r ->
  let v := dataView_ r in
  let p := position_ r in
  let w0 := word (littleEndian_ r) (sub_bytes v p 4) in
  let w1 := word (littleEndian_ r) (sub_bytes v (p + 4) 4) in
  let high := if littleEndian_ r then w1 else w0 in
  let low := if littleEndian_ r then w0 else w1 in
  (p + 8 <= byteLength v ->
     0 <= high < 2 ^ 32 /\ 0 <= low < 2 ^ 32 /\
     readUint64 r =
       if high >? 0x1FFFFF
       then Throw (Error CRITICAL MEDIA JS_INTEGER_OVERFLOW)
       else Ok (high * 2 ^ 32 + low, advance r 8)) /\
  (byteLength v < p + 8 ->
     readUint64 r = Throw (Error CRITICAL MEDIA BUFFER_READ_OUT_OF_BOUNDS)).
Proof.
  intros Hwf Hp v p w0 w1 high low. split.
  - intros Hlen.
    destruct (getUint32_word v p (littleEndian_ r) Hwf Hp ltac:(lia))
      as [E0 R0].
    destruct (getUint32_word v (p + 4) (littleEndian_ r) Hwf ltac:(lia)
                ltac:(lia)) as [E1 R1].
    fold w0 in E0, R0. fold w1 in E1, R1.
    unfold readUint64. fold v p. subst high low.
    destruct (littleEndian_ r); rewrite E0, E1; simpl; auto.
  - intros Hlen. unfold readUint64. fold v p.
    destruct (littleEndian_ r);
      rewrite (getUint32_short v (p + 4)) by lia;
      destruct (getUint32 v p _); reflexivity.
Qed.

(** A big-endian reader over nine bytes, positioned at the second byte. *)
Definition sample_reader : Reader :=
  advance
    (new (view_of_bytes
            [Byte.xff; Byte.x00; Byte.x1f; Byte.xff; Byte.xff;
             Byte.x00; Byte.x00; Byte.x00; Byte.x2a]) BIG_ENDIAN) 1.

Lemma readUint64_spec_witness :
  readUint64 sample_reader = Ok (0x1FFFFF * 2 ^ 32 + 42, advance sample_reader 8).
Proof.
  assert (Hwf : wf_view (dataView_ sample_reader)) by (vm_compute; intuition discriminate).
  assert (Hp : 0 <= position_ sample_reader) by (vm_compute; discriminate).
  destruct (readUint64_spec sample_reader Hwf Hp) as [H _].
  destruct H as (_ & _ & ->); [vm_compute; discriminate|].
  reflexivity.
Defined.

End DataViewReader.

(** ** [mp4parser]: the configurable box walker *)

Module Mp4Parser.
Import DataViewReader.

(** ToInt32, the wrap-around of JavaScript's bitwise operators. *)
Definition to_int32 (z : Z) : Z := (z + 2 ^ 31) mod 2 ^ 32 - 2 ^ 31.

Definition charCode (c : ascii) : Z := Z.of_N (N_of_ascii c).

(** [typeFromString_]: [code = (code << 8) | chr.charCodeAt(0)] per
    character, after the assertion on the length. *)
Definition typeFromString_ (name : string) : res Z :=
  _ ← assert (Nat.eqb (String.length name) 4)
        "Mp4 box names must be 4 characters long";
  Ok (fold_left
        (fun code chr => to_int32 (Z.lor (to_int32 (Z.shiftl code 8)) (charCode chr)))
        (list_ascii_of_string name) 0).

Inductive BoxType_ := BASIC_BOX | FULL_BOX.

(** The [ParsedBox] handed to a box definition ([parser] is the walker
    itself, threaded explicitly below). *)
Record ParsedBox := {
  partialOkay : bool;
  version : option Z;
  flags : option Z;
  reader : Reader;
  size : Z;
  start : Z;
  has64BitSize : bool;
}.

Definition headerSize (box : ParsedBox) : Z :=
  let basicHeaderSize := 8 in
  let _64BitFieldSize := if has64BitSize box then 8 else 0 in
  let versionAndFlagsSize := match flags box with Some _ => 4 | None => 0 end in
  basicHeaderSize + _64BitFieldSize + versionAndFlagsSize.

(** [data_view_reader] defines no [getLength] method, so every call the
    walker makes to it is a call of [undefined]. *)
Definition getLength (r : Reader) : res Z :=
  Throw (TypeError "reader.getLength is not a function").

Section Walker.

(** The state the registered callbacks close over. *)
Context {St : Type}.

(** A box definition: the two static callbacks of the walker, or a callback
    of the client, which gets the box and returns the new client state and
    whether it called [box.parser.stop()]. *)
Inductive Callback :=
  | children
  | sampleDescription
  | custom (f : ParsedBox -> St -> res (bool * St)).

Record Parser := {
  headers_ : gmap Z BoxType_;
  boxDefinitions_ : gmap Z Callback;
  done_ : bool;
}.

Definition new_parser : Parser :=
  {| headers_ := ∅; boxDefinitions_ := ∅; done_ := false |}.

Definition set_done (this : Parser) (d : bool) : Parser :=
  {| headers_ := headers_ this;
     boxDefinitions_ := boxDefinitions_ this;
     done_ := d |}.

Definition box (type : string) (definition : Callback) (this : Parser)
  : res Parser :=
  typeCode ← typeFromString_ type;
  Ok {| headers_ := <[typeCode := BASIC_BOX]> (headers_ this);
        boxDefinitions_ := <[typeCode := definition]> (boxDefinitions_ this);
        done_ := done_ this |}.

Definition fullBox (type : string) (definition : Callback) (this : Parser)
  : res Parser :=
  typeCode ← typeFromString_ type;
  Ok {| headers_ := <[typeCode := FULL_BOX]> (headers_ this);
        boxDefinitions_ := <[typeCode := definition]> (boxDefinitions_ this);
        done_ := done_ this |}.

Definition stop (this : Parser) : Parser := set_done this true.

(** Outcome of one [parseNext]: the walker, the cursor and the client state
    after it.  [None] below only ever means that the fuel ran out. *)
Definition Step : Type := res (Parser * Reader * St).

(** [stopOnPartial && pos + need > reader.getLength()]. *)
Definition partial_check (stopOnPartial : bool) (r : Reader) (pos need : Z)
  : res bool :=
  if stopOnPartial then len ← getLength r; Ok (pos + need >? len)
  else Ok false.

Fixpoint parseNext (fuel : nat) (this : Parser) (absStart : Z)
    (rd : Reader) (partialOk stopOnPartial : bool) (st : St) {struct fuel}
  : option Step :=
  match fuel with
  | O => None
  | S fuel' =>
    let start0 := getPosition rd in
    match partial_check stopOnPartial rd start0 8 with
    | Throw e => Some (Throw e)
    | Ok true => Some (Ok (set_done this true, rd, st))
    | Ok false =>
    match (sz ← readUint32 rd; ty ← readUint32 sz.2; Ok (sz.1, ty.1, ty.2)) with
    | Throw e => Some (Throw e)
    | Ok (size0, type, rd) =>
    (* switch (size) *)
    let sized : res (option (Z * bool * Reader)) :=
      if size0 =? 0 then
        len ← getLength rd; Ok (Some (len - start0, false, rd))
      else if size0 =? 1 then
        part ← partial_check stopOnPartial rd (getPosition rd) 8;
        if (part : bool) then Ok None
        else s ← readUint64 rd; Ok (Some (s.1, true, s.2))
      else Ok (Some (size0, false, rd)) in
    match sized with
    | Throw e => Some (Throw e)
    | Ok None => Some (Ok (set_done this true, rd, st))
    | Ok (Some (size1, has64, rd)) =>
    match boxDefinitions_ this !! type with
    | Some boxDefinition =>
      let header : res (option (option Z * option Z * Reader)) :=
        match headers_ this !! type with
        | Some FULL_BOX =>
            part ← partial_check stopOnPartial rd (getPosition rd) 4;
            if (part : bool) then Ok None
            else vf ← readUint32 rd;
                 Ok (Some (Some (Z.shiftr vf.1 24),
                           Some (Z.land vf.1 0xFFFFFF), vf.2))
        | _ => Ok (Some (None, None, rd))
        end in
      match header with
      | Throw e => Some (Throw e)
      | Ok None => Some (Ok (set_done this true, rd, st))
      | Ok (Some (ver, flg, rd)) =>
        let payload : res (option (View * Reader)) :=
          end0 ← Ok (start0 + size1);
          end1 ← (if partialOk then
                    len ← getLength rd;
                    Ok (if end0 >? len then len else end0)
                  else Ok end0);
          part ← (if stopOnPartial then
                    len ← getLength rd; Ok (end1 >? len)
                  else Ok false);
          if (part : bool) then Ok None
          else
            let payloadSize := end1 - getPosition rd in
            if payloadSize >? 0 then
              pl ← readBytes rd payloadSize; Ok (Some pl)
            else Ok (Some (view_of_bytes [], rd)) in
        match payload with
        | Throw e => Some (Throw e)
        | Ok None => Some (Ok (set_done this true, rd, st))
        | Ok (Some (pl, rd)) =>
          let payloadReader := new pl BIG_ENDIAN in
          let bx := {| partialOkay := partialOk;
                       version := ver;
                       flags := flg;
                       reader := payloadReader;
                       size := size1;
                       start := start0 + absStart;
                       has64BitSize := has64 |} in
          match boxDefinition with
          | custom f =>
              match f bx st with
              | Throw e => Some (Throw e)
              | Ok (stopped, st') =>
                  Some (Ok (if stopped then stop this else this, rd, st'))
              end
          | children =>
              (* while (box.reader.hasMoreData() && !box.parser.done_) *)
              (fix loop (n : nat) (this : Parser) (brd : Reader) (st : St)
                 : option Step :=
                 if hasMoreData brd && negb (done_ this) then
                   match n with
                   | O => None
                   | S n' =>
                     match parseNext fuel' this (start bx + headerSize bx)
                             brd (partialOkay bx) false st with
                     | None => None
                     | Some (Throw e) => Some (Throw e)
                     | Some (Ok (this', brd', st')) => loop n' this' brd' st'
                     end
                   end
                 else Some (Ok (this, rd, st))) fuel' this payloadReader st
          | sampleDescription =>
              match readUint32 payloadReader with
              | Throw e => Some (Throw e)
              | Ok (count, brd) =>
                (* for (let i = 0; i < count; i++) *)
                (fix loop (n : nat) (i : Z) (this : Parser) (brd : Reader)
                     (st : St) : option Step :=
                   if i <? count then
                     match n with
                     | O => None
                     | S n' =>
                       match parseNext fuel' this (start bx + headerSize bx)
                               brd (partialOkay bx) false st with
                       | None => None
                       | Some (Throw e) => Some (Throw e)
                       | Some (Ok (this', brd', st')) =>
                           if done_ this' then Some (Ok (this', rd, st'))
                           else loop n' (i + 1) this' brd' st'
                       end
                     end
                   else Some (Ok (this, rd, st))) fuel' 0 this brd st
              end
          end
        end
      end
    | None =>
        Some (len ← getLength rd;
              let skipLength :=
                Z.min (start0 + size1 - getPosition rd)
                      (len - getPosition rd) in
              rd' ← skip rd skipLength;
              Ok (this, rd', st))
    end end end end
  end.

(** [parse(data, partialOkay, stopOnPartial)]:
    [while (reader.hasMoreData() && !this.done_) this.parseNext(0, ...)]. *)
Fixpoint parse_loop (fuel : nat) (this : Parser) (rd : Reader)
    (partialOk stopOnPartial : bool) (st : St) : option (res (Parser * St)) :=
  if hasMoreData rd && negb (done_ this) then
    match fuel with
    | O => None
    | S fuel' =>
      match parseNext fuel this 0 rd partialOk stopOnPartial st with
      | None => None
      | Some (Throw e) => Some (Throw e)
      | Some (Ok (this', rd', st')) =>
          parse_loop fuel' this' rd' partialOk stopOnPartial st'
      end
    end
  else Some (Ok (this, st)).

Definition parse (fuel : nat) (this : Parser) (data : View)
    (partialOk stopOnPartial : bool) (st : St) : option (res (Parser * St)) :=
  let rd := new data BIG_ENDIAN in
  parse_loop fuel (set_done this false) rd partialOk stopOnPartial st.

End Walker.

Arguments Callback : clear implicits.
Arguments Parser : clear implicits.
Arguments Step : clear implicits.

End Mp4Parser.

(** ** [uint8array_utils]: hexadecimal conversions *)

Module Uint8ArrayUtils.
Import DataViewReader.

Local Open Scope char_scope.

Definition code_unit (c : ascii) : Z := Z.of_N (N_of_ascii c).

(** Value of a hexadecimal digit, either case: [0-9], [a-f], [A-F]. *)
Definition hex_val (c : ascii) : option Z :=
  let n := code_unit c in
  if (48 <=? n)%Z && (n <=? 57)%Z then Some (n - 48)
  else if (97 <=? n)%Z && (n <=? 102)%Z then Some (n - 87)
  else if (65 <=? n)%Z && (n <=? 70)%Z then Some (n - 55)
  else None.

(** White space that [parseInt] trims, among 8-bit code units: TAB, LF, VT,
    FF, CR, SP and NBSP. *)
Definition is_white (c : ascii) : bool :=
  match N_of_ascii c with
  | 9%N | 10%N | 11%N | 12%N | 13%N | 32%N | 160%N => true
  | _ => false
  end.

Fixpoint trim_start (s : string) : string :=
  match s with
  | String c s' => if is_white c then trim_start s' else s
  | EmptyString => s
  end.

(** The digits [parseInt] consumes: the longest prefix of hexadecimal
    digits, most significant first. *)
Fixpoint hex_prefix (s : string) : list Z :=
  match s with
  | String c s' =>
      match hex_val c with
      | Some d => d :: hex_prefix s'
      | None => []
      end
  | EmptyString => []
  end.

(** [parseInt(s, 16)]; [None] is [NaN]. *)
Definition parseInt16 (s : string) : option Z :=
  let s := trim_start s in
  let '(sign, s) :=
    match s with
    | String "-" s' => (-1, s')
    | String "+" s' => (1, s')
    | _ => (1, s)
    end in
  let s :=
    match s with
    | String "0" (String "x" s') => s'
    | String "0" (String "X" s') => s'
    | _ => s
    end in
  match hex_prefix s with
  | [] => None
  | ds => Some (sign * fold_left (fun acc d => acc * 16 + d) ds 0)
  end.

(** Storing a number into a [Uint8Array] slot. *)
Definition store_uint8 (v : option Z) : byte :=
  match v with
  | Some z => byte_of_Z z
  | None => Byte.x00
  end.

(** [fromHex]: [size = str.length / 2] slots, slot [i] holding
    [parseInt(str.substr(i * 2, 2), 16)]; for an odd length the array has
    the integer part of [size] slots and the last store is dropped. *)
Definition fromHex (str : string) : list byte :=
  map (fun i => store_uint8 (parseInt16 (substring (i * 2) 2 str)))
      (seq 0 (String.length str / 2)).

(** The digit [toString(16)] writes for a value below 16. *)
Definition hex_digit (d : Z) : ascii :=
  ascii_of_N (Z.to_N (if (d <? 10)%Z then 48 + d else 87 + d)).

(** [value.toString(16)] for the value of a byte. *)
Definition toString16 (value : Z) : string :=
  if (value <? 16)%Z then String (hex_digit value) EmptyString
  else String (hex_digit (value / 16))
         (String (hex_digit (value mod 16)) EmptyString).

(** [toHex]: two lower-case digits per byte. *)
Definition toHex (data : View) : string :=
  fold_left
    (fun hex b =>
       let value := toString16 (byte_val b) in
       let value := if Nat.eqb (String.length value) 1
                    then String "0" value else value in
       (hex +:+ value)%string)
    (view_bytes (toUint8 data 0 None)) EmptyString.

End Uint8ArrayUtils.

(** ** [pssh]: building and parsing PSSH boxes *)

Module Pssh.
Import DataViewReader Mp4Parser Uint8ArrayUtils.

(** The fields of a [pssh] object. *)
Record pssh := {
  systemIds : list string;
  cencKeyIds : list string;
  data : list View;
}.

Definition empty : pssh := {| systemIds := []; cencKeyIds := []; data := [] |}.

(** [for (let i = 0; i < numKeyIds; i++)] of [parsePsshBox_]. *)
Fixpoint read_key_ids (n : nat) (rd : Reader) (this : pssh) : res pssh :=
  match n with
  | O => Ok this
  | S n' =>
      kid ← readBytes rd 16;
      read_key_ids n' kid.2
        {| systemIds := systemIds this;
           cencKeyIds := cencKeyIds this ++ [toHex kid.1];
           data := data this |}
  end.

(** [parsePsshBox_]: the callback registered for 'pssh'.  It never calls
    [stop()]. *)
Definition parsePsshBox_ (box : ParsedBox) (this : pssh) : res (bool * pssh) :=
  _ ← assert (bool_decide (is_Some (version box)))
        "PSSH boxes are full boxes and must have a valid version";
  _ ← assert (bool_decide (is_Some (flags box)))
        "PSSH boxes are full boxes and must have a valid flag";
  let ver := default 0 (version box) in
  if ver >? 1 then
    (* "Unrecongnized PSSH version found!" is logged *)
    Ok (false, this)
  else
    let dataView := dataView_ (reader box) in
    _ ← assert (byteOffset dataView >=? 12) "DataView at incorrect position";
    let whole := toUint8 dataView (-12) (Some (size box)) in
    let this := {| systemIds := systemIds this;
                   cencKeyIds := cencKeyIds this;
                   data := data this ++ [whole] |} in
    sys ← readBytes (reader box) 16;
    let this := {| systemIds := systemIds this ++ [toHex sys.1];
                   cencKeyIds := cencKeyIds this;
                   data := data this |} in
    if ver >? 0 then
      numKeyIds ← readUint32 sys.2;
      this ← read_key_ids (Z.to_nat numKeyIds.1) numKeyIds.2 this;
      Ok (false, this)
    else Ok (false, this).

(** The constructor: a walker with 'moov' as a container and 'pssh' as a
    full box, run over [psshBox]. *)
Definition new (fuel : nat) (psshBox : View) : option (res pssh) :=
  match (p ← box "moov" children new_parser;
         fullBox "pssh" (custom parsePsshBox_) p) with
  | Throw e => Some (Throw e)
  | Ok parser =>
      match parse fuel parser psshBox false false empty with
      | None => None
      | Some (Throw e) => Some (Throw e)
      | Some (Ok (_, this)) => Some (Ok this)
      end
  end.

(** [TypedArray.prototype.set(src, offset)] on a fresh array. *)
Definition set_bytes (arr src : list byte) (offset : Z) : res (list byte) :=
  if (offset <? 0) || (offset + Z.of_nat (length src) >? Z.of_nat (length arr))
  then Throw (RangeError "offset is out of bounds")
  else Ok (take (Z.to_nat offset) arr ++ src ++
           drop (Z.to_nat offset + length src) arr).

(** The four bytes [setUint32] stores, big-endian. *)
Definition be32 (val : Z) : list byte :=
  let v := val mod 2 ^ 32 in
  [byte_of_Z (v / 2 ^ 24); byte_of_Z (v / 2 ^ 16);
   byte_of_Z (v / 2 ^ 8); byte_of_Z v].

Definition setUint32 (arr : list byte) (byteOffset : Z) (val : Z)
  : res (list byte) :=
  if (byteOffset <? 0) || (byteOffset + 4 >? Z.of_nat (length arr))
  then Throw (RangeError "Offset is outside the bounds of the DataView")
  else set_bytes arr (be32 val) byteOffset.

(** [for (const keyId of keyIds)] of [createPssh]. *)
Fixpoint write_key_ids (keyIds : list string) (psshBox : list byte)
    (byteCursor : Z) : res (list byte * Z) :=
  match keyIds with
  | [] => Ok (psshBox, byteCursor)
  | keyId :: rest =>
      let KID := fromHex keyId in
      psshBox ← set_bytes psshBox KID byteCursor;
      write_key_ids rest psshBox (byteCursor + Z.of_nat (length KID))
  end.

(** [createPssh(data, systemId, keyIds, version)].  The [Set] of key IDs is
    given by its elements in insertion order. *)
Definition createPssh (data systemId : list byte) (keyIds : list string)
    (version : Z) : res (list byte) :=
  _ ← assert (Z.of_nat (length systemId) =? 16) "Invalid system ID length";
  let dataLength := Z.of_nat (length data) in
  let psshSize := 0x4 + 0x4 + 0x4 + Z.of_nat (length systemId) + 0x4 + dataLength in
  let psshSize :=
    if version >? 0 then psshSize + (0x4 + 16 * Z.of_nat (length keyIds))
    else psshSize in
  let psshBox := replicate (Z.to_nat psshSize) Byte.x00 in
  let byteCursor := 0 in
  psshBox ← setUint32 psshBox byteCursor psshSize;
  let byteCursor := byteCursor + 0x4 in
  psshBox ← setUint32 psshBox byteCursor 0x70737368;
  let byteCursor := byteCursor + 0x4 in
  psshBox ← (if version <? 1 then setUint32 psshBox byteCursor 0
             else setUint32 psshBox byteCursor 0x01000000);
  let byteCursor := byteCursor + 0x4 in
  psshBox ← set_bytes psshBox systemId byteCursor;
  let byteCursor := byteCursor + Z.of_nat (length systemId) in
  '(psshBox, byteCursor) ←
    (if version >? 0 then
       psshBox ← setUint32 psshBox byteCursor (Z.of_nat (length keyIds));
       write_key_ids keyIds psshBox (byteCursor + 0x4)
     else Ok (psshBox, byteCursor));
  psshBox ← setUint32 psshBox byteCursor dataLength;
  let byteCursor := byteCursor + 0x4 in
  psshBox ← set_bytes psshBox data byteCursor;
  let byteCursor := byteCursor + dataLength in
  _ ← assert (byteCursor =? psshSize) "PSSH invalid length.";
  Ok psshBox.

End Pssh.

(** ** Reading from a cursor whose contents are known *)

Module ReaderFacts.
Import DataViewReader.

(** [reads r bs p]: the big-endian cursor [r] shows the bytes [bs] and
    stands at position [p]. *)
Definition reads (r : Reader) (bs : list byte) (p : Z) : Prop :=
  wf_view (dataView_ r) /\ view_bytes (dataView_ r) = bs /\
  position_ r = p /\ littleEndian_ r = false.

Lemma reads_advance r bs p n :
  reads r bs p -> reads (advance r n) bs (p + n).
Proof.
  intros (Hwf & Hb & Hp & Hle). unfold reads, advance; simpl.
  rewrite Hp. auto.
Qed.

Lemma toDataView_wf v : wf_view v -> toDataView v = v.
Proof.
  intros (Ho & Hl & Hb). destruct v as [buf off len]; simpl in *.
  unfold toDataView, toUint8; simpl. f_equal; lia.
Qed.

Lemma wf_view_of_bytes bs : wf_view (view_of_bytes bs).
Proof. unfold wf_view, view_of_bytes; simpl. lia. Qed.

Lemma view_bytes_of_bytes bs : view_bytes (view_of_bytes bs) = bs.
Proof.
  unfold view_bytes, view_of_bytes; simpl.
  rewrite Nat2Z.id, drop_0. apply firstn_all.
Qed.

Lemma reads_new v : wf_view v -> reads (new v BIG_ENDIAN) (view_bytes v) 0.
Proof.
  intros Hwf. unfold reads, new; simpl. rewrite toDataView_wf by auto. auto.
Qed.

Lemma toUint8_sub v p n :
  wf_view v -> 0 <= p -> 0 <= n -> p + n <= byteLength v ->
  let w := toUint8 v p (Some n) in
  wf_view w /\ buffer w = buffer v /\ byteOffset w = byteOffset v + p /\
  byteLength w = n /\
  view_bytes w = take (Z.to_nat n) (drop (Z.to_nat p) (view_bytes v)).
Proof.
  intros (Ho & Hl & Hb) Hp Hn Hpn w.
  assert (E1 : byteOffset w = byteOffset v + p) by (unfold w, toUint8; simpl; lia).
  assert (E2 : byteLength w = n) by (unfold w, toUint8; simpl; lia).
  assert (E3 : buffer w = buffer v) by reflexivity.
  repeat split; auto; try lia.
  - rewrite E1, E2, E3. lia.
  - unfold view_bytes. rewrite E1, E2, E3.
    rewrite skipn_firstn_comm, take_take, drop_drop.
    f_equal; [lia | f_equal; lia].
Qed.

Lemma be_word_be32 x : 0 <= x < 2 ^ 32 -> be_word (Pssh.be32 x) = x.
Proof.
  intros Hx. unfold Pssh.be32, be_word; simpl fold_left.
  rewrite !byte_val_of_Z. rewrite (Z.mod_small x (2 ^ 32)) by lia.
  change (2 ^ 24) with (256 * 256 * 256).
  change (2 ^ 16) with (256 * 256). change (2 ^ 8) with 256.
  rewrite <- !Z.div_div by lia.
  pose proof (Z.div_mod x 256 ltac:(lia)).
  pose proof (Z.div_mod (x / 256) 256 ltac:(lia)).
  pose proof (Z.div_mod (x / 256 / 256) 256 ltac:(lia)).
  assert (0 <= x / 256 / 256 / 256 < 256).
  { split; [repeat apply Z.div_pos; lia|].
    repeat (apply Z.div_lt_upper_bound; [lia|]). lia. }
  rewrite (Z.mod_small (x / 256 / 256 / 256)) by lia. lia.
Qed.

Lemma length_be32 x : length (Pssh.be32 x) = 4%nat.
Proof. reflexivity. Qed.

Lemma readUint32_at r bs p :
  reads r bs p -> 0 <= p -> p + 4 <= Z.of_nat (length bs) ->
  readUint32 r = Ok (be_word (take 4 (drop (Z.to_nat p) bs)), advance r 4).
Proof.
  intros (Hwf & Hb & Hp & Hle) H0 Hlen. unfold readUint32.
  assert (Hl : byteLength (dataView_ r) = Z.of_nat (length bs)).
  { rewrite <- Hb, view_bytes_length by auto. destruct Hwf as (? & ? & ?). lia. }
  destruct (getUint32_word (dataView_ r) (position_ r) (littleEndian_ r))
    as [E _]; auto; try lia.
  rewrite E, Hle, Hp. unfold word, sub_bytes. rewrite Hb. reflexivity.
Qed.

Lemma readUint32_be32 r bs p x :
  reads r bs p -> 0 <= p -> 0 <= x < 2 ^ 32 ->
  take 4 (drop (Z.to_nat p) bs) = Pssh.be32 x ->
  readUint32 r = Ok (x, advance r 4).
Proof.
  intros Hr Hp Hx Ht.
  assert (Hlen : p + 4 <= Z.of_nat (length bs)).
  { apply (f_equal (@length _)) in Ht.
    rewrite length_take, length_drop, length_be32 in Ht. lia. }
  rewrite (readUint32_at r bs p) by auto. rewrite Ht, be_word_be32 by auto.
  reflexivity.
Qed.

Lemma readBytes_at r bs p n :
  reads r bs p -> 0 <= p -> 0 <= n -> p + n <= Z.of_nat (length bs) ->
  exists w,
    readBytes r n = Ok (w, advance r n) /\
    w = toUint8 (dataView_ r) p (Some n) /\
    wf_view w /\ buffer w = buffer (dataView_ r) /\
    byteOffset w = byteOffset (dataView_ r) + p /\ byteLength w = n /\
    view_bytes w = take (Z.to_nat n) (drop (Z.to_nat p) bs).
Proof.
  intros (Hwf & Hb & Hp & Hle) H0 Hn Hlen.
  assert (Hl : byteLength (dataView_ r) = Z.of_nat (length bs)).
  { rewrite <- Hb, view_bytes_length by auto. destruct Hwf as (? & ? & ?). lia. }
  exists (toUint8 (dataView_ r) p (Some n)).
  destruct (toUint8_sub (dataView_ r) p n) as (W1 & W2 & W3 & W4 & W5);
    auto; try lia.
  rewrite Hb in W5. repeat split; auto; try apply W1.
  unfold readBytes, assert.
  destruct (Z.leb_spec 0 n); [|lia]. simpl.
  rewrite Hp. destruct (Z.gtb_spec (p + n) (byteLength (dataView_ r))); [lia|].
  reflexivity.
Qed.

End ReaderFacts.


(** ** Hexadecimal round trip *)

Module HexFacts.
Import DataViewReader Uint8ArrayUtils.

(** Lower-case hexadecimal digits, the alphabet [toHex] writes. *)
Definition is_lower_hex (c : ascii) : bool :=
  match hex_val c with
  | Some d => Ascii.eqb (hex_digit d) c
  | None => false
  end.

Fixpoint all_lower_hex (s : string) : bool :=
  match s with
  | String c s' => is_lower_hex c && all_lower_hex s'
  | EmptyString => true
  end.

(** A key ID as the manifest parser normalises it: 32 lower-case
    hexadecimal digits. *)
Definition key_id_ok (k : string) : bool :=
  Nat.eqb (String.length k) 32 && all_lower_hex k.

(** The two digits [toHex] writes for one byte. *)
Definition byte_hex (b : byte) : string :=
  let value := toString16 (byte_val b) in
  if Nat.eqb (String.length value) 1 then String "0" value else value.

Definition hex_of_bytes (bs : list byte) : string :=
  fold_left (fun hex b => (hex +:+ byte_hex b)%string) bs EmptyString.

Lemma toHex_bytes v :
  wf_view v -> toHex v = hex_of_bytes (view_bytes v).
Proof.
  intros Hwf. unfold toHex, hex_of_bytes.
  change (toUint8 v 0 None) with (toDataView v).
  rewrite ReaderFacts.toDataView_wf by auto. reflexivity.
Qed.

Lemma append_cons x (a b : string) :
  (String x a +:+ b)%string = String x (a +:+ b)%string.
Proof. reflexivity. Qed.

Lemma append_assoc (a b c : string) :
  ((a +:+ b) +:+ c = a +:+ (b +:+ c))%string.
Proof.
  induction a as [|x a IH]; [reflexivity|].
  rewrite !append_cons. f_equal. exact IH.
Qed.

Lemma append_nil_r (a : string) : (a +:+ EmptyString)%string = a.
Proof.
  induction a as [|x a IH]; [reflexivity|].
  rewrite append_cons. f_equal. exact IH.
Qed.

Lemma hex_fold_acc bs acc :
  fold_left (fun hex b => (hex +:+ byte_hex b)%string) bs acc
  = (acc +:+ hex_of_bytes bs)%string.
Proof.
  unfold hex_of_bytes. revert acc.
  induction bs as [|b bs IH]; intros acc; simpl.
  - symmetry. apply append_nil_r.
  - change (EmptyString +:+ byte_hex b)%string with (byte_hex b).
    rewrite IH, (IH (byte_hex b)), append_assoc. reflexivity.
Qed.

Lemma hex_of_bytes_cons b bs :
  hex_of_bytes (b :: bs) = (byte_hex b +:+ hex_of_bytes bs)%string.
Proof. unfold hex_of_bytes at 1. simpl. apply hex_fold_acc. Qed.

Lemma fromHex_cons a b s :
  fromHex (String a (String b s))
  = store_uint8 (parseInt16 (String a (String b EmptyString))) :: fromHex s.
Proof.
  unfold fromHex. cbn [String.length].
  change (S (S (String.length s))) with (2 + String.length s)%nat.
  replace ((2 + String.length s) / 2)%nat with (S (String.length s / 2)).
  2:{ rewrite (Nat.div_add_l 1 2) by lia. reflexivity. }
  cbn [seq map]. f_equal.
  - simpl. destruct s; reflexivity.
  - rewrite <- seq_shift, map_map. apply map_ext. intros i.
    replace (S i * 2)%nat with (S (S (i * 2))) by lia. reflexivity.
Qed.

Lemma length_fromHex s : length (fromHex s) = (String.length s / 2)%nat.
Proof. unfold fromHex. rewrite length_map, length_seq. reflexivity. Qed.

Lemma lower_hex_pair a b :
  is_lower_hex a = true -> is_lower_hex b = true ->
  byte_hex (store_uint8 (parseInt16 (String a (String b EmptyString))))
  = String a (String b EmptyString).
Proof.
  intros Ha Hb.
  assert (Hca : In a (list_ascii_of_string "0123456789abcdef")).
  { destruct a as [[] [] [] [] [] [] [] []]; try discriminate Ha;
      vm_compute; tauto. }
  assert (Hcb : In b (list_ascii_of_string "0123456789abcdef")).
  { destruct b as [[] [] [] [] [] [] [] []]; try discriminate Hb;
      vm_compute; tauto. }
  simpl in Hca, Hcb.
  repeat (destruct Hca as [<- | Hca]; [
    repeat (destruct Hcb as [<- | Hcb]; [vm_compute; reflexivity|]);
    destruct Hcb |]).
  destruct Hca.
Qed.

Lemma hex_roundtrip_even (n : nat) : forall s,
  String.length s = (2 * n)%nat -> all_lower_hex s = true ->
  hex_of_bytes (fromHex s) = s.
Proof.
  induction n as [|n IH]; intros s Hl Hh.
  - destruct s; [reflexivity | discriminate].
  - destruct s as [|a [|b s]]; simpl in Hl; try lia.
    simpl in Hh. apply andb_prop in Hh as [Ha Hh].
    apply andb_prop in Hh as [Hb Hh].
    rewrite fromHex_cons, hex_of_bytes_cons, lower_hex_pair by auto.
    simpl. rewrite IH by (auto; lia). reflexivity.
Qed.

Lemma key_id_roundtrip k :
  key_id_ok k = true ->
  length (fromHex k) = 16%nat /\ hex_of_bytes (fromHex k) = k.
Proof.
  unfold key_id_ok. intros H. apply andb_prop in H as [Hl Hh].
  apply Nat.eqb_eq in Hl. split.
  - rewrite length_fromHex, Hl. reflexivity.
  - apply (hex_roundtrip_even 16); auto.
Qed.

End HexFacts.


(** ** The layout [createPssh] writes *)

Module PsshFacts.
Import DataViewReader Mp4Parser Uint8ArrayUtils Pssh ReaderFacts HexFacts.

(** A partly written box: [pre] followed by [n] bytes still zero. *)
Definition fill (pre : list byte) (n : nat) : list byte :=
  pre ++ replicate n Byte.x00.

Ltac bind_ok := cbn [mbind res_bind Js.bind].

Lemma set_bytes_fill pre n src c :
  c = Z.of_nat (length pre) -> (length src <= n)%nat ->
  set_bytes (fill pre n) src c = Ok (fill (pre ++ src) (n - length src)).
Proof.
  intros -> Hle. unfold set_bytes, fill.
  rewrite length_app, length_replicate.
  destruct (Z.ltb_spec (Z.of_nat (length pre)) 0); [lia|].
  destruct (Z.gtb_spec (Z.of_nat (length pre) + Z.of_nat (length src))
              (Z.of_nat (length pre + n))); [lia|].
  simpl. f_equal. rewrite Nat2Z.id, take_app_length.
  rewrite drop_app_add, drop_replicate, <- app_assoc. reflexivity.
Qed.

Lemma setUint32_fill pre n val c :
  c = Z.of_nat (length pre) -> (4 <= n)%nat ->
  setUint32 (fill pre n) c val = Ok (fill (pre ++ be32 val) (n - 4)).
Proof.
  intros -> Hle. unfold setUint32.
  assert (Hl : length (fill pre n) = (length pre + n)%nat)
    by (unfold fill; rewrite length_app, length_replicate; reflexivity).
  rewrite Hl.
  destruct (Z.ltb_spec (Z.of_nat (length pre)) 0); [lia|].
  destruct (Z.gtb_spec (Z.of_nat (length pre) + 4)
              (Z.of_nat (length pre + n))); [lia|].
  simpl. apply set_bytes_fill; auto.
Qed.

Lemma write_key_ids_fill keyIds : forall pre n c,
  c = Z.of_nat (length pre) ->
  Forall (fun k => key_id_ok k = true) keyIds ->
  (16 * length keyIds <= n)%nat ->
  write_key_ids keyIds (fill pre n) c
  = Ok (fill (pre ++ concat (map fromHex keyIds)) (n - 16 * length keyIds),
        c + 16 * Z.of_nat (length keyIds)).
Proof.
  induction keyIds as [|k ks IH]; intros pre n c Hc Hok Hn.
  - simpl. rewrite app_nil_r, Nat.sub_0_r, Z.add_0_r. reflexivity.
  - inversion Hok as [|? ? Hk Hks]; subst.
    destruct (key_id_roundtrip k Hk) as [Hlen _].
    cbn [write_key_ids]. simpl length in Hn.
    rewrite set_bytes_fill by (auto; lia).
    cbn [mbind res_bind Js.bind].
    rewrite IH; auto.
    + rewrite Hlen. cbn [map concat length]. rewrite <- app_assoc.
      do 2 f_equal; [f_equal; lia | lia].
    + rewrite length_app. lia.
    + lia.
Qed.

(** The bytes of a version-1 box. *)
Definition box_v1 (data systemId : list byte) (keyIds : list string)
  : list byte :=
  be32 (36 + Z.of_nat (length data) + 16 * Z.of_nat (length keyIds)) ++
  be32 0x70737368 ++ be32 0x01000000 ++ systemId ++
  be32 (Z.of_nat (length keyIds)) ++ concat (map fromHex keyIds) ++
  be32 (Z.of_nat (length data)) ++ data.

Lemma length_concat_key_ids keyIds :
  Forall (fun k => key_id_ok k = true) keyIds ->
  length (concat (map fromHex keyIds)) = (16 * length keyIds)%nat.
Proof.
  induction 1 as [|k ks Hk _ IH]; [reflexivity|].
  cbn [map concat]. rewrite length_app, IH.
  destruct (key_id_roundtrip k Hk) as [-> _]. simpl. lia.
Qed.

Lemma length_box_v1 data systemId keyIds :
  length systemId = 16%nat ->
  Forall (fun k => key_id_ok k = true) keyIds ->
  Z.of_nat (length (box_v1 data systemId keyIds))
  = 36 + Z.of_nat (length data) + 16 * Z.of_nat (length keyIds).
Proof.
  intros Hs Hk. unfold box_v1.
  rewrite !length_app, !length_be32, Hs, length_concat_key_ids by auto. lia.
Qed.

Lemma createPssh_v1 data systemId keyIds :
  length systemId = 16%nat ->
  Forall (fun k => key_id_ok k = true) keyIds ->
  createPssh data systemId keyIds 1 = Ok (box_v1 data systemId keyIds).
Proof.
  intros Hs Hk. unfold createPssh, assert. rewrite Hs.
  change (Z.of_nat 16 =? 16) with true.
  change (1 >? 0) with true. change (1 <? 1) with false.
  cbn [mbind res_bind Js.bind].
  set (d := length data). set (k := length keyIds).
  set (sz := 4 + 4 + 4 + Z.of_nat 16 + 4 + Z.of_nat d + (4 + 16 * Z.of_nat k)).
  assert (Esz : Z.to_nat sz = (36 + d + 16 * k)%nat) by (unfold sz; lia).
  rewrite Esz.
  change (replicate (36 + d + 16 * k) Byte.x00)
    with (fill [] (36 + d + 16 * k)).
  assert (Hc : length (concat (map fromHex keyIds)) = (16 * k)%nat)
    by (apply length_concat_key_ids; auto).
  rewrite (setUint32_fill []) by (simpl; lia). bind_ok.
  rewrite (setUint32_fill (_ ++ _)) by (simpl; lia). bind_ok.
  rewrite (setUint32_fill (_ ++ _)) by (simpl; lia). bind_ok.
  rewrite (set_bytes_fill (_ ++ _)) by (simpl; lia). bind_ok.
  rewrite (setUint32_fill (_ ++ _))
    by (rewrite ?length_app, ?length_be32, ?Hs; simpl; lia).
  bind_ok.
  rewrite (write_key_ids_fill keyIds (_ ++ _));
    [| rewrite ?length_app, ?length_be32, ?Hs; simpl; lia | auto | fold k; lia].
  bind_ok.
  rewrite (setUint32_fill (_ ++ _))
    by (rewrite ?length_app, ?length_be32, ?Hs, ?Hc; fold k; simpl; lia).
  bind_ok.
  rewrite (set_bytes_fill (_ ++ _))
    by (rewrite ?length_app, ?length_be32, ?Hs, ?Hc; fold k d; simpl; lia).
  bind_ok.
  replace (0 + 4 + 4 + 4 + Z.of_nat 16 + 4 + 16 * Z.of_nat (length keyIds)
           + 4 + Z.of_nat d =? sz) with true
    by (symmetry; apply Z.eqb_eq; unfold sz; fold k; lia).
  bind_ok. f_equal. unfold fill, box_v1. fold d k. rewrite Hs.
  replace (36 + d + 16 * k - 4 - 4 - 4 - 16 - 4 - 16 * k - 4 - d)%nat
    with 0%nat by lia.
  simpl replicate. rewrite app_nil_r.
  replace sz with (36 + Z.of_nat d + 16 * Z.of_nat k) by (unfold sz; lia).
  simpl app at 1. rewrite <- !app_assoc. reflexivity.
Qed.

End PsshFacts.


(** ** One step of the walker on a full box with a client callback *)

Module WalkerFacts.
Import DataViewReader Mp4Parser Pssh ReaderFacts.

Lemma advance_advance r a b : advance (advance r a) b = advance r (a + b).
Proof. unfold advance; simpl. f_equal. lia. Qed.

Lemma take_header (X a b c : list byte) :
  take 12 X = a ++ b ++ c ->
  length a = 4%nat -> length b = 4%nat -> length c = 4%nat ->
  take 4 X = a /\ take 4 (drop 4 X) = b /\ take 4 (drop 8 X) = c.
Proof.
  intros H Ha Hb Hc.
  rewrite <- (take_drop 12 X), H.
  destruct a as [|a0 [|a1 [|a2 [|a3 [|]]]]]; try discriminate Ha.
  destruct b as [|b0 [|b1 [|b2 [|b3 [|]]]]]; try discriminate Hb.
  destruct c as [|c0 [|c1 [|c2 [|c3 [|]]]]]; try discriminate Hc.
  repeat split; reflexivity.
Qed.

(** The payload view the walker hands to the callback of a box of [sz]
    bytes that starts at position [p] and has a 12-byte header. *)
Definition payload_of (rd : Reader) (p sz : Z) : View :=
  if sz - 12 >? 0 then toUint8 (dataView_ rd) (p + 12) (Some (sz - 12))
  else view_of_bytes [].

Section Step.
Context {St : Type}.

Lemma parseNext_full_custom (fuel : nat) (this : Parser St) (absStart : Z)
    (rd : Reader) (bs : list byte) (p sz ty vf : Z)
    (f : ParsedBox -> St -> res (bool * St)) (st : St) :
  reads rd bs p -> 0 <= p ->
  take 12 (drop (Z.to_nat p) bs) = be32 sz ++ be32 ty ++ be32 vf ->
  12 <= sz < 2 ^ 32 -> 0 <= ty < 2 ^ 32 -> 0 <= vf < 2 ^ 32 ->
  p + sz <= Z.of_nat (length bs) ->
  boxDefinitions_ this !! ty = Some (custom f) ->
  headers_ this !! ty = Some FULL_BOX ->
  parseNext (S fuel) this absStart rd false false st
  = Some (match f {| partialOkay := false;
                     version := Some (Z.shiftr vf 24);
                     flags := Some (Z.land vf 0xFFFFFF);
                     reader := DataViewReader.new (payload_of rd p sz) BIG_ENDIAN;
                     size := sz;
                     start := p + absStart;
                     has64BitSize := false |} st with
          | Throw e => Throw e
          | Ok (stopped, st') =>
              Ok (if stopped then stop this else this, advance rd sz, st')
          end).
Proof.
  intros Hr Hp Hhdr Hsz Hty Hvf Hlen Hdef Hhd.
  destruct (take_header _ _ _ _ Hhdr) as (H0 & H4 & H8); try reflexivity.
  rewrite drop_drop in H4, H8.
  assert (Hpos : position_ rd = p) by apply Hr.
  assert (R0 : readUint32 rd = Ok (sz, advance rd 4))
    by (apply (readUint32_be32 rd bs p); auto; lia).
  assert (R4 : readUint32 (advance rd 4) = Ok (ty, advance (advance rd 4) 4)).
  { apply (readUint32_be32 _ bs (p + 4)); auto using reads_advance; try lia.
    rewrite <- H4. do 2 f_equal. lia. }
  assert (R8 : readUint32 (advance (advance rd 4) 4)
               = Ok (vf, advance (advance (advance rd 4) 4) 4)).
  { apply (readUint32_be32 _ bs (p + 4 + 4));
      auto using reads_advance; try lia.
    rewrite <- H8. do 2 f_equal. lia. }
  cbn [parseNext partial_check]. rewrite R0.
  cbn [mbind res_bind Js.bind fst snd]. rewrite R4.
  cbn [mbind res_bind Js.bind fst snd].
  destruct (Z.eqb_spec sz 0); [lia|]. destruct (Z.eqb_spec sz 1); [lia|].
  rewrite Hdef, Hhd. cbn [mbind res_bind Js.bind]. rewrite R8.
  cbn [mbind res_bind Js.bind fst snd].
  unfold getPosition. cbn [advance position_]. rewrite Hpos.
  unfold payload_of.
  replace (p + sz - (p + 4 + 4 + 4)) with (sz - 12) by lia.
  destruct (Z.gtb_spec (sz - 12) 0) as [Hgt|Hle].
  - assert (Hr3 : reads (advance (advance (advance rd 4) 4) 4) bs
                     (p + 4 + 4 + 4)) by (repeat apply reads_advance; auto).
    destruct (readBytes_at _ bs (p + 4 + 4 + 4) (sz - 12) Hr3)
      as (w & Ew & -> & _); try lia.
    rewrite Ew. cbn [mbind res_bind Js.bind advance dataView_].
    replace (p + 4 + 4 + 4) with (p + 12) by lia.
    destruct (f _ st) as [[stopped st']|e]; [|reflexivity].
    rewrite !advance_advance. repeat f_equal; lia.
  - destruct (f _ st) as [[stopped st']|e]; [|reflexivity].
    rewrite !advance_advance. repeat f_equal; lia.
Qed.

End Step.

End WalkerFacts.


(** ** The PSSH parser on the boxes it meets *)

Module PsshParse.
Import DataViewReader Mp4Parser Uint8ArrayUtils Pssh.
Import ReaderFacts HexFacts PsshFacts WalkerFacts.

(** The walker the constructor of [pssh] configures. *)
Definition pssh_parser : Parser pssh :=
  {| headers_ := <[0x70737368 := FULL_BOX]> (<[0x6d6f6f76 := BASIC_BOX]> ∅);
     boxDefinitions_ :=
       <[0x70737368 := custom parsePsshBox_]> (<[0x6d6f6f76 := children]> ∅);
     done_ := false |}.

Lemma pssh_parser_built :
  (p ← box "moov" children new_parser;
   fullBox "pssh" (custom parsePsshBox_) p) = Ok pssh_parser.
Proof. reflexivity. Qed.

Lemma parsePsshBox_unknown_version (bx : ParsedBox) (this : pssh) (v : Z) :
  version bx = Some v -> 2 <= v -> is_Some (flags bx) ->
  parsePsshBox_ bx this = Ok (false, this).
Proof.
  intros Hv Hge Hf. unfold parsePsshBox_, assert.
  rewrite Hv. rewrite !bool_decide_eq_true_2 by eauto.
  cbn [mbind res_bind Js.bind default from_option id].
  destruct (Z.gtb_spec v 1); [reflexivity | lia].
Qed.

Lemma read_key_ids_ok (ks : list string) : forall r bs q this rest,
  reads r bs q -> 0 <= q ->
  Forall (fun k => key_id_ok k = true) ks ->
  drop (Z.to_nat q) bs = concat (map fromHex ks) ++ rest ->
  read_key_ids (length ks) r this
  = Ok {| systemIds := systemIds this;
          cencKeyIds := cencKeyIds this ++ ks;
          data := data this |}.
Proof.
  induction ks as [|k ks IH]; intros r bs q this rest Hr Hq Hok Hd.
  - simpl. rewrite app_nil_r. destruct this; reflexivity.
  - inversion Hok as [|? ? Hk Hks]; subst.
    destruct (key_id_roundtrip k Hk) as [Hl Hrt].
    cbn [map concat] in Hd. rewrite <- app_assoc in Hd.
    assert (Hlen : q + 16 <= Z.of_nat (length bs)).
    { apply (f_equal (@length _)) in Hd.
      rewrite length_drop, !length_app, Hl in Hd. lia. }
    destruct (readBytes_at r bs q 16 Hr) as (w & Ew & _ & Hwf & _ & _ & _ & Hb);
      try lia.
    cbn [length read_key_ids]. rewrite Ew.
    cbn [mbind res_bind Js.bind fst snd systemIds cencKeyIds data].
    rewrite toHex_bytes, Hb, Hd by auto.
    change (Z.to_nat 16) with 16%nat. rewrite <- Hl at 1.
    rewrite take_app_length, Hrt.
    rewrite (IH (advance r 16) bs (q + 16) _ rest);
      auto using reads_advance; try lia.
    + cbn [systemIds cencKeyIds data]. rewrite <- app_assoc. reflexivity.
    + replace (Z.to_nat (q + 16)) with (Z.to_nat q + 16)%nat by lia.
      rewrite <- drop_drop, Hd, <- Hl, drop_app_length. reflexivity.
Qed.

(** C10. A 'pssh' box whose version field is 2 or more leaves the [pssh]
    object as it was and throws nothing: the callback returns at once (for
    any box it is handed), and the walker, met with such a box, ends the
    step with the record unchanged, [done_] not set and the cursor on the
    box that follows. *)
Theorem pssh_unknown_version_ignored :
  (forall (bx : ParsedBox) (this : pssh) (v : Z),
      version bx = Some v -> 2 <= v -> is_Some (flags bx) ->
      parsePsshBox_ bx this = Ok (false, this)) /\
  (forall (fuel : nat) (absStart : Z) (rd : Reader) (bs : list byte)
          (p sz vf : Z) (this : pssh),
      reads rd bs p -> 0 <= p ->
      take 12 (drop (Z.to_nat p) bs)
        = be32 sz ++ be32 0x70737368 ++ be32 vf ->
      12 <= sz < 2 ^ 32 -> 0 <= vf < 2 ^ 32 -> 2 <= Z.shiftr vf 24 ->
      p + sz <= Z.of_nat (length bs) ->
      parseNext (S fuel) pssh_parser absStart rd false false this
      = Some (Ok (pssh_parser, advance rd sz, this))).
Proof.
  split; [exact parsePsshBox_unknown_version|].
  intros fuel absStart rd bs p sz vf this Hr Hp Hhdr Hsz Hvf Hver Hlen.
  rewrite (parseNext_full_custom fuel pssh_parser absStart rd bs p sz
             0x70737368 vf parsePsshBox_ this); auto; try reflexivity; try lia.
  rewrite (parsePsshBox_unknown_version _ this (Z.shiftr vf 24));
    simpl; eauto.
Qed.

(** A version-2 box of 16 bytes followed by four more bytes. *)
Definition unknown_version_sample : list byte :=
  be32 16 ++ be32 0x70737368 ++ be32 0x02000000 ++
  [Byte.x01; Byte.x02; Byte.x03; Byte.x04] ++ be32 7.

Lemma pssh_unknown_version_ignored_witness :
  let rd := DataViewReader.new (view_of_bytes unknown_version_sample)
              BIG_ENDIAN in
  parseNext 1 pssh_parser 0 rd false false empty
  = Some (Ok (pssh_parser, advance rd 16, empty)).
Proof.
  intros rd.
  apply (proj2 pssh_unknown_version_ignored 0%nat 0 rd
           unknown_version_sample 0 16 0x02000000 empty).
  - apply reads_new, wf_view_of_bytes.
  - lia.
  - reflexivity.
  - lia.
  - lia.
  - vm_compute. discriminate.
  - vm_compute. discriminate.
Defined.

Lemma drop_box_v1_12 data systemId keyIds :
  drop 12 (box_v1 data systemId keyIds)
  = systemId ++ be32 (Z.of_nat (length keyIds)) ++
    concat (map fromHex keyIds) ++ be32 (Z.of_nat (length data)) ++ data.
Proof. reflexivity. Qed.

(** C8 (amended). For a 16-byte system ID, key IDs that are 32 lower-case
    hexadecimal digits each and a payload with which the box size fits the
    32-bit size field, [createPssh] at version 1 succeeds and the parser,
    run on the box, records exactly the system ID in hexadecimal, the key
    IDs in order, and a view whose bytes are the box. *)
Theorem pssh_round_trip (data systemId : list byte) (keyIds : list string) :
  length systemId = 16%nat ->
  Forall (fun k => key_id_ok k = true) keyIds ->
  36 + Z.of_nat (length data) + 16 * Z.of_nat (length keyIds) < 2 ^ 32 ->
  exists bx,
    createPssh data systemId keyIds 1 = Ok bx /\
    forall fuel, exists whole,
      Pssh.new (S fuel) (view_of_bytes bx)
      = Some (Ok {| systemIds := [toHex (view_of_bytes systemId)];
                    cencKeyIds := keyIds;
                    data := [whole] |}) /\
      view_bytes whole = bx.
Proof.
  intros Hs Hk Hsz. exists (box_v1 data systemId keyIds).
  split; [apply createPssh_v1; auto|].
  intros fuel. exists (view_of_bytes (box_v1 data systemId keyIds)).
  split; [|apply view_bytes_of_bytes].
  set (bx := box_v1 data systemId keyIds).
  assert (Hlen : Z.of_nat (length bx)
                 = 36 + Z.of_nat (length data) + 16 * Z.of_nat (length keyIds))
    by (apply length_box_v1; auto).
  set (sz := 36 + Z.of_nat (length data) + 16 * Z.of_nat (length keyIds)) in *.
  assert (Hsz36 : 36 <= sz < 2 ^ 32) by (unfold sz; lia).
  set (rd := DataViewReader.new (view_of_bytes bx) BIG_ENDIAN).
  assert (Hrd : reads rd bx 0).
  { pose proof (reads_new (view_of_bytes bx) (wf_view_of_bytes bx)) as H.
    rewrite view_bytes_of_bytes in H. exact H. }
  assert (Hdv : dataView_ rd = view_of_bytes bx)
    by (apply toDataView_wf, wf_view_of_bytes).
  (* the view on the payload and the cursor the callback gets *)
  destruct (toUint8_sub (view_of_bytes bx) 12 (sz - 12))
    as (Wwf & Wbuf & Woff & Wlen & Wbytes);
    [apply wf_view_of_bytes | lia | lia
    | unfold view_of_bytes; cbn [byteLength]; lia |].
  set (w := toUint8 (view_of_bytes bx) 12 (Some (sz - 12))) in *.
  rewrite view_bytes_of_bytes in Wbytes.
  change (byteOffset (view_of_bytes bx)) with 0 in Woff.
  change (buffer (view_of_bytes bx)) with bx in Wbuf.
  change (Z.to_nat 12) with 12%nat in Wbytes.
  rewrite firstn_all2 in Wbytes by (rewrite length_drop; lia).
  unfold bx in Wbytes. rewrite drop_box_v1_12 in Wbytes. fold bx in Wbytes.
  assert (Hpl : payload_of rd 0 sz = w).
  { unfold payload_of. destruct (Z.gtb_spec (sz - 12) 0); [|lia].
    rewrite Hdv. reflexivity. }
  set (prd := DataViewReader.new w BIG_ENDIAN).
  assert (Hprd : reads prd (view_bytes w) 0) by (apply reads_new; auto).
  assert (Hpdv : dataView_ prd = w) by (apply toDataView_wf; auto).
  (* the callback *)
  assert (Hcb :
    parsePsshBox_ {| partialOkay := false;
                     version := Some (Z.shiftr 0x01000000 24);
                     flags := Some (Z.land 0x01000000 0xFFFFFF);
                     reader := prd;
                     size := sz;
                     start := 0 + 0;
                     has64BitSize := false |} empty
    = Ok (false, {| systemIds := [toHex (view_of_bytes systemId)];
                    cencKeyIds := keyIds;
                    data := [view_of_bytes bx] |})).
  { unfold parsePsshBox_, assert.
    cbn [version flags reader size]. rewrite !bool_decide_eq_true_2 by eauto.
    cbn [mbind res_bind Js.bind default from_option id].
    change (Z.shiftr 0x01000000 24) with 1.
    change (1 >? 1) with false. change (1 >? 0) with true. cbv iota.
    rewrite Hpdv, Woff. change (0 + 12 >=? 12) with true.
    cbn [mbind res_bind Js.bind].
    assert (Hwhole : toUint8 w (-12) (Some sz) = view_of_bytes bx).
    { unfold toUint8. rewrite Wbuf, Woff, Wlen. unfold view_of_bytes.
      f_equal; lia. }
    rewrite Hwhole.
    destruct (readBytes_at prd (view_bytes w) 0 16 Hprd)
      as (s16 & Es & _ & Swf & _ & _ & _ & Sb);
      [lia | lia | rewrite Wbytes, length_app, Hs; lia |].
    rewrite Es. cbn [mbind res_bind Js.bind fst snd].
    rewrite Wbytes in Sb. change (Z.to_nat 16) with 16%nat in Sb.
    change (Z.to_nat 0) with 0%nat in Sb. rewrite drop_0 in Sb.
    rewrite <- Hs in Sb at 1. rewrite take_app_length in Sb.
    rewrite (readUint32_be32 (advance prd 16) (view_bytes w) (0 + 16)
               (Z.of_nat (length keyIds)));
      [| apply reads_advance; auto | lia | lia |].
    2:{ rewrite Wbytes. change (Z.to_nat (0 + 16)) with 16%nat.
        rewrite <- Hs at 1. rewrite drop_app_length. reflexivity. }
    cbn [mbind res_bind Js.bind fst snd]. rewrite Nat2Z.id.
    rewrite (read_key_ids_ok keyIds (advance (advance prd 16) 4)
               (view_bytes w) (0 + 16 + 4) _
               (be32 (Z.of_nat (length data)) ++ data));
      [| repeat apply reads_advance; auto | lia | auto |].
    2:{ rewrite Wbytes. change (Z.to_nat (0 + 16 + 4)) with (16 + 4)%nat.
        rewrite <- drop_drop. rewrite <- Hs at 1.
        rewrite drop_app_length. reflexivity. }
    cbn [mbind res_bind Js.bind systemIds cencKeyIds Pssh.data Pssh.empty app].
    rewrite (toHex_bytes s16), Sb by auto.
    rewrite (toHex_bytes (view_of_bytes systemId)), view_bytes_of_bytes
      by apply wf_view_of_bytes.
    reflexivity. }
  (* the walker *)
  unfold Pssh.new. rewrite pssh_parser_built. unfold parse.
  change (set_done pssh_parser false) with pssh_parser. fold rd.
  cbn [parse_loop].
  assert (Hmore : hasMoreData rd = true).
  { unfold hasMoreData. rewrite Hdv. apply Z.ltb_lt.
    unfold view_of_bytes; cbn [byteLength position_ rd DataViewReader.new].
    lia. }
  rewrite Hmore. cbn [done_ pssh_parser negb andb].
  rewrite (parseNext_full_custom fuel pssh_parser 0 rd bx 0 sz
             0x70737368 0x01000000 parsePsshBox_ empty);
    auto; try reflexivity; try lia.
  rewrite Hpl. fold prd. rewrite Hcb.
  assert (Hend : hasMoreData (advance rd sz) = false).
  { unfold hasMoreData. cbn [advance dataView_ position_]. rewrite Hdv.
    apply Z.ltb_ge. unfold view_of_bytes; cbn [byteLength].
    change (position_ rd) with 0. lia. }
  destruct fuel; cbn [parse_loop]; rewrite Hend; reflexivity.
Qed.

(** One key ID of lower-case digits, an empty payload. *)
Lemma pssh_round_trip_witness :
  exists bx,
    createPssh [] (replicate 16 Byte.xab)
      ["00112233445566778899aabbccddeeff"%string] 1 = Ok bx /\
    forall fuel, exists whole,
      Pssh.new (S fuel) (view_of_bytes bx)
      = Some (Ok {| systemIds :=
                      [toHex (view_of_bytes (replicate 16 Byte.xab))];
                    cencKeyIds := ["00112233445566778899aabbccddeeff"%string];
                    data := [whole] |}) /\
      view_bytes whole = bx.
Proof.
  apply (pssh_round_trip [] (replicate 16 Byte.xab)
           ["00112233445566778899aabbccddeeff"%string]).
  - reflexivity.
  - repeat constructor.
  - vm_compute. reflexivity.
Defined.

(** C8 as stated fails on a key ID written with upper-case digits: the
    parser records it in lower case. *)
Lemma pssh_round_trip_upper_case :
  exists bx this,
    createPssh [] (replicate 16 Byte.xab)
      ["AAAAAAAAAAAAAAAAAAAAAAAAAAAAAAAA"%string] 1 = Ok bx /\
    Pssh.new 1 (view_of_bytes bx) = Some (Ok this) /\
    cencKeyIds this = ["aaaaaaaaaaaaaaaaaaaaaaaaaaaaaaaa"%string] /\
    cencKeyIds this <> ["AAAAAAAAAAAAAAAAAAAAAAAAAAAAAAAA"%string].
Proof.
  eexists _, _. split; [vm_compute; reflexivity|].
  split; [vm_compute; reflexivity|].
  split; [reflexivity | discriminate].
Qed.

End PsshParse.


(** ** [segment_reference] and [mp4_segment_index_parser] *)

Module Sidx.
Import DataViewReader Mp4Parser.

Section References.

(** The init-segment reference and the append-window bounds are stored in
    every reference and never inspected. *)
Context {Init Window : Type}.

Record segment_reference := {
  startTime : Q;
  endTime : Q;
  trueEndTime : Q;
  getUrisInner : list string;
  startByte : Z;
  endByte : option Z;
  initSegmentReference : Init;
  timestampOffset : Q;
  appendWindowStart : Window;
  appendWindowEnd : Window;
}.

(** The constructor, with its two assertions. *)
Definition new_segment_reference (startTime endTime : Q) (uris : list string)
    (startByte : Z) (endByte : option Z) (init : Init) (timestampOffset : Q)
    (appendWindowStart appendWindowEnd : Window) : res segment_reference :=
  _ ← assert (Qle_bool startTime endTime)
        "startTime must be less than or equal to endTime";
  _ ← assert (match endByte with
              | None => true
              | Some e => startByte <? e
              end) "startByte must be < endByte";
  Ok {| startTime := startTime;
        endTime := endTime;
        trueEndTime := endTime;
        getUrisInner := uris;
        startByte := startByte;
        endByte := endByte;
        initSegmentReference := init;
        timestampOffset := timestampOffset;
        appendWindowStart := appendWindowStart;
        appendWindowEnd := appendWindowEnd |}.

Definition div_time (unscaled timescale : Z) : Q :=
  (inject_Z unscaled / inject_Z timescale)%Q.

(** [for (let i = 0; i < referenceCount; i++)] of [parseSIDX_].  Byte
    positions and unscaled times are integers here; the numbers of the code
    hold them exactly as long as they stay within [2 ^ 53], which is the
    domain of the theorems below. *)
Fixpoint read_references (n : nat) (rd : Reader) (timescale : Z)
    (init : Init) (timestampOffset : Q) (aws awe : Window)
    (uris : list string) (unscaledStartTime startByte : Z)
    (references : list segment_reference)
  : res (list segment_reference) :=
  match n with
  | O => Ok references
  | S n' =>
      chunk ← readUint32 rd;
      let referenceType := Z.shiftr (Z.land chunk.1 0x80000000) 31 in
      let referenceSize := Z.land chunk.1 0x7FFFFFFF in
      subsegmentDuration ← readUint32 chunk.2;
      rd ← skip subsegmentDuration.2 4;
      if referenceType =? 1 then
        Throw (Error CRITICAL MEDIA MP4_SIDX_TYPE_NOT_SUPPORTED)
      else
        let nativeStartTime := div_time unscaledStartTime timescale in
        let nativeEndTime :=
          div_time (unscaledStartTime + subsegmentDuration.1) timescale in
        ref ← new_segment_reference
                (nativeStartTime + timestampOffset)%Q
                (nativeEndTime + timestampOffset)%Q
                uris startByte (Some (startByte + referenceSize - 1))
                init timestampOffset aws awe;
        read_references n' rd timescale init timestampOffset aws awe uris
          (unscaledStartTime + subsegmentDuration.1)
          (startByte + referenceSize) (references ++ [ref])
  end.

(** [parseSIDX_]; the boolean says that [box.parser.stop()] was called. *)
Definition parseSIDX_ (sidxOffset : Z) (init : Init) (timestampOffset : Q)
    (appendWindowStart appendWindowEnd : Window) (uris : list string)
    (bx : ParsedBox) : res (bool * list segment_reference) :=
  _ ← assert (bool_decide (is_Some (version bx)))
        "SIDX is a full box and should have a valid version.";
  rd ← skip (reader bx) 4;
  timescale ← readUint32 rd;
  if timescale.1 =? 0 then
    Throw (Error CRITICAL MEDIA MP4_SIDX_INVALID_TIMESCALE)
  else
    '(earliestPresentationTime, firstOffset, rd) ←
      (if bool_decide (version bx = Some 0) then
         e ← readUint32 timescale.2; f ← readUint32 e.2; Ok (e.1, f.1, f.2)
       else
         e ← readUint64 timescale.2; f ← readUint64 e.2; Ok (e.1, f.1, f.2));
    rd ← skip rd 2;
    referenceCount ← readUint16 rd;
    let unscaledStartTime := earliestPresentationTime in
    let startByte := sidxOffset + size bx + firstOffset in
    references ← read_references (Z.to_nat referenceCount.1) referenceCount.2
                   timescale.1 init timestampOffset
                   appendWindowStart appendWindowEnd uris
                   unscaledStartTime startByte [];
    Ok (true, references).

(** [parse]: a walker with 'sidx' as a full box whose callback stores the
    references. *)
Definition parse (fuel : nat) (sidxData : option View) (sidxOffset : Z)
    (uris : list string) (init : Init) (timestampOffset : Q)
    (appendWindowStart appendWindowEnd : Window)
  : option (res (list segment_reference)) :=
  let callback bx (_ : option (list segment_reference)) :=
    r ← parseSIDX_ sidxOffset init timestampOffset appendWindowStart
          appendWindowEnd uris bx;
    Ok (r.1, Some r.2) in
  match fullBox "sidx" (custom callback) new_parser with
  | Throw e => Some (Throw e)
  | Ok parser =>
      let walked :=
        match sidxData with
        | Some d => Mp4Parser.parse fuel parser d false false None
        | None => Some (Ok (parser, None))
        end in
      match walked with
      | None => None
      | Some (Throw e) => Some (Throw e)
      | Some (Ok (_, Some references)) => Some (Ok references)
      | Some (Ok (_, None)) =>
          Some (Throw (Error CRITICAL MEDIA MP4_SIDX_WRONG_BOX_TYPE))
      end
  end.

End References.

Arguments segment_reference : clear implicits.

End Sidx.


(** ** The references of a version-0 SIDX *)

Module SidxFacts.
Import DataViewReader Mp4Parser Pssh ReaderFacts Sidx.

Definition be16 (val : Z) : list byte :=
  [byte_of_Z (val / 2 ^ 8); byte_of_Z val].

Lemma readUint16_be16 r bs p x :
  reads r bs p -> 0 <= p -> 0 <= x < 2 ^ 16 ->
  take 2 (drop (Z.to_nat p) bs) = be16 x ->
  readUint16 r = Ok (x, advance r 2).
Proof.
  intros (Hwf & Hb & Hp & Hle) H0 Hx Ht.
  assert (Hlen : p + 2 <= Z.of_nat (length bs)).
  { apply (f_equal (@length _)) in Ht.
    change (length (be16 x)) with 2%nat in Ht.
    rewrite length_take, length_drop in Ht. lia. }
  assert (Hl : byteLength (dataView_ r) = Z.of_nat (length bs)).
  { rewrite <- Hb, view_bytes_length by auto. destruct Hwf as (? & ? & ?). lia. }
  assert (Hk : forall i : nat,
             getUint8 (dataView_ r) (p + Z.of_nat i)
             = byte_val <$> drop (Z.to_nat p) bs !! i).
  { intros i. rewrite getUint8_lookup by (auto; lia).
    rewrite Hb, lookup_drop. do 2 f_equal. lia. }
  pose proof (Hk 0%nat) as E0. pose proof (Hk 1%nat) as E1.
  rewrite Z.add_0_r in E0. change (Z.of_nat 1) with 1 in E1.
  destruct (drop (Z.to_nat p) bs) as [|b0 [|b1 tl]]; try discriminate Ht.
  injection Ht as -> ->. simpl in E0, E1.
  unfold readUint16, getUint16. rewrite Hp, Hle, E0, E1.
  destruct (Z.leb_spec 0 p); [|lia].
  destruct (Z.leb_spec (p + 2) (byteLength (dataView_ r))); [|lia].
  cbn [andb mbind option_bind]. rewrite !byte_val_of_Z.
  do 2 f_equal.
  change (2 ^ 8) with 256.
  rewrite (Z.mod_small (x / 256)) by
    (split; [apply Z.div_pos; lia | apply Z.div_lt_upper_bound; lia]).
  pose proof (Z.div_mod x 256 ltac:(lia)). lia.
Qed.

Lemma skip_at r bs p n :
  reads r bs p -> 0 <= n -> p + n <= Z.of_nat (length bs) ->
  skip r n = Ok (advance r n).
Proof.
  intros (Hwf & Hb & Hp & Hle) Hn Hlen.
  assert (Hl : byteLength (dataView_ r) = Z.of_nat (length bs)).
  { rewrite <- Hb, view_bytes_length by auto. destruct Hwf as (? & ? & ?). lia. }
  unfold skip, assert. destruct (Z.leb_spec 0 n); [|lia].
  cbn [mbind res_bind Js.bind]. rewrite Hp.
  destruct (Z.gtb_spec (p + n) (byteLength (dataView_ r))); [lia|].
  reflexivity.
Qed.

(** One entry of the reference table: [reference_type] 0, the referenced
    size, the subsegment duration and the SAP word. *)
Record entry := { e_size : Z; e_duration : Z; e_sap : Z }.

Definition entry_ok (e : entry) : Prop :=
  2 <= e_size e < 2 ^ 31 /\ 0 <= e_duration e < 2 ^ 32 /\
  0 <= e_sap e < 2 ^ 32.

Definition encode_entry (e : entry) : list byte :=
  be32 (e_size e) ++ be32 (e_duration e) ++ be32 (e_sap e).

(** The payload of a version-0 'sidx' box, after version and flags. *)
Definition sidx_payload_v0 (referenceId timescale earliest firstOffset : Z)
    (reserved : Z) (entries : list entry) : list byte :=
  be32 referenceId ++ be32 timescale ++ be32 earliest ++ be32 firstOffset ++
  be16 reserved ++ be16 (Z.of_nat (length entries)) ++
  concat (map encode_entry entries).

Section Expected.
Context {Init Window : Type}.
Variables (timescale : Z) (init : Init) (timestampOffset : Q)
  (aws awe : Window) (uris : list string).

(** What the claim describes: each reference starts where the previous one
    ends, in bytes and in unscaled time. *)
Fixpoint references_from (entries : list entry)
    (unscaledStartTime startByte : Z) : list (segment_reference Init Window) :=
  match entries with
  | [] => []
  | e :: rest =>
      {| startTime :=
           (div_time unscaledStartTime timescale + timestampOffset)%Q;
         endTime :=
           (div_time (unscaledStartTime + e_duration e) timescale
            + timestampOffset)%Q;
         trueEndTime :=
           (div_time (unscaledStartTime + e_duration e) timescale
            + timestampOffset)%Q;
         getUrisInner := uris;
         startByte := startByte;
         endByte := Some (startByte + e_size e - 1);
         initSegmentReference := init;
         Sidx.timestampOffset := timestampOffset;
         appendWindowStart := aws;
         appendWindowEnd := awe |}
      :: references_from rest (unscaledStartTime + e_duration e)
           (startByte + e_size e)
  end.

Lemma div_time_le a b :
  0 < timescale -> a <= b ->
  Qle_bool (div_time a timescale + timestampOffset)
           (div_time b timescale + timestampOffset) = true.
Proof.
  intros Hts Hab. apply Qle_bool_iff. apply Qplus_le_l.
  unfold div_time, Qdiv. apply Qmult_le_compat_r.
  - rewrite <- Zle_Qle. exact Hab.
  - apply Qinv_le_0_compat. change 0%Q with (inject_Z 0).
    rewrite <- Zle_Qle. lia.
Qed.

Lemma land_size (x : Z) :
  0 <= x < 2 ^ 31 ->
  Z.shiftr (Z.land x 0x80000000) 31 = 0 /\ Z.land x 0x7FFFFFFF = x.
Proof.
  intros Hx. split.
  - replace (Z.land x 0x80000000) with 0; [reflexivity|].
    symmetry. apply Z.bits_inj'. intros n Hn.
    rewrite Z.land_spec, Z.bits_0.
    destruct (Z.eq_dec n 31) as [->|Hne].
    + rewrite (Z.bits_above_log2 x 31); [reflexivity | lia |].
      destruct (Z.eq_dec x 0) as [->|]; [simpl; lia|].
      apply Z.log2_lt_pow2; lia.
    + change 0x80000000 with (2 ^ 31).
      rewrite Z.pow2_bits_false by lia. apply andb_false_r.
  - change 0x7FFFFFFF with (Z.ones 31). rewrite Z.land_ones by lia.
    apply Z.mod_small. lia.
Qed.

Lemma read_references_ok (es : list entry) :
  forall r bs q rest ust sb acc,
  0 < timescale ->
  reads r bs q -> 0 <= q ->
  Forall entry_ok es ->
  drop (Z.to_nat q) bs = concat (map encode_entry es) ++ rest ->
  read_references (length es) r timescale init timestampOffset aws awe uris
    ust sb acc
  = Ok (acc ++ references_from es ust sb).
Proof.
  induction es as [|e es IH]; intros r bs q rest ust sb acc Hts Hr Hq Hok Hd.
  - simpl. rewrite app_nil_r. reflexivity.
  - inversion Hok as [|? ? (Hs & Hdu & Hsap) Hes]; subst.
    cbn [map concat] in Hd. unfold encode_entry in Hd at 1.
    rewrite <- !app_assoc in Hd.
    assert (Hlen : q + 12 <= Z.of_nat (length bs)).
    { apply (f_equal (@length _)) in Hd.
      rewrite length_drop, !length_app, !length_be32 in Hd. lia. }
    assert (H0 : take 4 (drop (Z.to_nat q) bs) = be32 (e_size e))
      by (rewrite Hd; reflexivity).
    assert (H4 : take 4 (drop (Z.to_nat (q + 4)) bs) = be32 (e_duration e)).
    { replace (Z.to_nat (q + 4)) with (Z.to_nat q + 4)%nat by lia.
      rewrite <- drop_drop, Hd. reflexivity. }
    cbn [length read_references].
    rewrite (readUint32_be32 r bs q (e_size e)) by (auto; lia).
    cbn [mbind res_bind Js.bind fst snd].
    rewrite (readUint32_be32 (advance r 4) bs (q + 4) (e_duration e))
      by (auto using reads_advance; lia).
    cbn [mbind res_bind Js.bind fst snd].
    rewrite (skip_at (advance (advance r 4) 4) bs (q + 4 + 4) 4)
      by (repeat apply reads_advance; auto; lia).
    cbn [mbind res_bind Js.bind].
    destruct (land_size (e_size e) ltac:(lia)) as [-> ->].
    change (0 =? 1) with false. cbv iota.
    unfold new_segment_reference, assert.
    rewrite div_time_le by (auto; lia).
    destruct (Z.ltb_spec sb (sb + e_size e - 1)); [|lia].
    cbn [mbind res_bind Js.bind].
    rewrite (IH _ bs (q + 4 + 4 + 4) rest);
      auto; try lia; [| repeat apply reads_advance; auto |].
    + rewrite <- app_assoc. reflexivity.
    + replace (Z.to_nat (q + 4 + 4 + 4)) with (Z.to_nat q + 12)%nat by lia.
      rewrite <- drop_drop, Hd. reflexivity.
Qed.

End Expected.

Section Claim.
Context {Init Window : Type}.

(** The payload of the example: version 0, timescale 1000, earliest
    presentation time 0, first offset 100 and the two references
    (1000 bytes, 2000 units) and (2000 bytes, 3000 units). *)
Definition sample_payload : list byte :=
  sidx_payload_v0 1 1000 0 100 0
    [ {| e_size := 1000; e_duration := 2000; e_sap := 0 |};
      {| e_size := 2000; e_duration := 3000; e_sap := 0 |} ].

Lemma parseSIDX_v0 (sidxOffset : Z) (init : Init) (timestampOffset : Q)
    (aws awe : Window) (uris : list string) (bx : ParsedBox)
    (referenceId timescale earliest firstOffset reserved : Z)
    (entries : list entry) :
  version bx = Some 0 ->
  reads (reader bx)
    (sidx_payload_v0 referenceId timescale earliest firstOffset reserved
       entries) 0 ->
  0 <= referenceId < 2 ^ 32 -> 0 < timescale < 2 ^ 32 ->
  0 <= earliest < 2 ^ 32 -> 0 <= firstOffset < 2 ^ 32 ->
  0 <= reserved < 2 ^ 16 ->
  Forall entry_ok entries -> Z.of_nat (length entries) < 2 ^ 16 ->
  parseSIDX_ sidxOffset init timestampOffset aws awe uris bx
  = Ok (true,
        references_from timescale init timestampOffset aws awe uris entries
          earliest (sidxOffset + size bx + firstOffset)).
Proof.
  intros Hv Hr Hid Hts He Hf Hres Hok Hn.
  set (bs := sidx_payload_v0 referenceId timescale earliest firstOffset
               reserved entries) in *.
  assert (Hlen : 20 <= Z.of_nat (length bs)).
  { unfold bs, sidx_payload_v0. rewrite !length_app, !length_be32.
    change (length (be16 reserved)) with 2%nat.
    change (length (be16 (Z.of_nat (length entries)))) with 2%nat. lia. }
  unfold parseSIDX_, assert. rewrite Hv.
  rewrite bool_decide_eq_true_2 by eauto.
  cbn [mbind res_bind Js.bind].
  rewrite (skip_at (reader bx) bs 0 4) by (auto; lia).
  cbn [mbind res_bind Js.bind].
  rewrite (readUint32_be32 _ bs (0 + 4) timescale);
    [| apply reads_advance; auto | lia | lia | reflexivity].
  cbn [mbind res_bind Js.bind fst snd].
  destruct (Z.eqb_spec timescale 0); [lia|].
  rewrite ?(bool_decide_eq_true_2 (Some 0 = Some 0)) by reflexivity.
  rewrite (readUint32_be32 _ bs (0 + 4 + 4) earliest);
    [| repeat apply reads_advance; auto | lia | lia | reflexivity].
  cbn [mbind res_bind Js.bind fst snd].
  rewrite (readUint32_be32 _ bs (0 + 4 + 4 + 4) firstOffset);
    [| repeat apply reads_advance; auto | lia | lia | reflexivity].
  cbn [mbind res_bind Js.bind fst snd].
  rewrite (skip_at _ bs (0 + 4 + 4 + 4 + 4) 2);
    [| repeat apply reads_advance; auto | lia | lia].
  cbn [mbind res_bind Js.bind].
  rewrite (readUint16_be16 _ bs (0 + 4 + 4 + 4 + 4 + 2)
             (Z.of_nat (length entries)));
    [| repeat apply reads_advance; auto | lia | lia | reflexivity].
  cbn [mbind res_bind Js.bind fst snd]. rewrite Nat2Z.id.
  rewrite (read_references_ok timescale init timestampOffset aws awe uris
             entries _ bs (0 + 4 + 4 + 4 + 4 + 2 + 2) []);
    [reflexivity | lia | repeat apply reads_advance; auto | lia | auto |].
  rewrite app_nil_r. reflexivity.
Qed.

End Claim.

End SidxFacts.


(** ** The references of a 'sidx' box, through the walker *)

Module SidxParse.
Import DataViewReader Mp4Parser Pssh ReaderFacts WalkerFacts Sidx SidxFacts.

Definition be64 (val : Z) : list byte :=
  be32 (val / 2 ^ 32) ++ be32 (val mod 2 ^ 32).

(** The earliest presentation time and the first offset take 32 bits at
    version 0 and 64 bits otherwise. *)
Definition field (version val : Z) : list byte :=
  if version =? 0 then be32 val else be64 val.

(** What [readUint32] and [readUint64] deliver. *)
Definition field_ok (version val : Z) : Prop :=
  0 <= val < (if version =? 0 then 2 ^ 32 else 2 ^ 53).

(** The payload of a 'sidx' box, after version and flags. *)
Definition sidx_payload (version referenceId timescale earliest firstOffset
    reserved : Z) (entries : list entry) : list byte :=
  be32 referenceId ++ be32 timescale ++
  field version earliest ++ field version firstOffset ++
  be16 reserved ++ be16 (Z.of_nat (length entries)) ++
  concat (map encode_entry entries).

(** A 'sidx' box: the size it declares, its type, version and flags, and
    the payload. *)
Definition sidx_box (declared version flags : Z) (payload : list byte)
  : list byte :=
  be32 declared ++ be32 0x73696478 ++ be32 (version * 2 ^ 24 + flags) ++
  payload.

Definition total_size (entries : list entry) : Z :=
  fold_right (fun e acc => e_size e + acc) 0 entries.

Definition total_duration (entries : list entry) : Z :=
  fold_right (fun e acc => e_duration e + acc) 0 entries.

Lemma length_be16 x : length (be16 x) = 2%nat.
Proof. reflexivity. Qed.

Lemma length_be64 x : length (be64 x) = 8%nat.
Proof. reflexivity. Qed.

Lemma length_encoded_entries (entries : list entry) :
  length (concat (map encode_entry entries)) = (12 * length entries)%nat.
Proof.
  induction entries as [|e es IH]; [reflexivity|].
  cbn [map concat]. rewrite length_app, IH. unfold encode_entry.
  rewrite !length_app, !length_be32. cbn [length]. lia.
Qed.

Lemma length_field version val :
  length (field version val) = if version =? 0 then 4%nat else 8%nat.
Proof. unfold field. destruct (version =? 0); reflexivity. Qed.

Lemma length_sidx_payload version referenceId timescale earliest firstOffset
    reserved entries :
  Z.of_nat (length (sidx_payload version referenceId timescale earliest
                      firstOffset reserved entries))
  = (if version =? 0 then 20 else 28) + 12 * Z.of_nat (length entries).
Proof.
  unfold sidx_payload.
  rewrite !length_app, !length_be32, !length_field, !length_be16,
    length_encoded_entries.
  destruct (version =? 0); lia.
Qed.

Lemma getUint32_be32 r bs p x :
  reads r bs p -> 0 <= p -> 0 <= x < 2 ^ 32 ->
  take 4 (drop (Z.to_nat p) bs) = be32 x ->
  getUint32 (dataView_ r) p false = Some x.
Proof.
  intros Hr Hp Hx Ht.
  pose proof (readUint32_be32 r bs p x Hr Hp Hx Ht) as H.
  destruct Hr as (_ & _ & Hpos & Hle).
  unfold readUint32 in H. rewrite Hpos, Hle in H.
  destruct (getUint32 (dataView_ r) p false) as [y|]; [|discriminate H].
  injection H as ->. reflexivity.
Qed.

Lemma take_pair (X a b : list byte) :
  take 8 X = a ++ b -> length a = 4%nat -> length b = 4%nat ->
  take 4 X = a /\ take 4 (drop 4 X) = b.
Proof.
  intros H Ha Hb. rewrite <- (take_drop 8 X), H.
  destruct a as [|a0 [|a1 [|a2 [|a3 [|]]]]]; try discriminate Ha.
  destruct b as [|b0 [|b1 [|b2 [|b3 [|]]]]]; try discriminate Hb.
  split; reflexivity.
Qed.

Lemma readUint64_be64 r bs p x :
  reads r bs p -> 0 <= p -> 0 <= x < 2 ^ 53 ->
  take 8 (drop (Z.to_nat p) bs) = be64 x ->
  readUint64 r = Ok (x, advance r 8).
Proof.
  intros Hr Hp Hx Ht.
  assert (Hhi : 0 <= x / 2 ^ 32 < 2097152).
  { split; [apply Z.div_pos; lia|].
    apply Z.div_lt_upper_bound; [lia|].
    change (2 ^ 32 * 2097152) with (2 ^ 53). lia. }
  assert (Hlo : 0 <= x mod 2 ^ 32 < 2 ^ 32) by (apply Z.mod_pos_bound; lia).
  destruct (take_pair _ _ _ Ht) as [H0 H4]; try reflexivity.
  rewrite drop_drop in H4.
  replace (Z.to_nat p + 4)%nat with (Z.to_nat (p + 4)) in H4 by lia.
  assert (Hhi' : 0 <= x / 2 ^ 32 < 2 ^ 32)
    by (change (2 ^ 32) with 4294967296 in *; lia).
  pose proof (getUint32_be32 r bs p (x / 2 ^ 32) Hr Hp Hhi' H0) as E0.
  assert (Hp4 : 0 <= p + 4) by lia.
  pose proof (getUint32_be32 (advance r 4) bs (p + 4) (x mod 2 ^ 32)
                (reads_advance r bs p 4 Hr) Hp4 Hlo H4) as E1.
  cbn [advance dataView_] in E1.
  destruct Hr as (_ & _ & Hpos & Hle).
  unfold readUint64. rewrite Hle, Hpos, E0. cbn [mbind option_bind].
  rewrite E1. cbn [mbind option_bind].
  destruct (Z.gtb_spec (x / 2 ^ 32) 0x1FFFFF); [lia|].
  pose proof (Z.div_mod x (2 ^ 32) ltac:(lia)). do 2 f_equal. lia.
Qed.

Section Callback.
Context {Init Window : Type}.

(** [parseSIDX_] on a box whose payload is laid out as the version it
    carries requires. *)
Lemma parseSIDX_payload (sidxOffset : Z) (init : Init) (timestampOffset : Q)
    (aws awe : Window) (uris : list string) (bx : ParsedBox)
    (v referenceId timescale earliest firstOffset reserved : Z)
    (entries : list entry) :
  version bx = Some v ->
  reads (reader bx)
    (sidx_payload v referenceId timescale earliest firstOffset reserved
       entries) 0 ->
  0 <= referenceId < 2 ^ 32 -> 0 < timescale < 2 ^ 32 ->
  field_ok v earliest -> field_ok v firstOffset ->
  0 <= reserved < 2 ^ 16 ->
  Forall entry_ok entries -> Z.of_nat (length entries) < 2 ^ 16 ->
  parseSIDX_ sidxOffset init timestampOffset aws awe uris bx
  = Ok (true,
        references_from timescale init timestampOffset aws awe uris entries
          earliest (sidxOffset + size bx + firstOffset)).
Proof.
  intros Hv Hr Hid Hts He Hf Hres Hok Hn.
  unfold field_ok in He, Hf.
  destruct (Z.eqb_spec v 0) as [->|Hv0].
  - apply (parseSIDX_v0 sidxOffset init timestampOffset aws awe uris bx
             referenceId timescale earliest firstOffset reserved entries);
      auto.
  - set (bs := sidx_payload v referenceId timescale earliest firstOffset
                 reserved entries) in *.
    assert (Hbs : bs = be32 referenceId ++ be32 timescale ++ be64 earliest ++
                       be64 firstOffset ++ be16 reserved ++
                       be16 (Z.of_nat (length entries)) ++
                       concat (map encode_entry entries)).
    { unfold bs, sidx_payload, field.
      destruct (Z.eqb_spec v 0); [contradiction | reflexivity]. }
    assert (Hlen : 28 <= Z.of_nat (length bs)).
    { unfold bs. rewrite length_sidx_payload.
      destruct (Z.eqb_spec v 0); [contradiction | lia]. }
    unfold parseSIDX_, assert. rewrite Hv.
    rewrite (bool_decide_eq_true_2 (is_Some (Some v))) by eauto.
    cbn [mbind res_bind Js.bind].
    rewrite (skip_at (reader bx) bs 0 4) by (auto; lia).
    cbn [mbind res_bind Js.bind].
    rewrite (readUint32_be32 _ bs (0 + 4) timescale);
      [| apply reads_advance; auto | lia | lia | rewrite Hbs; reflexivity].
    cbn [mbind res_bind Js.bind fst snd].
    destruct (Z.eqb_spec timescale 0); [lia|].
    rewrite bool_decide_eq_false_2 by congruence.
    rewrite (readUint64_be64 _ bs (0 + 4 + 4) earliest);
      [| repeat apply reads_advance; auto | lia | lia
       | rewrite Hbs; reflexivity].
    cbn [mbind res_bind Js.bind fst snd].
    rewrite (readUint64_be64 _ bs (0 + 4 + 4 + 8) firstOffset);
      [| repeat apply reads_advance; auto | lia | lia
       | rewrite Hbs; reflexivity].
    cbn [mbind res_bind Js.bind fst snd].
    rewrite (skip_at _ bs (0 + 4 + 4 + 8 + 8) 2);
      [| repeat apply reads_advance; auto | lia | lia].
    cbn [mbind res_bind Js.bind].
    rewrite (readUint16_be16 _ bs (0 + 4 + 4 + 8 + 8 + 2)
               (Z.of_nat (length entries)));
      [| repeat apply reads_advance; auto | lia | lia
       | rewrite Hbs; reflexivity].
    cbn [mbind res_bind Js.bind fst snd]. rewrite Nat2Z.id.
    rewrite (read_references_ok timescale init timestampOffset aws awe uris
               entries _ bs (0 + 4 + 4 + 8 + 8 + 2 + 2) []);
      [reflexivity | lia | repeat apply reads_advance; auto | lia | auto |].
    rewrite Hbs, app_nil_r. reflexivity.
Qed.

End Callback.

Lemma version_of_word v flags :
  0 <= v < 256 -> 0 <= flags < 2 ^ 24 ->
  0 <= v * 2 ^ 24 + flags < 2 ^ 32 /\
  Z.shiftr (v * 2 ^ 24 + flags) 24 = v.
Proof.
  intros Hv Hf. split; [lia|].
  rewrite Z.shiftr_div_pow2 by lia.
  rewrite Z.div_add_l by lia. rewrite Z.div_small by lia. lia.
Qed.

Section Whole.
Context {Init Window : Type}.

(** A list is returned only after [box.parser.stop()]. *)
Lemma parseSIDX_stops (sidxOffset : Z) (init : Init) (timestampOffset : Q)
    (aws awe : Window) (uris : list string) (bx : ParsedBox)
    (stopped : bool) (refs : list (segment_reference Init Window)) :
  parseSIDX_ sidxOffset init timestampOffset aws awe uris bx
  = Ok (stopped, refs) ->
  stopped = true.
Proof.
  unfold parseSIDX_. intros Hrun.
  destruct (assert _ _) as [[]|e]; [|discriminate Hrun].
  cbn [mbind res_bind Js.bind] in Hrun.
  destruct (skip (reader bx) 4) as [rd|e]; [|discriminate Hrun].
  cbn [mbind res_bind Js.bind] in Hrun.
  destruct (readUint32 rd) as [timescale|e]; [|discriminate Hrun].
  cbn [mbind res_bind Js.bind] in Hrun.
  destruct (timescale.1 =? 0); [discriminate Hrun|].
  destruct (if bool_decide (version bx = Some 0) then _ else _)
    as [[[earliest firstOffset] rd1]|e]; [|discriminate Hrun].
  cbn [mbind res_bind Js.bind] in Hrun.
  destruct (skip rd1 2) as [rd2|e]; [|discriminate Hrun].
  cbn [mbind res_bind Js.bind] in Hrun.
  destruct (readUint16 rd2) as [count|e]; [|discriminate Hrun].
  cbn [mbind res_bind Js.bind] in Hrun.
  destruct (read_references _ _ _ _ _ _ _ _ _ _ _) as [rs|e];
    [|discriminate Hrun].
  cbn [mbind res_bind Js.bind] in Hrun. injection Hrun as <- _.
  reflexivity.
Qed.

(** [parse] on the bytes of one 'sidx' box that declares [declared] bytes,
    all of them present: the callback gets a box of that size whose reader
    shows the [declared - 12] bytes after the header, and what it returns
    or throws is what [parse] returns or throws. *)
Lemma parse_one_box (fuel : nat) (sidxOffset : Z) (uris : list string)
    (init : Init) (timestampOffset : Q) (aws awe : Window)
    (declared v flags : Z) (payload : list byte) :
  0 <= v < 256 -> 0 <= flags < 2 ^ 24 ->
  12 < declared < 2 ^ 32 ->
  declared <= 12 + Z.of_nat (length payload) ->
  exists bx,
    version bx = Some v /\ size bx = declared /\
    reads (reader bx) (take (Z.to_nat (declared - 12)) payload) 0 /\
    Sidx.parse (S fuel)
      (Some (view_of_bytes (sidx_box declared v flags payload)))
      sidxOffset uris init timestampOffset aws awe
    = Some (match parseSIDX_ sidxOffset init timestampOffset aws awe uris bx
            with
            | Throw e => Throw e
            | Ok (_, references) => Ok references
            end).
Proof.
  intros Hv Hf Hdecl Hpresent.
  destruct (version_of_word v flags Hv Hf) as [Hvf Hshift].
  set (whole := sidx_box declared v flags payload).
  assert (Hlen : Z.of_nat (length whole) = 12 + Z.of_nat (length payload)).
  { unfold whole, sidx_box. rewrite !length_app, !length_be32. lia. }
  set (rd := DataViewReader.new (view_of_bytes whole) BIG_ENDIAN).
  assert (Hrd : reads rd whole 0).
  { pose proof (reads_new (view_of_bytes whole) (wf_view_of_bytes whole)) as H.
    rewrite view_bytes_of_bytes in H. exact H. }
  assert (Hdv : dataView_ rd = view_of_bytes whole)
    by (apply toDataView_wf, wf_view_of_bytes).
  destruct (toUint8_sub (view_of_bytes whole) 12 (declared - 12))
    as (Wwf & _ & _ & _ & Wbytes);
    [apply wf_view_of_bytes | lia | lia
    | unfold view_of_bytes; cbn [byteLength]; lia |].
  set (w := toUint8 (view_of_bytes whole) 12 (Some (declared - 12))) in *.
  rewrite view_bytes_of_bytes in Wbytes.
  change (Z.to_nat 12) with 12%nat in Wbytes.
  change (drop 12 whole) with payload in Wbytes.
  assert (Hpl : payload_of rd 0 declared = w).
  { unfold payload_of. destruct (Z.gtb_spec (declared - 12) 0); [|lia].
    rewrite Hdv. reflexivity. }
  set (prd := DataViewReader.new w BIG_ENDIAN).
  assert (Hprd : reads prd (view_bytes w) 0) by (apply reads_new; auto).
  rewrite Wbytes in Hprd.
  exists {| partialOkay := false;
            version := Some (Z.shiftr (v * 2 ^ 24 + flags) 24);
            flags := Some (Z.land (v * 2 ^ 24 + flags) 0xFFFFFF);
            reader := prd;
            size := declared;
            start := 0 + 0;
            has64BitSize := false |}.
  split; [cbn [version]; rewrite Hshift; reflexivity|].
  split; [reflexivity|]. split; [exact Hprd|].
  unfold Sidx.parse.
  set (callback := fun (bx : ParsedBox)
                       (_ : option (list (segment_reference Init Window))) =>
                     _).
  set (parser := {| headers_ := <[0x73696478 := FULL_BOX]> ∅;
                    boxDefinitions_ := <[0x73696478 := custom callback]> ∅;
                    done_ := false |}).
  assert (Hbuilt : fullBox "sidx" (custom callback) new_parser = Ok parser)
    by reflexivity.
  rewrite Hbuilt. unfold Mp4Parser.parse. fold rd.
  change (set_done parser false) with parser.
  cbn [parse_loop].
  assert (Hmore : hasMoreData rd = true).
  { unfold hasMoreData. rewrite Hdv. apply Z.ltb_lt.
    unfold view_of_bytes; cbn [byteLength position_ rd DataViewReader.new].
    lia. }
  rewrite Hmore. cbn [done_ parser set_done negb andb].
  rewrite (parseNext_full_custom fuel parser 0 rd whole 0 declared
             0x73696478 (v * 2 ^ 24 + flags) callback None);
    auto; try reflexivity; try lia.
  rewrite Hpl. fold prd. unfold callback at 1.
  destruct (parseSIDX_ _ _ _ _ _ _ _) as [[stopped references]|e] eqn:Hcb;
    cbn [mbind res_bind Js.bind fst snd]; [|reflexivity].
  apply parseSIDX_stops in Hcb. subst stopped.
  destruct fuel; cbn [parse_loop stop set_done done_ negb andb];
    rewrite andb_false_r; reflexivity.
Qed.

(** The references of a complete box, whatever its version. *)
Lemma parse_sidx_box (fuel : nat) (sidxOffset : Z) (uris : list string)
    (init : Init) (timestampOffset : Q) (aws awe : Window)
    (v flags referenceId timescale earliest firstOffset reserved : Z)
    (entries : list entry) :
  0 <= v < 256 -> 0 <= flags < 2 ^ 24 ->
  0 <= referenceId < 2 ^ 32 -> 0 < timescale < 2 ^ 32 ->
  field_ok v earliest -> field_ok v firstOffset ->
  0 <= reserved < 2 ^ 16 ->
  Forall entry_ok entries -> Z.of_nat (length entries) < 2 ^ 16 ->
  let payload :=
    sidx_payload v referenceId timescale earliest firstOffset reserved
      entries in
  let boxSize := 12 + Z.of_nat (length payload) in
  Sidx.parse (S fuel)
    (Some (view_of_bytes (sidx_box boxSize v flags payload)))
    sidxOffset uris init timestampOffset aws awe
  = Some (Ok (references_from timescale init timestampOffset aws awe uris
                entries earliest (sidxOffset + boxSize + firstOffset))).
Proof.
  intros Hv Hf Hid Hts He Hfo Hres Hok Hn payload boxSize.
  assert (Hlen : Z.of_nat (length payload)
                 = (if v =? 0 then 20 else 28)
                   + 12 * Z.of_nat (length entries))
    by apply length_sidx_payload.
  assert (Hsize : 12 < boxSize < 2 ^ 32).
  { unfold boxSize. rewrite Hlen. destruct (v =? 0); lia. }
  destruct (parse_one_box fuel sidxOffset uris init timestampOffset aws awe
              boxSize v flags payload Hv Hf Hsize ltac:(unfold boxSize; lia))
    as (bx & Hver & Hsz & Hreads & ->).
  replace (Z.to_nat (boxSize - 12)) with (length payload) in Hreads
    by (unfold boxSize; lia).
  rewrite firstn_all in Hreads.
  rewrite (parseSIDX_payload sidxOffset init timestampOffset aws awe uris bx
             v referenceId timescale earliest firstOffset reserved entries);
    auto.
  rewrite Hsz. reflexivity.
Qed.

End Whole.

(** The box of the example: version 0, timescale 1000, earliest
    presentation time 0, first offset 100 and the two references
    (1000 bytes, 2000 units) and (2000 bytes, 3000 units).  Its payload
    has 44 bytes and its header 12, so that the box has 56. *)
Definition sample_entries : list entry :=
  [ {| e_size := 1000; e_duration := 2000; e_sap := 0 |};
    {| e_size := 2000; e_duration := 3000; e_sap := 0 |} ].

Definition sample_sidx : list byte :=
  sidx_box 56 0 0 (sidx_payload 0 1 1000 0 100 0 sample_entries).

(** C4 (amended). The version-0 box of the example has 56 bytes, and
    [parse] yields exactly two references for it, with byte ranges
    [156..1155] and [1156..3155] and times [0..2] and [2..5] seconds.  In
    general, for a complete box of either version whose positions and
    times stay within the integers that a number holds exactly, the first
    reference starts at byte [sidxOffset + box.size + first_offset], with
    the size the box declares, and at the earliest presentation time, and
    each following reference starts where the previous one ends:
    [references_from] adds the referenced size to the start byte and the
    subsegment duration to the unscaled start time. *)
Theorem sidx_references :
  (forall (fuel : nat) (uris : list string),
     exists r1 r2 : segment_reference unit unit,
       Z.of_nat (length sample_sidx) = 56 /\
       Sidx.parse (S fuel) (Some (view_of_bytes sample_sidx)) 0 uris tt 0%Q
         tt tt = Some (Ok [r1; r2]) /\
       startByte r1 = 156 /\ endByte r1 = Some 1155 /\
       startByte r2 = 1156 /\ endByte r2 = Some 3155 /\
       (startTime r1 == 0)%Q /\ (endTime r1 == 2)%Q /\
       (startTime r2 == 2)%Q /\ (endTime r2 == 5)%Q) /\
  (forall (Init Window : Type) (fuel : nat) (sidxOffset : Z)
          (uris : list string) (init : Init) (timestampOffset : Q)
          (aws awe : Window)
          (v flags referenceId timescale earliest firstOffset reserved : Z)
          (entries : list entry),
     0 <= v < 256 -> 0 <= flags < 2 ^ 24 ->
     0 <= referenceId < 2 ^ 32 -> 0 < timescale < 2 ^ 32 ->
     field_ok v earliest -> field_ok v firstOffset ->
     0 <= reserved < 2 ^ 16 ->
     Forall entry_ok entries -> Z.of_nat (length entries) < 2 ^ 16 ->
     let payload :=
       sidx_payload v referenceId timescale earliest firstOffset reserved
         entries in
     let boxSize := 12 + Z.of_nat (length payload) in
     0 <= sidxOffset ->
     sidxOffset + boxSize + firstOffset + total_size entries <= 2 ^ 53 ->
     earliest + total_duration entries <= 2 ^ 53 ->
     Sidx.parse (S fuel)
       (Some (view_of_bytes (sidx_box boxSize v flags payload)))
       sidxOffset uris init timestampOffset aws awe
     = Some (Ok (references_from timescale init timestampOffset aws awe uris
                   entries earliest (sidxOffset + boxSize + firstOffset)))).
Proof.
  split.
  - intros fuel uris. eexists _, _. split; [reflexivity|]. split.
    + apply (parse_sidx_box fuel 0 uris tt 0%Q tt tt 0 0 1 1000 0 100 0
               sample_entries); unfold field_ok; cbn; try lia.
      repeat constructor; cbn; lia.
    + cbn. repeat split; reflexivity.
  - intros Init Window fuel sidxOffset uris init timestampOffset aws awe
      v flags referenceId timescale earliest firstOffset reserved entries
      Hv Hf Hid Hts He Hfo Hres Hok Hn payload boxSize _ _ _.
    apply parse_sidx_box; auto.
Qed.

(** A version-1 box with 64-bit fields. *)
Lemma sidx_references_witness :
  Sidx.parse 1
    (Some (view_of_bytes
             (sidx_box 52 1 0
                (sidx_payload 1 7 90000 (2 ^ 33) (2 ^ 32 + 8) 0
                   [ {| e_size := 5000; e_duration := 180000;
                        e_sap := 0 |} ]))))
    1000 [] tt 0%Q tt tt
  = Some (Ok (references_from 90000 tt 0%Q tt tt []
                [ {| e_size := 5000; e_duration := 180000; e_sap := 0 |} ]
                (2 ^ 33) (1000 + 52 + (2 ^ 32 + 8)))).
Proof.
  apply (proj2 sidx_references unit unit 0%nat 1000 [] tt 0%Q tt tt
           1 0 7 90000 (2 ^ 33) (2 ^ 32 + 8) 0
           [ {| e_size := 5000; e_duration := 180000; e_sap := 0 |} ]).
  - lia.
  - lia.
  - lia.
  - lia.
  - unfold field_ok. simpl. lia.
  - unfold field_ok. simpl. lia.
  - lia.
  - repeat constructor; simpl; lia.
  - simpl. lia.
  - lia.
  - vm_compute. discriminate.
  - vm_compute. discriminate.
Defined.

(** C4 as stated fails: a box that declares 52 bytes over the content of
    the example hands the callback 40 payload bytes, and the second
    reference is cut short; the box as it is, with its 56 bytes, gives
    ranges that start at byte 156. *)
Lemma sidx_declared_52 :
  Sidx.parse 1
    (Some (view_of_bytes
             (sidx_box 52 0 0 (sidx_payload 0 1 1000 0 100 0 sample_entries))))
    0 [] tt 0%Q tt tt
  = Some (Throw (Error CRITICAL MEDIA BUFFER_READ_OUT_OF_BOUNDS)) /\
  exists r1 r2 : segment_reference unit unit,
    Sidx.parse 1 (Some (view_of_bytes sample_sidx)) 0 [] tt 0%Q tt tt
    = Some (Ok [r1; r2]) /\
    startByte r1 = 156 /\ startByte r1 <> 152 /\
    endByte r2 = Some 3155 /\ endByte r2 <> Some 3151.
Proof.
  split; [vm_compute; reflexivity|].
  eexists _, _. split; [vm_compute; reflexivity|].
  cbn. repeat split; discriminate.
Qed.

End SidxParse.


(** ** Numbers: IEEE 754 binary64 *)

Module Number.

(** A number of the language: a double, as [SpecFloat] specifies it. *)
Definition number : Type := spec_float.

Definition prec : Z := 53.
Definition emax : Z := 1024.

Definition NaN : number := S754_nan.
Definition Infinity : number := S754_infinity false.

(** The number nearest to an integer; the integer itself up to 2^53. *)
Definition of_Z (z : Z) : number := binary_normalize prec emax z 0 false.

Definition zero : number := S754_zero false.
Definition one : number := of_Z 1.

(** [-x], [x + y], [x - y], [x * y], [x / y] *)
Definition neg (x : number) : number := SFopp x.
Definition add (x y : number) : number := SFadd prec emax x y.
Definition sub (x y : number) : number := SFsub prec emax x y.
Definition mul (x y : number) : number := SFmul prec emax x y.
Definition div (x y : number) : number := SFdiv prec emax x y.

(** [x == y], [x < y], [x <= y]; each is false when an operand is [NaN],
    and [x != y] is the negation of [x == y]. *)
Definition eqb (x y : number) : bool := SFeqb x y.
Definition ltb (x y : number) : bool := SFltb x y.
Definition leb (x y : number) : bool := SFleb x y.

(** [Math.abs(x)] *)
Definition abs (x : number) : number := SFabs x.

(** [Math.ceil(x)]: the least integer not below [x]; a zero, an infinity
    and [NaN] are returned as they are, and a negative number above -1
    gives [-0]. *)
Definition ceil (x : number) : number :=
  match x with
  | S754_finite s m e =>
      if 0 <=? e then x
      else
        let z := - ((- cond_Zopp s (Z.pos m)) / 2 ^ (- e)) in
        if z =? 0 then S754_zero s else of_Z z
  | _ => x
  end.

(** [!x] *)
Definition falsy (x : number) : bool :=
  match x with
  | S754_zero _ | S754_nan => true
  | _ => false
  end.

(** The integer part of a positive number. *)
Definition floor_pos (m : positive) (e : Z) : Z := Z.shiftl (Z.pos m) e.

End Number.

(** ** Numbers: what the expansion of a timeline needs *)

Module NumberFacts.
Import Number.

Lemma shr_1_nonneg (r : shr_record) : 0 <= shr_m r -> 0 <= shr_m (shr_1 r).
Proof.
  destruct r as [m r s]. cbn [shr_m]. intros Hm.
  destruct m as [|[p|p|]|p]; cbn; lia.
Qed.

Lemma iter_shr_1_nonneg (p : positive) : forall r : shr_record,
  0 <= shr_m r -> 0 <= shr_m (SpecFloat.iter_pos shr_1 p r).
Proof.
  induction p as [p IH|p IH|]; intros r Hr; cbn [iter_pos].
  - apply IH, IH, shr_1_nonneg, Hr.
  - apply IH, IH, Hr.
  - apply shr_1_nonneg, Hr.
Qed.

Lemma shr_nonneg (r : shr_record) (e n : Z) :
  0 <= shr_m r -> 0 <= shr_m (shr r e n).1.
Proof.
  intros Hr. destruct n as [|p|p]; cbn [shr fst]; try exact Hr.
  apply iter_shr_1_nonneg, Hr.
Qed.

Lemma shr_fexp_nonneg (m e : Z) (l : location) :
  0 <= m -> 0 <= shr_m (shr_fexp prec emax m e l).1.
Proof.
  intros Hm. unfold shr_fexp. apply shr_nonneg.
  destruct l as [|[]]; exact Hm.
Qed.

Lemma round_nearest_even_nonneg (m : Z) (l : location) :
  0 <= m -> 0 <= round_nearest_even m l.
Proof.
  intros Hm. destruct l as [|[]]; cbn [round_nearest_even]; try lia.
  destruct (Z.even m); lia.
Qed.

(** Rounding a non-negative mantissa gives a zero, a finite number or an
    infinity. *)
Lemma binary_round_aux_not_nan (sx : bool) (mx ex : Z) (lx : location) :
  0 <= mx -> binary_round_aux prec emax sx mx ex lx <> S754_nan.
Proof.
  intros Hm. unfold binary_round_aux.
  pose proof (shr_fexp_nonneg mx ex lx Hm) as H1.
  destruct (shr_fexp prec emax mx ex lx) as [mrs' e']. cbn [fst] in H1.
  pose proof (shr_fexp_nonneg
                (round_nearest_even (shr_m mrs') (loc_of_shr_record mrs'))
                e' loc_Exact
                (round_nearest_even_nonneg _ _ H1)) as H2.
  destruct (shr_fexp prec emax _ e' loc_Exact) as [mrs'' e'']. cbn [fst] in H2.
  destruct (shr_m mrs'') as [|m|m]; [discriminate| |lia].
  destruct (e'' <=? emax - prec); discriminate.
Qed.

Lemma binary_normalize_not_nan (m e : Z) (szero : bool) :
  binary_normalize prec emax m e szero <> S754_nan.
Proof.
  destruct m as [|m|m]; cbn [binary_normalize]; [discriminate| |];
    unfold binary_round;
    destruct (shl_align _ e _) as [mz ez];
    apply binary_round_aux_not_nan; lia.
Qed.

Lemma of_Z_not_nan (z : Z) : of_Z z <> NaN.
Proof. apply binary_normalize_not_nan. Qed.

(** A number that is neither [NaN] nor an infinity. *)
Definition finite (x : number) : Prop :=
  match x with
  | S754_zero _ | S754_finite _ _ _ => True
  | _ => False
  end.

(** A positive finite number. *)
Definition positive_finite (x : number) : Prop :=
  match x with
  | S754_finite false _ _ => True
  | _ => False
  end.

Lemma positive_finite_tests (x : number) :
  ltb zero x = true -> ltb x Infinity = true -> positive_finite x.
Proof.
  destruct x as [s|[]| |[] m e]; cbn; try discriminate; trivial.
Qed.

Lemma add_not_nan (x y : number) :
  x <> NaN -> finite y -> add x y <> NaN.
Proof.
  intros Hx Hy. unfold add.
  destruct x as [sx|sx| |sx mx ex]; [| |contradiction|];
    destruct y as [sy|sy| |sy my ey]; try contradiction; cbn [SFadd];
    try discriminate.
  - destruct sx, sy; discriminate.
  - apply binary_normalize_not_nan.
Qed.

Lemma sub_not_nan (x y : number) :
  finite x -> y <> NaN -> sub x y <> NaN.
Proof.
  intros Hx Hy. unfold sub.
  destruct y as [sy|sy| |sy my ey]; [| |contradiction|];
    destruct x as [sx|sx| |sx mx ex]; try contradiction; cbn [SFsub];
    try discriminate.
  - destruct sx, sy; discriminate.
  - apply binary_normalize_not_nan.
Qed.

Lemma div_not_nan (x y : number) :
  x <> NaN -> positive_finite y -> div x y <> NaN.
Proof.
  intros Hx Hy. unfold div.
  destruct y as [sy|sy| |sy my ey]; try contradiction.
  destruct sy; [contradiction|].
  destruct x as [sx|sx| |sx mx ex]; [| |contradiction|]; cbn [SFdiv];
    try discriminate.
  unfold SFdiv_core_binary.
  set (m' := match _ with Z.pos _ => _ | Z0 => Z.pos mx | Z.neg _ => 0 end).
  assert (Hm' : 0 <= m').
  { unfold m'. destruct (_ - _ - _); try lia. apply Z.shiftl_nonneg. lia. }
  pose proof (Z.div_pos m' (Z.pos my) Hm' ltac:(lia)) as Hq.
  unfold Z.div in Hq. destruct (Z.div_eucl m' (Z.pos my)) as [q r].
  apply binary_round_aux_not_nan. exact Hq.
Qed.

Lemma eqb_refl (x : number) : x <> NaN -> eqb x x = true.
Proof.
  intros Hx. unfold eqb, SFeqb.
  destruct x as [s|[]| |[] m e]; try contradiction; cbn [SFcompare];
    try reflexivity;
    rewrite Z.compare_refl; change (Pos.compare_cont Eq m m) with (m ?= m)%positive;
    rewrite Pos.compare_refl; reflexivity.
Qed.

(** Numbers that [==] holds of are the same number, or two zeros. *)
Lemma eqb_true (x y : number) :
  eqb x y = true ->
  x <> NaN /\ (x = y \/ exists sx sy, x = S754_zero sx /\ y = S754_zero sy).
Proof.
  unfold eqb, SFeqb.
  destruct x as [sx|sx| |sx mx ex]; destruct y as [sy|sy| |sy my ey];
    cbn [SFcompare]; try discriminate.
  - intros _. split; [discriminate|]. right. eauto.
  - destruct sy; discriminate.
  - destruct sy; discriminate.
  - destruct sx; discriminate.
  - destruct sx, sy; try discriminate; intros _; split;
      try discriminate; left; reflexivity.
  - destruct sx; discriminate.
  - destruct sx; discriminate.
  - destruct sy; discriminate.
  - intros H. split; [discriminate|]. left.
    destruct sx, sy; try discriminate;
      destruct (Z.compare_spec ex ey) as [->| |]; try discriminate;
      change (Pos.compare_cont Eq mx my) with (mx ?= my)%positive in H;
      destruct (Pos.compare_spec mx my) as [->| |]; try discriminate;
      reflexivity.
Qed.

Lemma eqb_div (x y ts : number) :
  positive_finite ts -> eqb x y = true -> eqb (div x ts) (div y ts) = true.
Proof.
  intros Hts H. apply eqb_true in H as [Hx [<-|(sx & sy & -> & ->)]].
  - apply eqb_refl, div_not_nan; assumption.
  - destruct ts as [| | |[] m e]; try contradiction. reflexivity.
Qed.

Lemma eqb_trans (x y z : number) :
  eqb x y = true -> eqb y z = true -> eqb x z = true.
Proof.
  intros Hxy Hyz.
  apply eqb_true in Hxy as [Hx [<-|(sx & sy & -> & ->)]]; [exact Hyz|].
  apply eqb_true in Hyz as [_ [<-|(sy' & sz & _ & ->)]]; reflexivity.
Qed.

End NumberFacts.


(** ** [mpd_utils.createTimeline]: SegmentTimeline expansion *)

Module MpdUtils.
Import Number.

(** An [S] element as [xml_utils.parseAttr] delivers its attributes: a
    number, or [null] for an attribute that is absent or refused.
    Modelled from the spec: [xml_utils.js] is not among the sources; [t]
    and [d] go through [parseNonNegativeInt] and [r] through [parseInt]
    ("[t] (start in timescale units; may be absent), [d] (duration;
    required), [r] (repeat; default 0; may be negative)"). *)
Record S_element := {
  s_t : option number;
  s_d : option number;
  s_r : option number;
}.

(** [mpd_utils.TimeRange] *)
Record TimeRange := {
  start : number;
  end_ : number;
  unscaledStart : number;
}.

(** The warnings the expansion logs. *)
Inductive Warning :=
  | S_without_duration
  | Negative_repeat_next_without_start
  | Negative_repeat_start_exceeds_next
  | Negative_repeat_infinite_period
  | Negative_repeat_start_exceeds_period
  | Large_gap_or_overlap.

(** [manifest_parser_utils.GAP_OVERLAP_TOLERANCE_SECONDS = 1 / 15] *)
Definition GAP_OVERLAP_TOLERANCE_SECONDS : number := div (of_Z 1) (of_Z 15).

(** [timeline[timeline.length - 1].end = e] *)
Fixpoint set_last_end (timeline : list TimeRange) (e : number)
  : list TimeRange :=
  match timeline with
  | [] => []
  | [x] => [{| start := start x; end_ := e; unscaledStart := unscaledStart x |}]
  | x :: rest => x :: set_last_end rest e
  end.

(** How often the body of [for (let j = 0; j <= repeat; ++j)] runs.  [j]
    takes the values 0, 1, 2, ... and the test holds up to the integer
    part of [repeat]; numbers count exactly up to 2^53, where [++j] leaves
    [j] as it is, so that the loop has no end when [repeat] is 2^53 or
    more ([None]). *)
Definition rounds (repeat : number) : option nat :=
  match repeat with
  | S754_nan | S754_infinity true | S754_finite true _ _ => Some 0%nat
  | S754_zero _ => Some 1%nat
  | S754_finite false m e =>
      if floor_pos m e <? 2 ^ 53
      then Some (Z.to_nat (floor_pos m e + 1))
      else None
  | S754_infinity false => None
  end.

(** [r || 0] *)
Definition repeat_or_zero (timePoint : S_element) : number :=
  match s_r timePoint with
  | Some r => if falsy r then zero else r
  | None => zero
  end.

(** The body of that loop, run [n] times. *)
Fixpoint emit (n : nat) (timescale d : number) (timeline : list TimeRange)
    (startTime lastEndTime : number) : list TimeRange * number :=
  match n with
  | O => (timeline, lastEndTime)
  | S n' =>
      let endTime := add startTime d in
      let item := {| start := div startTime timescale;
                     end_ := div endTime timescale;
                     unscaledStart := startTime |} in
      emit n' timescale d (timeline ++ [item]) endTime endTime
  end.

(** What one pass of the loop over the [S] elements comes to: the next
    pass, [return timeline], or a loop over [j] that has no end. *)
Inductive Pass :=
  | Continue (timeline : list TimeRange) (lastEndTime : number)
      (log : list Warning)
  | Return (timeline : list TimeRange) (log : list Warning)
  | Forever.

Section Expansion.

(** The tolerance read in the gap test. *)
Variable tolerance : number.

Variables timescale unscaledPresentationTimeOffset periodDuration : number.

(** The repeat count of an [S] whose [r] is negative: the number, or the
    warning with which the expansion stops. *)
Definition negative_repeat (next : option S_element) (startTime d : number)
  : number + Warning :=
  match next with
  | Some nxt =>
      match s_t nxt with
      | None => inr Negative_repeat_next_without_start
      | Some nextStartTime =>
          if leb nextStartTime startTime
          then inr Negative_repeat_start_exceeds_next
          else inl (sub (ceil (div (sub nextStartTime startTime) d)) (of_Z 1))
      end
  | None =>
      if eqb periodDuration Infinity
      then inr Negative_repeat_infinite_period
      else if leb periodDuration (div startTime timescale)
      then inr Negative_repeat_start_exceeds_period
      else inl (sub (ceil (div (sub (mul periodDuration timescale) startTime)
                             d))
                  (of_Z 1))
  end.

(** [t != null ? t : lastEndTime], after [t -= unscaledPresentationTimeOffset] *)
Definition start_of (timePoint : S_element) (lastEndTime : number) : number :=
  default lastEndTime
    ((fun t => sub t unscaledPresentationTimeOffset) <$> s_t timePoint).

(** [repeat], from [r || 0] to the end of [if (repeat < 0)] *)
Definition repeat_of (timePoint : S_element) (next : option S_element)
    (startTime d : number) : number + Warning :=
  let repeat := repeat_or_zero timePoint in
  if ltb repeat zero then negative_repeat next startTime d else inl repeat.

(** The body of the loop over the [S] elements. *)
Definition pass (timePoint : S_element) (next : option S_element)
    (timeline : list TimeRange) (lastEndTime : number) (log : list Warning)
  : Pass :=
  match s_d timePoint with
  | None => Return timeline (log ++ [S_without_duration])
  | Some d =>
      if falsy d then Return timeline (log ++ [S_without_duration])
      else
        let startTime := start_of timePoint lastEndTime in
        match repeat_of timePoint next startTime d with
        | inr w => Return timeline (log ++ [w])
        | inl repeat =>
            let stretch :=
              negb (Nat.eqb (length timeline) 0)
              && negb (eqb startTime lastEndTime) in
            let log :=
              if stretch
                 && leb tolerance
                      (abs (div (sub startTime lastEndTime) timescale))
              then log ++ [Large_gap_or_overlap] else log in
            let timeline :=
              if stretch
              then set_last_end timeline (div startTime timescale)
              else timeline in
            match rounds repeat with
            | None => Forever
            | Some n =>
                let '(timeline, lastEndTime) :=
                  emit n timescale d timeline startTime lastEndTime in
                Continue timeline lastEndTime log
            end
        end
  end.

(** [for (let i = 0; i < timePoints.length; ++i)], from [i] on; [n] bounds
    the passes that are left.  [None]: the call does not return. *)
Fixpoint loop (timePoints : list S_element) (n i : nat)
    (timeline : list TimeRange) (lastEndTime : number) (log : list Warning)
  : option (list TimeRange * list Warning) :=
  match n with
  | O => Some (timeline, log)
  | S n' =>
      match timePoints !! i with
      | None => Some (timeline, log)
      | Some timePoint =>
          match pass timePoint (timePoints !! (i + 1)%nat)
                  timeline lastEndTime log with
          | Continue timeline lastEndTime log =>
              loop timePoints n' (i + 1) timeline lastEndTime log
          | Return timeline log => Some (timeline, log)
          | Forever => None
          end
      end
  end.

Definition createTimeline_with (timePoints : list S_element)
  : option (res (list TimeRange * list Warning)) :=
  match
    (_ ← assert (ltb zero timescale && ltb timescale Infinity)
           "timescale must be a positive, finite integer";
     assert (ltb zero periodDuration)
       "period duration must be a positive integer")
  with
  | Throw e => Some (Throw e)
  | Ok _ =>
      Ok <$> loop timePoints (length timePoints) 0 []
               (neg unscaledPresentationTimeOffset) []
  end.

End Expansion.

(** [createTimeline(segmentTimeline, timescale,
    unscaledPresentationTimeOffset, periodDuration)], on the [S] children
    of [segmentTimeline]; the second component is the log. *)
Definition createTimeline
    (timePoints : list S_element)
    (timescale unscaledPresentationTimeOffset periodDuration : number)
  : option (res (list TimeRange * list Warning)) :=
  createTimeline_with GAP_OVERLAP_TOLERANCE_SECONDS timescale
    unscaledPresentationTimeOffset periodDuration timePoints.

End MpdUtils.


(** ** Contiguity and the negative repeat count *)

Module TimelineFacts.
Import Number NumberFacts MpdUtils.

Definition with_end (x : TimeRange) (e : number) : TimeRange :=
  {| start := start x; end_ := e; unscaledStart := unscaledStart x |}.

(** Every entry ends where the next one starts ([===]). *)
Definition contiguous (timeline : list TimeRange) : Prop :=
  forall (i : nat) (a b : TimeRange),
    timeline !! i = Some a -> timeline !! S i = Some b ->
    eqb (end_ a) (start b) = true.

(** The last entry, if any, ends at [lastEnd] (in seconds). *)
Definition ends_at (timeline : list TimeRange) (lastEnd timescale : number)
  : Prop :=
  forall a, last timeline = Some a ->
    eqb (end_ a) (div lastEnd timescale) = true.

(** An entry starts at its unscaled start, in seconds. *)
Definition scaled_start (timescale : number) (x : TimeRange) : Prop :=
  start x = div (unscaledStart x) timescale.

(** The entries one [S] contributes, by position. *)
Fixpoint entries (n : nat) (timescale d s : number) : list TimeRange :=
  match n with
  | O => []
  | S n' =>
      {| start := div s timescale;
         end_ := div (add s d) timescale;
         unscaledStart := s |} :: entries n' timescale d (add s d)
  end.

(** [s + d + ... + d], with [n] additions. *)
Fixpoint advance (n : nat) (d s : number) : number :=
  match n with
  | O => s
  | S n' => advance n' d (add s d)
  end.

(** The test of the stretch, the timeline after it and the log after the
    gap test. *)
Definition stretches (timeline : list TimeRange) (s lastEnd : number) : bool :=
  negb (Nat.eqb (length timeline) 0) && negb (eqb s lastEnd).

Definition stretched (timescale : number) (timeline : list TimeRange)
    (s lastEnd : number) : list TimeRange :=
  if stretches timeline s lastEnd
  then set_last_end timeline (div s timescale)
  else timeline.

Definition gap_log (tolerance timescale : number) (timeline : list TimeRange)
    (s lastEnd : number) (log : list Warning) : list Warning :=
  if stretches timeline s lastEnd
     && leb tolerance (abs (div (sub s lastEnd) timescale))
  then log ++ [Large_gap_or_overlap]
  else log.

(** The attributes of an [S] as the integer parsers deliver them: no
    infinity and no [NaN]. *)
Definition finite_attributes (p : S_element) : Prop :=
  from_option finite True (s_t p) /\ from_option finite True (s_d p).

(** A timeline of a size that the heap of the engine holds whatever its
    configuration; the model itself puts no bound on an array. *)
Definition max_entries : Z := 1048576.

Lemma emit_entries n ts d : forall tl s le,
  emit n ts d tl s le
  = (tl ++ entries n ts d s,
     match n with O => le | S _ => advance n d s end).
Proof.
  induction n as [|n IH]; intros tl s le; cbn [emit entries advance].
  - rewrite app_nil_r. reflexivity.
  - rewrite IH, <- app_assoc. destruct n; reflexivity.
Qed.

Lemma length_entries n ts d s : length (entries n ts d s) = n.
Proof. revert s. induction n as [|n IH]; intros s; simpl; auto. Qed.

Lemma set_last_end_snoc l x e :
  set_last_end (l ++ [x]) e = l ++ [with_end x e].
Proof.
  induction l as [|y l IH]; [reflexivity|].
  simpl. rewrite IH. destruct (l ++ [x]) eqn:E; [|reflexivity].
  destruct l; discriminate.
Qed.

Lemma length_set_last_end l e : length (set_last_end l e) = length l.
Proof.
  destruct l as [|x l _] using rev_ind; [reflexivity|].
  rewrite set_last_end_snoc, !length_app. reflexivity.
Qed.

Lemma length_stretched ts tl s le : length (stretched ts tl s le) = length tl.
Proof.
  unfold stretched. destruct (stretches tl s le); [|reflexivity].
  apply length_set_last_end.
Qed.

Lemma stretched_snoc ts tl x s le :
  stretched ts (tl ++ [x]) s le
  = tl ++ [if eqb s le then x else with_end x (div s ts)].
Proof.
  unfold stretched, stretches. rewrite length_app, Nat.add_comm.
  cbn [length Nat.add Nat.eqb negb andb].
  destruct (eqb s le); cbn [negb]; [reflexivity|].
  apply set_last_end_snoc.
Qed.

(** A pass that reaches the loop over [j]. *)
Lemma pass_continue tol ts pto pd p next tl le log d repeat n :
  s_d p = Some d -> falsy d = false ->
  repeat_of ts pd p next (start_of pto p le) d = inl repeat ->
  rounds repeat = Some n ->
  pass tol ts pto pd p next tl le log
  = Continue
      (stretched ts tl (start_of pto p le) le
       ++ entries n ts d (start_of pto p le))
      (match n with O => le | S _ => advance n d (start_of pto p le) end)
      (gap_log tol ts tl (start_of pto p le) le log).
Proof.
  intros Hd Hfalsy Hrepeat Hrounds. unfold pass.
  rewrite Hd, Hfalsy, Hrepeat, Hrounds, emit_entries. reflexivity.
Qed.

(** What a pass comes to. *)
Lemma pass_cases tol ts pto pd p next tl le log :
  (exists w, pass tol ts pto pd p next tl le log = Return tl (log ++ [w]))
  \/ pass tol ts pto pd p next tl le log = Forever
  \/ exists d repeat n,
       s_d p = Some d /\ falsy d = false /\
       repeat_of ts pd p next (start_of pto p le) d = inl repeat /\
       rounds repeat = Some n.
Proof.
  unfold pass.
  destruct (s_d p) as [d|]; [|left; eexists; reflexivity].
  destruct (falsy d) eqn:Hfalsy; [left; eexists; reflexivity|].
  destruct (repeat_of ts pd p next (start_of pto p le) d) as [repeat|w]
    eqn:Hrepeat; [|left; eexists; reflexivity].
  destruct (rounds repeat) as [n|] eqn:Hrounds; [|right; left; reflexivity].
  right. right. exists d, repeat, n. auto.
Qed.

Lemma contiguous_nil : contiguous [].
Proof. intros i a b H. rewrite lookup_nil in H. discriminate. Qed.

Lemma contiguous_snoc tl x ts s :
  contiguous tl -> ends_at tl s ts -> start x = div s ts ->
  contiguous (tl ++ [x]).
Proof.
  intros Hc He Hx i a b Ha Hb.
  destruct (decide (S i < length tl)%nat) as [Hlt|Hge].
  - rewrite lookup_app_l in Ha, Hb by lia. eauto.
  - assert (Hi : S i = length tl).
    { apply lookup_lt_Some in Hb. rewrite length_app in Hb. simpl in Hb. lia. }
    rewrite lookup_app_l in Ha by lia.
    rewrite lookup_app_r, Hi, Nat.sub_diag in Hb by lia.
    injection Hb as <-.
    rewrite Hx. apply He. rewrite last_lookup.
    replace (pred (length tl)) with i by lia. exact Ha.
Qed.

Lemma ends_at_snoc tl x ts s :
  eqb (end_ x) (div s ts) = true -> ends_at (tl ++ [x]) s ts.
Proof. intros Hx a Ha. rewrite last_snoc in Ha. injection Ha as <-. exact Hx. Qed.

Lemma ends_at_nil s ts : ends_at [] s ts.
Proof. intros a Ha. discriminate Ha. Qed.

Lemma contiguous_with_end l x e :
  contiguous (l ++ [x]) -> contiguous (l ++ [with_end x e]).
Proof.
  intros Hc i a b Ha Hb.
  destruct (decide (S i < length l)%nat) as [Hlt|Hge].
  - rewrite lookup_app_l in Ha, Hb by lia.
    apply (Hc i a b); rewrite lookup_app_l by lia; auto.
  - assert (Hi : S i = length l).
    { apply lookup_lt_Some in Hb. rewrite length_app in Hb.
      simpl in Hb. lia. }
    rewrite lookup_app_l in Ha by lia.
    rewrite lookup_app_r, Hi, Nat.sub_diag in Hb by lia.
    injection Hb as <-. cbn [with_end start].
    apply (Hc i a x).
    + rewrite lookup_app_l by lia. exact Ha.
    + rewrite lookup_app_r, Hi, Nat.sub_diag by lia. reflexivity.
Qed.

Lemma eqb_sym (x y : number) : eqb x y = true -> eqb y x = true.
Proof.
  intros H. pose proof H as H'.
  apply eqb_true in H as [Hx [<-|(sx & sy & -> & ->)]]; [exact H'|reflexivity].
Qed.

Section Invariant.

Variables ts d : number.
Hypothesis Hts : positive_finite ts.
Hypothesis Hd : finite d.

Lemma advance_not_nan n : forall s, s <> NaN -> advance n d s <> NaN.
Proof.
  induction n as [|n IH]; intros s Hs; cbn [advance]; [exact Hs|].
  apply IH, add_not_nan; assumption.
Qed.

Lemma entries_scaled n : forall s, Forall (scaled_start ts) (entries n ts d s).
Proof.
  induction n as [|n IH]; intros s; cbn [entries]; constructor;
    [reflexivity | apply IH].
Qed.

Lemma entries_contiguous n : forall tl s,
  s <> NaN -> contiguous tl -> ends_at tl s ts ->
  contiguous (tl ++ entries n ts d s) /\
  ((0 < n)%nat -> ends_at (tl ++ entries n ts d s) (advance n d s) ts).
Proof.
  induction n as [|n IH]; intros tl s Hs Hc He; cbn [entries advance].
  - rewrite app_nil_r. split; [exact Hc | lia].
  - set (item := {| start := div s ts; end_ := div (add s d) ts;
                    unscaledStart := s |}).
    assert (Hs' : add s d <> NaN) by (apply add_not_nan; assumption).
    assert (Hc' : contiguous (tl ++ [item]))
      by (apply (contiguous_snoc tl item ts s); auto).
    assert (He' : ends_at (tl ++ [item]) (add s d) ts).
    { apply ends_at_snoc. cbn [item end_].
      apply eqb_refl, div_not_nan; assumption. }
    destruct (IH (tl ++ [item]) (add s d) Hs' Hc' He') as [IH1 IH2].
    rewrite <- app_assoc in IH1, IH2. cbn [app] in IH1, IH2.
    split; [exact IH1|]. intros _.
    destruct n as [|n]; [|apply IH2; lia].
    cbn [entries advance]. exact He'.
Qed.

Lemma stretched_contiguous tl s le :
  s <> NaN -> contiguous tl -> ends_at tl le ts ->
  contiguous (stretched ts tl s le) /\ ends_at (stretched ts tl s le) s ts.
Proof.
  intros Hs Hc He. unfold stretched, stretches.
  destruct tl as [|x l _] using rev_ind.
  - cbn. split; [exact Hc | apply ends_at_nil].
  - rewrite length_app, Nat.add_comm. cbn [length Nat.add Nat.eqb negb andb].
    destruct (eqb s le) eqn:Heq; cbn [negb].
    + split; [exact Hc|]. intros a Ha.
      apply (eqb_trans _ (div le ts)); [apply He, Ha|].
      apply eqb_div; [exact Hts | apply eqb_sym, Heq].
    + rewrite set_last_end_snoc. split.
      * apply contiguous_with_end, Hc.
      * apply ends_at_snoc. cbn [with_end end_].
        apply eqb_refl, div_not_nan; assumption.
Qed.

Lemma stretched_scaled tl s le :
  Forall (scaled_start ts) tl -> Forall (scaled_start ts) (stretched ts tl s le).
Proof.
  intros H. unfold stretched. destruct (stretches tl s le); [|exact H].
  destruct tl as [|x l _] using rev_ind; [exact H|].
  rewrite set_last_end_snoc. apply Forall_app in H as [Hl Hx].
  apply Forall_app. split; [exact Hl|].
  constructor; [|constructor]. apply Forall_inv in Hx. exact Hx.
Qed.

End Invariant.


(** An [S] with a duration and without a negative [r], and the entries it
    stands for. *)
Definition counted (p : S_element) (n : nat) : Prop :=
  (exists d, s_d p = Some d /\ falsy d = false) /\
  ltb (repeat_or_zero p) zero = false /\
  rounds (repeat_or_zero p) = Some n.

Lemma counted_positive p n : counted p n -> (0 < n)%nat.
Proof.
  unfold counted, repeat_or_zero. intros (_ & Hlt & Hrounds).
  assert (Hcase : forall x : number,
            x <> NaN -> ltb x zero = false -> rounds x = Some n ->
            (0 < n)%nat).
  { intros x Hx Hl Hr.
    destruct x as [s|[]| |[] m e]; try discriminate; try contradiction;
      cbn [rounds] in Hr.
    - injection Hr as <-. lia.
    - destruct (floor_pos m e <? 2 ^ 53); [|discriminate].
      injection Hr as <-.
      assert (0 <= floor_pos m e) by (apply Z.shiftl_nonneg; lia). lia. }
  destruct (s_r p) as [r|]; [|injection Hrounds as <-; lia].
  destruct (falsy r) eqn:Hf; [injection Hrounds as <-; lia|].
  apply (Hcase r); auto. intros ->. discriminate Hf.
Qed.

Lemma counted_repeat ts pd p next s d n :
  counted p n -> repeat_of ts pd p next s d = inl (repeat_or_zero p).
Proof. intros (_ & Hlt & _). unfold repeat_of. rewrite Hlt. reflexivity. Qed.

Section Run.

Variables tol ts pto pd : number.
Variable timePoints : list S_element.

(** Every [S] that is expanded and followed by another contributes an
    entry. *)
Fixpoint productive (n i : nat) (tl : list TimeRange) (le : number) : Prop :=
  match n with
  | O => True
  | S n' =>
      match timePoints !! i with
      | None => True
      | Some p =>
          match pass tol ts pto pd p (timePoints !! (i + 1)%nat) tl le [] with
          | Continue tl' le' _ =>
              (is_Some (timePoints !! (i + 1)%nat) ->
               (length tl < length tl')%nat) /\
              productive n' (i + 1) tl' le'
          | _ => True
          end
      end
  end.

Lemma loop_end n i tl le log :
  timePoints !! i = None ->
  loop tol ts pto pd timePoints n i tl le log = Some (tl, log).
Proof. intros H. destruct n; cbn [loop]; [|rewrite H]; reflexivity. Qed.

Lemma start_of_not_nan p le :
  pto <> NaN -> finite_attributes p -> le <> NaN -> start_of pto p le <> NaN.
Proof.
  intros Hpto [Ht _] Hle. unfold start_of.
  destruct (s_t p) as [t|]; cbn in *; [|exact Hle].
  apply sub_not_nan; assumption.
Qed.

Lemma loop_contiguous :
  positive_finite ts -> pto <> NaN -> Forall finite_attributes timePoints ->
  forall n i tl le log tl' log',
    contiguous tl -> ends_at tl le ts -> le <> NaN ->
    Forall (scaled_start ts) tl ->
    productive n i tl le ->
    loop tol ts pto pd timePoints n i tl le log = Some (tl', log') ->
    contiguous tl' /\ Forall (scaled_start ts) tl'.
Proof.
  intros Hts Hpto Hfin.
  induction n as [|n IH]; intros i tl le log tl' log' Hc He Hle Hs Hprod Hrun;
    cbn [loop productive] in *.
  { injection Hrun as <- <-. auto. }
  destruct (timePoints !! i) as [p|] eqn:Hp; [|injection Hrun as <- <-; auto].
  assert (Hattr : finite_attributes p)
    by (eapply Forall_lookup_1; eauto).
  destruct (pass_cases tol ts pto pd p (timePoints !! (i + 1)%nat) tl le log)
    as [[w Hpass]|[Hpass|(d & repeat & k & Hd & Hfalsy & Hrepeat & Hrounds)]].
  - rewrite Hpass in Hrun. injection Hrun as <- <-. auto.
  - rewrite Hpass in Hrun. discriminate Hrun.
  - rewrite (pass_continue tol ts pto pd p _ tl le log d repeat k
               Hd Hfalsy Hrepeat Hrounds) in Hrun.
    rewrite (pass_continue tol ts pto pd p _ tl le [] d repeat k
               Hd Hfalsy Hrepeat Hrounds) in Hprod.
    set (s := start_of pto p le) in *.
    assert (Hsn : s <> NaN) by (apply start_of_not_nan; assumption).
    assert (Hdf : finite d).
    { destruct Hattr as [_ Hdd]. rewrite Hd in Hdd. exact Hdd. }
    destruct (stretched_contiguous ts Hts tl s le Hsn Hc He) as [Hc1 He1].
    destruct (entries_contiguous ts d Hts Hdf k (stretched ts tl s le) s
                Hsn Hc1 He1) as [Hc2 He2].
    assert (Hs2 : Forall (scaled_start ts)
                    (stretched ts tl s le ++ entries k ts d s)).
    { apply Forall_app. split;
        [apply stretched_scaled, Hs | apply entries_scaled]. }
    destruct Hprod as [Hlen Hprod].
    destruct k as [|k].
    + destruct (timePoints !! (i + 1)%nat) as [q|] eqn:Hq.
      * exfalso. specialize (Hlen ltac:(eauto)).
        rewrite length_app, length_stretched in Hlen. cbn in Hlen. lia.
      * rewrite loop_end in Hrun by exact Hq. injection Hrun as <- <-. auto.
    + apply (IH _ _ _ _ _ _ Hc2 (He2 ltac:(lia))
               (advance_not_nan d Hdf (S k) s Hsn) Hs2 Hprod Hrun).
Qed.

End Run.

(** The tolerance has no part in the timeline. *)
Lemma loop_tolerance tol tol' ts pto pd timePoints :
  forall n i tl le log log',
    fst <$> loop tol ts pto pd timePoints n i tl le log
    = fst <$> loop tol' ts pto pd timePoints n i tl le log'.
Proof.
  induction n as [|n IH]; intros i tl le log log'; cbn [loop];
    [reflexivity|].
  destruct (timePoints !! i) as [p|]; [|reflexivity].
  unfold pass.
  destruct (s_d p) as [d|]; [|reflexivity].
  destruct (falsy d); [reflexivity|].
  destruct (repeat_of ts pd p _ _ d) as [repeat|w]; [|reflexivity].
  destruct (rounds repeat) as [k|]; [|reflexivity].
  rewrite emit_entries. apply IH.
Qed.

(** A timeline whose [S] all have a duration and none a negative [r] is
    expanded to the end. *)
Lemma loop_counted tol ts pto pd timePoints counts :
  Forall2 counted timePoints counts ->
  forall n i tl le log,
    (length timePoints <= i + n)%nat ->
    productive tol ts pto pd timePoints n i tl le /\
    exists tl' log',
      loop tol ts pto pd timePoints n i tl le log = Some (tl', log') /\
      length tl' = (length tl + sum_list (drop i counts))%nat.
Proof.
  intros Hcounts. pose proof (Forall2_length _ _ _ Hcounts) as Hlength.
  assert (Hdone : forall i (tl : list TimeRange),
            (length timePoints <= i)%nat ->
            length tl = (length tl + sum_list (drop i counts))%nat).
  { intros i tl Hi. rewrite drop_ge by lia. cbn. lia. }
  induction n as [|n IH]; intros i tl le log Hn; cbn [loop productive].
  { split; [exact I|]. exists tl, log.
    split; [reflexivity | apply Hdone; lia]. }
  destruct (timePoints !! i) as [p|] eqn:Hp.
  2:{ split; [exact I|]. exists tl, log. split; [reflexivity|].
      apply Hdone, lookup_ge_None, Hp. }
  destruct (Forall2_lookup_l _ _ _ _ _ Hcounts Hp) as (c & Hc & Hcounted).
  pose proof (counted_positive _ _ Hcounted) as Hpos.
  assert (Hrepeat : forall d,
            repeat_of ts pd p (timePoints !! (i + 1)%nat)
              (start_of pto p le) d = inl (repeat_or_zero p))
    by (intros d; apply (counted_repeat _ _ _ _ _ _ c Hcounted)).
  destruct Hcounted as ((d & Hd & Hfalsy) & _ & Hrounds).
  rewrite (drop_S _ _ _ Hc). cbn [sum_list sum_list_with].
  change (id c) with c.
  rewrite (pass_continue tol ts pto pd p _ tl le log d _ c Hd Hfalsy
             (Hrepeat d) Hrounds).
  rewrite (pass_continue tol ts pto pd p _ tl le [] d _ c Hd Hfalsy
             (Hrepeat d) Hrounds).
  set (tl1 := stretched ts tl (start_of pto p le) le
              ++ entries c ts d (start_of pto p le)).
  set (le1 := match c with
              | O => le
              | S _ => advance c d (start_of pto p le)
              end).
  assert (Hlen : length tl1 = (length tl + c)%nat)
    by (unfold tl1; rewrite length_app, length_stretched, length_entries;
        reflexivity).
  replace (S i) with (i + 1)%nat by lia.
  destruct (IH (i + 1)%nat tl1 le1
              (gap_log tol ts tl (start_of pto p le) le log) ltac:(lia))
    as [Hprod (tl' & log' & Hrun & Hle)].
  split.
  - split; [intros _; lia | exact Hprod].
  - exists tl', log'. split; [exact Hrun | lia].
Qed.

Lemma neg_not_nan (x : number) : x <> NaN -> neg x <> NaN.
Proof. destruct x; cbn; try discriminate. intros H; exact H. Qed.

(** A run that returns a timeline has passed both assertions. *)
Lemma createTimeline_with_returns tol ts pto pd points tl log :
  createTimeline_with tol ts pto pd points = Some (Ok (tl, log)) ->
  positive_finite ts /\ ltb zero pd = true /\
  loop tol ts pto pd points (length points) 0 [] (neg pto) [] = Some (tl, log).
Proof.
  unfold createTimeline_with, assert.
  destruct (ltb zero ts) eqn:H1; [|discriminate].
  destruct (ltb ts Infinity) eqn:H2; [|discriminate].
  destruct (ltb zero pd) eqn:H3; [|discriminate].
  cbn [andb mbind res_bind Js.bind].
  destruct (loop _ _ _ _ _ _ _ _ _ _) as [[tl0 log0]|]; [|discriminate].
  cbn. intros [= <- <-].
  split; [apply positive_finite_tests; assumption | auto].
Qed.

Lemma createTimeline_with_run tol ts pto pd points :
  ltb zero ts = true -> ltb ts Infinity = true -> ltb zero pd = true ->
  createTimeline_with tol ts pto pd points
  = Ok <$> loop tol ts pto pd points (length points) 0 [] (neg pto) [].
Proof.
  intros H1 H2 H3. unfold createTimeline_with, assert.
  rewrite H1, H2, H3. reflexivity.
Qed.

Lemma positive_finite_ltb (x : number) :
  positive_finite x -> ltb zero x = true /\ ltb x Infinity = true.
Proof. destruct x as [| | |[] m e]; try contradiction. split; reflexivity. Qed.

(** An [S] with integer attributes. *)
Definition integer_S (t d r : option Z) : S_element :=
  {| s_t := of_Z <$> t; s_d := of_Z <$> d; s_r := of_Z <$> r |}.


(** A gap of one unit at timescale 1000, below the tolerance: no warning,
    and the first entry is stretched to the start of the second, 1.001. *)
Definition small_gap_sample : list S_element :=
  [ integer_S (Some 0) (Some 1000) None;
    integer_S (Some 1001) (Some 1000) None ].

Definition small_gap_timeline : list TimeRange :=
  [ {| start := zero; end_ := div (of_Z 1001) (of_Z 1000);
       unscaledStart := zero |};
    {| start := div (of_Z 1001) (of_Z 1000);
       end_ := div (of_Z 2001) (of_Z 1000);
       unscaledStart := of_Z 1001 |} ].


(** 0.9999999999999999, the number before 1. *)
Definition below_one : number := sub one (div one (of_Z (2 ^ 53))).

(** An [S] that contributes no entry: its [r] is negative, and the
    distance to the next [S], 2^-53, divided by its duration, 2^1023, is
    rounded to 0.  It stretches the first entry to its own start and
    leaves [lastEndTime] at 2, where the third [S] starts. *)
Definition zero_rounds_sample : list S_element :=
  [ integer_S (Some 0) (Some 1) None;
    integer_S (Some 0) (Some (2 ^ 1023)) (Some (-1));
    integer_S (Some 1) (Some 1) None ].



Lemma ltb_zero_not_falsy (r : number) : ltb r zero = true -> falsy r = false.
Proof. destruct r as [s|s| |s m e]; cbn; try discriminate; reflexivity. Qed.

(** C5. One [S] with [t = 0], [d = 10], [r = -1], no next [S], timescale 1
    and a period of 60 seconds expands to the six entries starting at 0,
    10, 20, 30, 40 and 50 seconds, the last ending at 60.  The count is
    taken in numbers: [d = 7] at timescale 100 in a period of 0.07 seconds
    gives two entries, since [0.07 * 100] is above 7, and [d = 1] at
    timescale 10 in a period of 0.1 seconds gives one.  In general, when
    the loop arrives at the last [S] of a timeline and its [r] is
    negative: with an infinite period duration, or one that the start of
    the [S] does not precede, the timeline is returned as it is, with a
    warning; otherwise the repeat count is
    [ceil((periodDuration * timescale - start) / d) - 1], the previous
    entry is stretched to the start and the [S] contributes as many
    entries as [j <= repeat] holds for, entry [j] starting [j] durations
    after the start; a repeat count of 2^53 or more has no end. *)
Theorem negative_repeat_fills_period :
  createTimeline [integer_S (Some 0) (Some 10) (Some (-1))]
    one zero (of_Z 60)
  = Some (Ok ([ {| start := zero; end_ := of_Z 10; unscaledStart := zero |};
                {| start := of_Z 10; end_ := of_Z 20;
                   unscaledStart := of_Z 10 |};
                {| start := of_Z 20; end_ := of_Z 30;
                   unscaledStart := of_Z 20 |};
                {| start := of_Z 30; end_ := of_Z 40;
                   unscaledStart := of_Z 30 |};
                {| start := of_Z 40; end_ := of_Z 50;
                   unscaledStart := of_Z 40 |};
                {| start := of_Z 50; end_ := of_Z 60;
                   unscaledStart := of_Z 50 |} ], [])) /\
  createTimeline [integer_S (Some 0) (Some 7) (Some (-1))]
    (of_Z 100) zero (div (of_Z 7) (of_Z 100))
  = Some (Ok (entries 2 (of_Z 100) (of_Z 7) zero, [])) /\
  createTimeline [integer_S (Some 0) (Some 1) (Some (-1))]
    (of_Z 10) zero (div one (of_Z 10))
  = Some (Ok (entries 1 (of_Z 10) one zero, [])) /\
  forall tolerance ts pto pd timePoints i p d r k tl le log,
    timePoints !! i = Some p -> timePoints !! (i + 1)%nat = None ->
    s_d p = Some d -> falsy d = false ->
    s_r p = Some r -> ltb r zero = true ->
    let s := start_of pto p le in
    let repeat := sub (ceil (div (sub (mul pd ts) s) d)) one in
    let run := loop tolerance ts pto pd timePoints (S k) i tl le log in
    (eqb pd Infinity = true ->
     run = Some (tl, log ++ [Negative_repeat_infinite_period])) /\
    (eqb pd Infinity = false -> leb pd (div s ts) = true ->
     run = Some (tl, log ++ [Negative_repeat_start_exceeds_period])) /\
    (eqb pd Infinity = false -> leb pd (div s ts) = false ->
     (rounds repeat = None -> run = None) /\
     forall n,
       rounds repeat = Some n ->
       Z.of_nat (length tl + n) <= max_entries ->
       run = Some (stretched ts tl s le ++ entries n ts d s,
                   gap_log tolerance ts tl s le log) /\
       length (entries n ts d s) = n).
Proof.
  split; [vm_compute; reflexivity|].
  split; [vm_compute; reflexivity|].
  split; [vm_compute; reflexivity|].
  intros tolerance ts pto pd timePoints i p d r k tl le log Hp Hnext Hd
    Hfalsy Hr Hneg s repeat run.
  assert (Hrepeat : repeat_of ts pd p None s d
                    = negative_repeat ts pd None s d).
  { unfold repeat_of, repeat_or_zero.
    rewrite Hr, (ltb_zero_not_falsy r Hneg), Hneg. reflexivity. }
  assert (Hrun : run
                 = match pass tolerance ts pto pd p None tl le log with
                   | Continue tl' _ log' => Some (tl', log')
                   | Return tl' log' => Some (tl', log')
                   | Forever => None
                   end).
  { unfold run. cbn [loop]. rewrite Hp, Hnext.
    destruct (pass tolerance ts pto pd p None tl le log); try reflexivity.
    apply loop_end, Hnext. }
  rewrite Hrun. unfold pass. rewrite Hd, Hfalsy. fold s. rewrite Hrepeat.
  unfold negative_repeat.
  split; [intros ->; reflexivity|].
  split; [intros -> ->; reflexivity|].
  intros -> ->.
  change (sub (ceil (div (sub (mul pd ts) s) d)) (of_Z 1)) with repeat.
  split; [intros ->; reflexivity|].
  intros n -> _. rewrite emit_entries. split; [reflexivity|].
  apply length_entries.
Qed.

(** The last of two [S], after the entry of the first. *)
Lemma negative_repeat_fills_period_witness :
  loop GAP_OVERLAP_TOLERANCE_SECONDS one zero (of_Z 60)
    [ integer_S (Some 0) (Some 10) None;
      integer_S None (Some 10) (Some (-1)) ]
    1 1 (entries 1 one (of_Z 10) zero) (of_Z 10) []
  = Some (entries 1 one (of_Z 10) zero ++ entries 5 one (of_Z 10) (of_Z 10),
          []) /\
  length (entries 5 one (of_Z 10) (of_Z 10)) = 5%nat.
Proof.
  destruct (proj2 (proj2 (proj2 negative_repeat_fills_period))
              GAP_OVERLAP_TOLERANCE_SECONDS one zero (of_Z 60)
              [ integer_S (Some 0) (Some 10) None;
                integer_S None (Some 10) (Some (-1)) ]
              1%nat (integer_S None (Some 10) (Some (-1)))
              (of_Z 10) (of_Z (-1)) 0%nat
              (entries 1 one (of_Z 10) zero) (of_Z 10) []
              eq_refl eq_refl eq_refl eq_refl eq_refl eq_refl)
    as (_ & _ & Hcount).
  destruct (Hcount eq_refl eq_refl) as [_ Hn].
  exact (Hn 5%nat eq_refl ltac:(vm_compute; discriminate)).
Defined.

End TimelineFacts.


(** ** [superparser.js]: the bandwidth tier of the main loop *)

Module Superparser.

(** What the selection reads of a variant. *)
Record Variant := {
  bandwidth : Z;
  audio_language : string;
}.

(** [Array.prototype.sort((a, b) => a.bandwidth - b.bandwidth)]: stable,
    ascending. *)
Fixpoint insert_by_bandwidth (v : Variant) (sorted : list Variant)
  : list Variant :=
  match sorted with
  | [] => [v]
  | w :: rest =>
      if bandwidth v <? bandwidth w then v :: sorted
      else w :: insert_by_bandwidth v rest
  end.

Definition sort_by_bandwidth (variants : list Variant) : list Variant :=
  fold_left (fun sorted v => insert_by_bandwidth v sorted) variants [].

(** [Array.prototype.slice(start, end)], with its clamping of both
    indices. *)
Definition slice {A} (l : list A) (start end_ : Z) : list A :=
  let len := Z.of_nat (length l) in
  let k := if start <? 0 then Z.max (len + start) 0 else Z.min start len in
  let final := if end_ <? 0 then Z.max (len + end_) 0 else Z.min end_ len in
  take (Z.to_nat (final - k)) (drop (Z.to_nat k) l).

(** [parseInt(n / 3)] for a length [n]: the integer part of the quotient. *)
Definition third (n : Z) : Z := n / 3.

(** [lowest] and [highest] for the configured tier; [None] is the
    [exit(1)] of an invalid option. *)
Definition tier_bounds (conf_bandwidth : string) (n : Z) : option (Z * Z) :=
  if String.eqb conf_bandwidth "low" then Some (0, third n)
  else if String.eqb conf_bandwidth "mid" then Some (third n + 1, third n * 2)
  else if String.eqb conf_bandwidth "high" then Some (third n * 2 + 1, n - 1)
  else None.

(** [bandwidthFilteredList] of one cycle. *)
Definition bandwidthFilteredList (conf_bandwidth : string)
    (variants : list Variant) : option (list Variant) :=
  let varaiantList := sort_by_bandwidth variants in
  '(lowest, highest) ← tier_bounds conf_bandwidth
                          (Z.of_nat (length varaiantList));
  Some (slice varaiantList lowest (highest + 1)).

(** *** Facts *)

Lemma length_insert_by_bandwidth v l :
  length (insert_by_bandwidth v l) = S (length l).
Proof.
  induction l as [|w l IH]; simpl; [reflexivity|].
  destruct (bandwidth v <? bandwidth w); simpl; congruence.
Qed.

Lemma length_sort_by_bandwidth variants :
  length (sort_by_bandwidth variants) = length variants.
Proof.
  unfold sort_by_bandwidth.
  assert (H : forall acc,
             length (fold_left (fun s v => insert_by_bandwidth v s)
                       variants acc)
             = (length acc + length variants)%nat).
  { induction variants as [|v vs IH]; intros acc; simpl; [lia|].
    rewrite IH, length_insert_by_bandwidth. lia. }
  apply H.
Qed.

(** C3 (amended). For five variants sorted by ascending bandwidth the
    filter selects indices [0..1] for low, [2..2] for mid and [3..4] for
    high; for [n] variants the tiers are low = [0, n/3],
    mid = [n/3 + 1, 2 * (n/3)] and high = [2 * (n/3) + 1, n - 1], with the
    integer quotient [n/3]. *)
Theorem bandwidth_tiers_of_five (variants : list Variant) :
  length variants = 5%nat ->
  exists v0 v1 v2 v3 v4,
    sort_by_bandwidth variants = [v0; v1; v2; v3; v4] /\
    bandwidthFilteredList "low" variants = Some [v0; v1] /\
    bandwidthFilteredList "mid" variants = Some [v2] /\
    bandwidthFilteredList "high" variants = Some [v3; v4] /\
    forall n : Z,
      tier_bounds "low" n = Some (0, n / 3) /\
      tier_bounds "mid" n = Some (n / 3 + 1, n / 3 * 2) /\
      tier_bounds "high" n = Some (n / 3 * 2 + 1, n - 1).
Proof.
  intros Hlen.
  pose proof (length_sort_by_bandwidth variants) as Hs. rewrite Hlen in Hs.
  unfold bandwidthFilteredList.
  destruct (sort_by_bandwidth variants)
    as [|v0 [|v1 [|v2 [|v3 [|v4 [|]]]]]]; try discriminate Hs.
  exists v0, v1, v2, v3, v4.
  repeat split; reflexivity.
Qed.

Definition five_variants : list Variant :=
  [ {| bandwidth := 300; audio_language := "en" |};
    {| bandwidth := 100; audio_language := "en" |};
    {| bandwidth := 500; audio_language := "en" |};
    {| bandwidth := 200; audio_language := "en" |};
    {| bandwidth := 400; audio_language := "en" |} ].

Lemma bandwidth_tiers_of_five_witness :
  bandwidthFilteredList "mid" five_variants
  = Some [ {| bandwidth := 300; audio_language := "en" |} ].
Proof.
  destruct (bandwidth_tiers_of_five five_variants eq_refl)
    as (v0 & v1 & v2 & v3 & v4 & Hs & _ & Hmid & _).
  rewrite Hmid. vm_compute in Hs. injection Hs as _ _ <- _ _. reflexivity.
Defined.

(** C3 as stated fails: on five variants the mid tier is index 2 alone and
    the high tier is indices 3 and 4. *)
Lemma bandwidth_tiers_as_stated_fail :
  sort_by_bandwidth five_variants
  = [ {| bandwidth := 100; audio_language := "en" |};
      {| bandwidth := 200; audio_language := "en" |};
      {| bandwidth := 300; audio_language := "en" |};
      {| bandwidth := 400; audio_language := "en" |};
      {| bandwidth := 500; audio_language := "en" |} ] /\
  bandwidthFilteredList "mid" five_variants
  <> Some (slice (sort_by_bandwidth five_variants) 2 (3 + 1)) /\
  bandwidthFilteredList "high" five_variants
  <> Some (slice (sort_by_bandwidth five_variants) 4 (4 + 1)).
Proof.
  split; [reflexivity|]. split; vm_compute; discriminate.
Qed.

End Superparser.


(** ** [dash_parser]: the gate on a Representation's segment sources *)

Module DashParser.

(** [manifest_parser_utils.ContentType] *)
Module ContentType.
Definition VIDEO : string := "video".
Definition AUDIO : string := "audio".
Definition TEXT : string := "text".
Definition IMAGE : string := "image".
Definition APPLICATION : string := "application".
End ContentType.

Section Gate.

(** XML elements and the streams built from a Representation. *)
Context {Element Stream : Type}.

(** The part of an inheritance frame the gate reads and writes. *)
Record InheritanceFrame := {
  segmentBase : option Element;
  segmentList : option Element;
  segmentTemplate : option Element;
  contentType : string;
}.

Definition truthy (e : option Element) : bool :=
  match e with Some _ => true | None => false end.

(** The two warnings of the gate. *)
Inductive Warning := No_segment_source | Multiple_segment_sources.

(** [verifyRepresentation_(frame)]: the verdict, the frame as the call
    leaves it, and what it logged. *)
Definition verifyRepresentation_ (frame : InheritanceFrame)
  : res (bool * InheritanceFrame * list Warning) :=
  let n := 0 in
  let n := n + (if truthy (segmentBase frame) then 1 else 0) in
  let n := n + (if truthy (segmentList frame) then 1 else 0) in
  let n := n + (if truthy (segmentTemplate frame) then 1 else 0) in
  if n =? 0 then
    if String.eqb (contentType frame) ContentType.TEXT
       || String.eqb (contentType frame) ContentType.APPLICATION
    then Ok (true, frame, [])
    else Ok (false, frame, [No_segment_source])
  else if negb (n =? 1) then
    if truthy (segmentBase frame) then
      (* "Using SegmentBase by default." *)
      Ok (true,
          {| segmentBase := segmentBase frame;
             segmentList := None;
             segmentTemplate := None;
             contentType := contentType frame |},
          [Multiple_segment_sources])
    else
      _ ← assert (truthy (segmentList frame)) "There should be a SegmentList";
      (* "Using SegmentList by default." *)
      Ok (true,
          {| segmentBase := segmentBase frame;
             segmentList := segmentList frame;
             segmentTemplate := None;
             contentType := contentType frame |},
          [Multiple_segment_sources])
  else Ok (true, frame, []).

(** What [parseRepresentation_] does with a frame that passed the gate:
    build the stream info from the retained source, parse the
    ContentProtection elements, assemble the stream ([null] for some text
    and image streams, errors rethrown). *)
Variable build_stream : InheritanceFrame -> res (option Stream).

(** [parseRepresentation_], from the frame of the Representation on. *)
Definition parseRepresentation_ (frame : InheritanceFrame)
  : res (option Stream) :=
  '(usable, frame, _) ← verifyRepresentation_ frame;
  if (usable : bool) then build_stream frame
  else (* 'Skipping representation' *) Ok None.

(** [representations.map(parseRepresentation_).filter((s) => !!s)] of
    [parseAdaptationSet_]. *)
Fixpoint parse_representations (frames : list InheritanceFrame)
  : res (list Stream) :=
  match frames with
  | [] => Ok []
  | f :: rest =>
      s ← parseRepresentation_ f;
      streams ← parse_representations rest;
      Ok (match s with Some x => x :: streams | None => streams end)
  end.

Definition sources (frame : InheritanceFrame) : Z :=
  (if truthy (segmentBase frame) then 1 else 0)
  + (if truthy (segmentList frame) then 1 else 0)
  + (if truthy (segmentTemplate frame) then 1 else 0).

Definition is_text (frame : InheritanceFrame) : bool :=
  String.eqb (contentType frame) ContentType.TEXT
  || String.eqb (contentType frame) ContentType.APPLICATION.

(** C6 (amended). A Representation that is not text or application and
    carries none of SegmentBase, SegmentList and SegmentTemplate is
    rejected: the gate answers false, [parseRepresentation_] returns null
    and the Representation adds nothing to the streams of its
    AdaptationSet.  One that carries two or more of them passes the gate
    with a warning and exactly one source kept, SegmentBase if present and
    SegmentList otherwise, and it is parsed like any other. *)
Theorem segment_source_gate (frame : InheritanceFrame) :
  (sources frame = 0 -> is_text frame = false ->
     verifyRepresentation_ frame = Ok (false, frame, [No_segment_source]) /\
     parseRepresentation_ frame = Ok None /\
     forall rest,
       parse_representations (frame :: rest) = parse_representations rest) /\
  (2 <= sources frame ->
     exists kept,
       verifyRepresentation_ frame = Ok (true, kept, [Multiple_segment_sources]) /\
       sources kept = 1 /\
       segmentBase kept = segmentBase frame /\
       (segmentBase frame = None -> segmentList kept = segmentList frame) /\
       contentType kept = contentType frame /\
       parseRepresentation_ frame = build_stream kept).
Proof.
  unfold parseRepresentation_, verifyRepresentation_, sources, is_text, assert.
  destruct frame as [[b|] [l|] [t|] ct];
    cbn [segmentBase segmentList segmentTemplate contentType truthy];
    (split; [intros H0 Htext | intros H2]); try lia.
  all: try (eexists; cbn; repeat split; try reflexivity; intros; congruence).
  rewrite Htext. cbn. repeat split.
  intros rest. cbn [parse_representations].
  unfold parseRepresentation_, verifyRepresentation_.
  cbn [segmentBase segmentList segmentTemplate contentType truthy].
  rewrite Htext. cbn.
  destruct (parse_representations rest); reflexivity.
Qed.

End Gate.

Arguments InheritanceFrame : clear implicits.

(** A video Representation with both a SegmentBase and a SegmentList. *)
Definition two_sources : InheritanceFrame string :=
  {| segmentBase := Some "SegmentBase"%string;
     segmentList := Some "SegmentList"%string;
     segmentTemplate := None;
     contentType := ContentType.VIDEO |}.

Lemma segment_source_gate_witness :
  exists kept,
    verifyRepresentation_ two_sources
    = Ok (true, kept, [Multiple_segment_sources]) /\
    segmentList kept = None /\
    parseRepresentation_ (fun f => Ok (Some f)) two_sources = Ok (Some kept).
Proof.
  destruct (proj2 (segment_source_gate (Stream := InheritanceFrame string)
                     (fun f => Ok (Some f)) two_sources))
    as (kept & Hv & _ & _ & _ & _ & Hp); [vm_compute; discriminate|].
  exists kept. split; [exact Hv|]. split; [|exact Hp].
  vm_compute in Hv. injection Hv as <-. reflexivity.
Defined.

(** C6 as stated fails: with two sources the Representation is not
    rejected, and it contributes the stream built from the SegmentBase. *)
Lemma two_sources_not_rejected :
  sources two_sources = 2 /\
  (exists kept, verifyRepresentation_ two_sources = Ok (true, kept, [Multiple_segment_sources])) /\
  parse_representations (fun f => Ok (Some f)) [two_sources]
  = Ok [ {| segmentBase := Some "SegmentBase"%string;
            segmentList := None;
            segmentTemplate := None;
            contentType := ContentType.VIDEO |} ].
Proof. split; [reflexivity|]. split; [eexists|]; reflexivity. Qed.

End DashParser.


(** ** [content_protection]: DRM descriptors of an AdaptationSet *)

Module ContentProtection.
Import DataViewReader.

(** [extern.InitDataOverride] *)
Record InitDataOverride := {
  initDataType : string;
  initData : list byte;
  keyId : option string;
  rawPssh : option string;
}.

(** [extern.DrmInfo], as [manifest_parser_utils.createDrmInfo] fills it. *)
Record DrmInfo := {
  keySystem : string;
  licenseServerUri : string;
  distinctiveIdentifierRequired : bool;
  persistentStateRequired : bool;
  audioRobustness : string;
  videoRobustness : string;
  serverCertificateUri : string;
  sessionType : string;
  drm_initData : list InitDataOverride;
  keyIds : list string;
}.

Definition createDrmInfo (keySystem : string)
    (initData : option (list InitDataOverride)) : DrmInfo :=
  {| keySystem := keySystem;
     licenseServerUri := "";
     distinctiveIdentifierRequired := false;
     persistentStateRequired := false;
     audioRobustness := "";
     videoRobustness := "";
     serverCertificateUri := "";
     sessionType := "";
     drm_initData := default [] initData;
     keyIds := [] |}.

Definition set_licenseServerUri (info : DrmInfo) (uri : string) : DrmInfo :=
  {| keySystem := keySystem info;
     licenseServerUri := uri;
     distinctiveIdentifierRequired := distinctiveIdentifierRequired info;
     persistentStateRequired := persistentStateRequired info;
     audioRobustness := audioRobustness info;
     videoRobustness := videoRobustness info;
     serverCertificateUri := serverCertificateUri info;
     sessionType := sessionType info;
     drm_initData := drm_initData info;
     keyIds := keyIds info |}.

(** [content_protection.Context] *)
Record Context := {
  defaultKeyId : option string;
  defaultInit : option (list InitDataOverride);
  drmInfos : list DrmInfo;
  firstRepresentation : bool;
}.

Definition MP4Protection_ : string := "urn:mpeg:dash:mp4protection:2011".
Definition ClearKeySchemeUri_ : string :=
  "urn:uuid:e2719d58-a985-b3c9-781a-b030af78d30e".

(** [keySystemByURI] of [constants/sp_conf.js], the table that
    [superparser.js] passes as [keySystemsByURI], in the order of its
    keys. *)
Definition keySystemByURI : list (string * string) :=
  [ ("urn:uuid:1077efec-c0b2-4d02-ace3-3c1e52e2fb4b", "org.w3.clearkey");
    ("urn:uuid:e2719d58-a985-b3c9-781a-b030af78d30e", "org.w3.clearkey");
    ("urn:uuid:edef8ba9-79d6-4ace-a3c8-27dcd51d21ed", "com.widevine.alpha");
    ("urn:uuid:9a04f079-9840-4286-ab92-e65be0885f95", "com.microsoft.playready");
    ("urn:uuid:79f0049a-4098-8642-ab92-e65be0885f95", "com.microsoft.playready");
    ("urn:uuid:f239e769-efa3-4850-9c16-a903c6932efb", "com.adobe.primetime") ]%string.

(** [table[key]] on an object used as a map. *)
Fixpoint lookup_key (table : list (string * string)) (key : string)
  : option string :=
  match table with
  | [] => None
  | (k, v) :: rest => if String.eqb k key then Some v else lookup_key rest key
  end.

(** [String.prototype.toLowerCase] on 8-bit code units. *)
Definition lower_char (c : ascii) : ascii :=
  let n := N_of_ascii c in
  if ((65 <=? n) && (n <=? 90))%N then ascii_of_N (n + 32) else c.

Fixpoint toLowerCase (s : string) : string :=
  match s with
  | EmptyString => EmptyString
  | String c s' => String (lower_char c) (toLowerCase s')
  end.

(** [keyId.replace(/-/g, '')] *)
Fixpoint remove_hyphens (s : string) : string :=
  match s with
  | EmptyString => EmptyString
  | String c s' =>
      if Ascii.eqb c "-" then remove_hyphens s'
      else String c (remove_hyphens s')
  end.

Fixpoint includes_space (s : string) : bool :=
  match s with
  | EmptyString => false
  | String c s' => Ascii.eqb c " " || includes_space s'
  end.

Definition nonempty (s : option string) : bool :=
  match s with
  | Some (String _ _) => true
  | _ => false
  end.

Section Parsing.

(** The XML node of a ContentProtection element. *)
Context {Node : Type}.

(** A ContentProtection element as [xml_utils] exposes it.
    Modelled from the spec: [xml_utils.js] is not among the sources; the
    fields are the [schemeIdUri] attribute, the [cenc:default_KID]
    attribute, the text of the [cenc:pssh] children, the text of the
    PlayReady [pro] child, the [licenseUrl] attribute of the
    [urn:microsoft] [laurl] child and, of the ClearKey [Laurl] child, the
    [Lic_type] attribute and the text; a child that is absent is [None]. *)
Record RawElement := {
  raw_node : Node;
  schemeIdUri : option string;
  default_KID : option string;
  pssh_contents : list string;
  pro_content : option string;
  laurl_licenseUrl : option (option string);
  clearkey_Laurl : option (option string * string);
}.

(** [content_protection.Element]: a parsed element. *)
Record Element := {
  node : RawElement;
  schemeUri : string;
  el_keyId : option string;
  init : option (list InitDataOverride);
}.

(** [uint8array_utils.fromBase64] ([Buffer.from(..., 'base64')] never
    throws) and the map [content_protection.licenseUrlParsers_], which is
    filled in after the class: its parsers get the parsed element and may
    throw ([LicenseUrl.licenseUrlParsers_] below). *)
Variable fromBase64 : string -> list byte.
Variable licenseUrlParsers_ : string -> option (Element -> res string).

(** [parseElement_]; [Ok None] is the [null] of an element without
    [schemeIdUri]. *)
Definition parseElement_ (elem : RawElement) : res (option Element) :=
  let schemeUri := schemeIdUri elem in
  let keyId := default_KID elem in
  let psshs := pssh_contents elem in
  if negb (nonempty schemeUri) then Ok None
  else
    let schemeUri := toLowerCase (default "" schemeUri) in
    keyId ←
      (if nonempty keyId then
         let k := toLowerCase (remove_hyphens (default "" keyId)) in
         if includes_space k
         then Throw (Error CRITICAL MANIFEST DASH_MULTIPLE_KEY_IDS_NOT_SUPPORTED)
         else Ok (Some k)
       else Ok keyId);
    let init :=
      map (fun pssh => {| initDataType := "cenc";
                          initData := fromBase64 pssh;
                          keyId := None;
                          rawPssh := Some pssh |}) psshs in
    Ok (Some {| node := elem;
                schemeUri := schemeUri;
                el_keyId := keyId;
                init := match init with [] => None | _ => Some init end |}).

Fixpoint parseElements_ (elems : list RawElement) : res (list Element) :=
  match elems with
  | [] => Ok []
  | elem :: rest =>
      parsed ← parseElement_ elem;
      out ← parseElements_ rest;
      Ok (match parsed with Some p => p :: out | None => out end)
  end.

(** [new Set(...)] of the key IDs, [null] deleted: the distinct strings in
    insertion order. *)
Fixpoint key_id_set (ids : list (option string)) (seen : list string)
  : list string :=
  match ids with
  | [] => seen
  | None :: rest => key_id_set rest seen
  | Some k :: rest =>
      if existsb (String.eqb k) seen then key_id_set rest seen
      else key_id_set rest (seen ++ [k])
  end.

Definition playready_system_id : list byte :=
  [ Byte.x9a; Byte.x04; Byte.xf0; Byte.x79; Byte.x98; Byte.x40; Byte.x42;
    Byte.x86; Byte.xab; Byte.x92; Byte.xe6; Byte.x5b; Byte.xe0; Byte.x88;
    Byte.x5f; Byte.x95 ].

Definition clearkey_system_id : list byte :=
  [ Byte.x10; Byte.x77; Byte.xef; Byte.xec; Byte.xc0; Byte.xb2; Byte.x4d;
    Byte.x02; Byte.xac; Byte.xe3; Byte.x3c; Byte.x1e; Byte.x52; Byte.xe2;
    Byte.xfb; Byte.x4b ].

Definition getInitDataFromPro_ (element : Element)
  : res (option (list InitDataOverride)) :=
  match pro_content (node element) with
  | None => Ok None
  | Some text =>
      let data := fromBase64 text in
      psshObj ← Pssh.createPssh data playready_system_id [] 0;
      Ok (Some [ {| initData := psshObj;
                    initDataType := "cenc";
                    keyId := el_keyId element;
                    rawPssh := None |} ])
  end.

Definition getInitDataClearKey_ (element : Element) (keyIds : list string)
  : res (option (list InitDataOverride)) :=
  match keyIds with
  | [] => Ok None
  | _ =>
      psshObj ← Pssh.createPssh [] clearkey_system_id keyIds 1;
      Ok (Some [ {| initData := psshObj;
                    initDataType := "cenc";
                    keyId := el_keyId element;
                    rawPssh := None |} ])
  end.

Definition first_some {A} (a b : option A) : option A :=
  match a with Some _ => a | None => b end.

(** [convertElements_]; the boolean says whether some DrmInfo took
    [defaultInit] itself as its init data. *)
Fixpoint convertElements_ (defaultInit : option (list InitDataOverride))
    (elements : list Element) (keySystemsByURI : list (string * string))
    (keyIds : list string) : res (list DrmInfo * bool) :=
  match elements with
  | [] => Ok ([], false)
  | element :: rest =>
      match lookup_key keySystemsByURI (schemeUri element) with
      | Some (String _ _ as keySystem) =>
          proInitData ← getInitDataFromPro_ element;
          clearKeyInitData ←
            (if String.eqb (schemeUri element) ClearKeySchemeUri_
             then getInitDataClearKey_ element keyIds else Ok None);
          let initData :=
            first_some (init element)
              (first_some defaultInit
                 (first_some proInitData clearKeyInitData)) in
          let info := createDrmInfo keySystem initData in
          (* if (licenseParser) info.licenseServerUri = licenseParser(element) *)
          info ←
            match licenseUrlParsers_ keySystem with
            | Some licenseParser =>
                uri ← licenseParser element;
                Ok (set_licenseServerUri info uri)
            | None => Ok info
            end;
          '(out, shared) ← convertElements_ defaultInit rest keySystemsByURI
                             keyIds;
          Ok (info :: out,
              shared || (negb (bool_decide (is_Some (init element)))
                         && bool_decide (is_Some defaultInit)))
      | _ => convertElements_ defaultInit rest keySystemsByURI keyIds
      end
  end.

(** [initData.keyId = defaultKeyId] for every init data of every info. *)
Definition with_key_id (k : string) (d : InitDataOverride) : InitDataOverride :=
  {| initDataType := initDataType d;
     initData := initData d;
     keyId := Some k;
     rawPssh := rawPssh d |}.

Definition apply_key_id (k : string) (info : DrmInfo) : DrmInfo :=
  {| keySystem := keySystem info;
     licenseServerUri := licenseServerUri info;
     distinctiveIdentifierRequired := distinctiveIdentifierRequired info;
     persistentStateRequired := persistentStateRequired info;
     audioRobustness := audioRobustness info;
     videoRobustness := videoRobustness info;
     serverCertificateUri := serverCertificateUri info;
     sessionType := sessionType info;
     drm_initData := map (with_key_id k) (drm_initData info);
     keyIds := keyIds info |}.

(** The loop over [Object.values(keySystemsByURI)] of the CENC-only case:
    its body names [ManifestParserUtils], which is not defined in the
    module. *)
Fixpoint all_key_systems (values : list string) : res (list DrmInfo) :=
  match values with
  | [] => Ok []
  | keySystem :: rest =>
      if negb (String.eqb keySystem "org.w3.clearkey")
      then Throw (ReferenceError "ManifestParserUtils is not defined")
      else all_key_systems rest
  end.

Definition parseFromAdaptationSet (elems : list RawElement)
    (ignoreDrmInfo : bool) (keySystemsByURI : list (string * string))
  : res Context :=
  parsed ← parseElements_ elems;
  let keyIds := key_id_set (map el_keyId parsed) [] in
  if (1 <? length keyIds)%nat then
    Throw (Error CRITICAL MANIFEST DASH_CONFLICTING_KEY_IDS)
  else
    let defaultInit :=
      if ignoreDrmInfo then None
      else fold_left
             (fun acc elem =>
                if String.eqb (schemeUri elem) MP4Protection_
                then first_some (init elem) acc else acc) parsed None in
    let parsedNonCenc :=
      if ignoreDrmInfo then []
      else List.filter
             (fun elem => negb (String.eqb (schemeUri elem) MP4Protection_))
             parsed in
    '(drmInfos, shared) ←
      (match parsedNonCenc with
       | [] => Ok ([], false)
       | _ =>
           '(infos, shared) ← convertElements_ defaultInit parsedNonCenc
                                keySystemsByURI keyIds;
           match infos with
           | [] => Ok ([createDrmInfo "" defaultInit],
                       bool_decide (is_Some defaultInit))
           | _ => Ok (infos, shared)
           end
       end);
    '(drmInfos, shared) ←
      (if negb (Nat.eqb (length parsed) 0)
          && (ignoreDrmInfo || Nat.eqb (length parsedNonCenc) 0)
       then infos ← all_key_systems (map snd keySystemsByURI);
            Ok (infos, false)
       else Ok (drmInfos, shared));
    let defaultKeyId :=
      match head keyIds with
      | Some (String _ _ as k) => Some k
      | _ => None
      end in
    let drmInfos :=
      match defaultKeyId with
      | Some k => map (apply_key_id k) drmInfos
      | None => drmInfos
      end in
    let defaultInit :=
      match defaultKeyId with
      | Some k => if (shared : bool) then map (with_key_id k) <$> defaultInit
                  else defaultInit
      | None => defaultInit
      end in
    Ok {| defaultKeyId := defaultKeyId;
          defaultInit := defaultInit;
          drmInfos := drmInfos;
          firstRepresentation := true |}.

(** The key systems a representation shares with the context. *)
Definition common_key_systems (context_infos rep_infos : list DrmInfo)
  : list DrmInfo :=
  List.filter
    (fun asInfo : DrmInfo =>
       existsb (fun repInfo : DrmInfo =>
                  String.eqb (keySystem repInfo) (keySystem asInfo))
         rep_infos) context_infos.

(** [parseFromRepresentation]: the parsed key ID and the context as the
    call leaves it. *)
Definition parseFromRepresentation (elems : list RawElement)
    (context : Context) (ignoreDrmInfo : bool)
    (keySystemsByURI : list (string * string))
  : res (option string * Context) :=
  repContext ← parseFromAdaptationSet elems ignoreDrmInfo keySystemsByURI;
  context ←
    (if firstRepresentation context then
       let asUnknown :=
         match drmInfos context with
         | [info] => String.eqb (keySystem info) ""
         | _ => false
         end in
       let asUnencrypted := Nat.eqb (length (drmInfos context)) 0 in
       let repUnencrypted := Nat.eqb (length (drmInfos repContext)) 0 in
       Ok {| defaultKeyId := defaultKeyId context;
             defaultInit := defaultInit context;
             drmInfos :=
               if asUnencrypted || (asUnknown && negb repUnencrypted)
               then drmInfos repContext else drmInfos context;
             firstRepresentation := false |}
     else if (0 <? length (drmInfos repContext))%nat then
       let common :=
         common_key_systems (drmInfos context) (drmInfos repContext) in
       if Nat.eqb (length common) 0 then
         Throw (Error CRITICAL MANIFEST DASH_NO_COMMON_KEY_SYSTEM)
       else Ok {| defaultKeyId := defaultKeyId context;
                  defaultInit := defaultInit context;
                  drmInfos := common;
                  firstRepresentation := firstRepresentation context |}
     else Ok context);
  Ok (first_some (defaultKeyId repContext) (defaultKeyId context), context).

End Parsing.

Arguments RawElement : clear implicits.
Arguments Element : clear implicits.

(** *** What a Representation does to the context *)

Section Representation.
Context {Node : Type}.
Variable fromBase64 : string -> list byte.
Variable licenseUrlParsers_ : string -> option (Element Node -> res string).

Definition key_systems (context : Context) : list string :=
  map keySystem (drmInfos context).

Definition with_drmInfos (context : Context) (infos : list DrmInfo)
  : Context :=
  {| defaultKeyId := defaultKeyId context;
     defaultInit := defaultInit context;
     drmInfos := infos;
     firstRepresentation := firstRepresentation context |}.

Lemma with_drmInfos_same (context : Context) :
  with_drmInfos context (drmInfos context) = context.
Proof. destruct context; reflexivity. Qed.

(** A Representation that is not the first: without DRM info it leaves
    the context as it is, with DRM info it keeps the entries of the
    context whose key system it lists, and fails when none is left. *)
Lemma later_representation (elems : list (RawElement Node))
    (context repContext : Context) (ignoreDrmInfo : bool)
    (tbl : list (string * string)) :
  firstRepresentation context = false ->
  parseFromAdaptationSet fromBase64 licenseUrlParsers_ elems ignoreDrmInfo
    tbl = Ok repContext ->
  let common :=
    common_key_systems (drmInfos context) (drmInfos repContext) in
  parseFromRepresentation fromBase64 licenseUrlParsers_ elems context
    ignoreDrmInfo tbl
  = if Nat.eqb (length (drmInfos repContext)) 0
    then Ok (first_some (defaultKeyId repContext) (defaultKeyId context),
             context)
    else if Nat.eqb (length common) 0
    then Throw (Error CRITICAL MANIFEST DASH_NO_COMMON_KEY_SYSTEM)
    else Ok (first_some (defaultKeyId repContext) (defaultKeyId context),
             with_drmInfos context common).
Proof.
  intros Hfirst Hrep common. unfold parseFromRepresentation.
  rewrite Hrep. cbn [mbind res_bind Js.bind]. rewrite Hfirst.
  destruct (drmInfos repContext) as [|i others] eqn:E; [reflexivity|].
  cbn [length Nat.ltb Nat.leb Nat.eqb]. fold common.
  unfold with_drmInfos. rewrite Hfirst.
  destruct (Nat.eqb (length common) 0); reflexivity.
Qed.

End Representation.

End ContentProtection.


(** ** [segment_saver]: the rolling HLS window *)

Module SegmentSaver.

Local Open Scope string_scope.

(** *** Strings *)

Definition is_digit (c : ascii) : bool :=
  let n := N_of_ascii c in ((48 <=? n) && (n <=? 57))%N.

(** The longest run of digits at the start of [s], and what follows. *)
Fixpoint span_digits (s : string) : string * string :=
  match s with
  | String c s' =>
      if is_digit c
      then let '(ds, rest) := span_digits s' in (String c ds, rest)
      else ("", s)
  | EmptyString => ("", "")
  end.

(** Canonical form of a code unit under the [i] flag. *)
Definition fold_case (c : ascii) : ascii :=
  let n := N_of_ascii c in
  if ((97 <=? n) && (n <=? 122))%N then ascii_of_N (n - 32) else c.

(** [s] without the literal [p] at its start, compared without case. *)
Fixpoint strip_prefix_ci (p s : string) : option string :=
  match p with
  | EmptyString => Some s
  | String a p' =>
      match s with
      | String b s' =>
          if Ascii.eqb (fold_case a) (fold_case b)
          then strip_prefix_ci p' s' else None
      | EmptyString => None
      end
  end.

Definition MEDIA_SEQUENCE : string := "#EXT-X-MEDIA-SEQUENCE:".

(** A match of [/#EXT-X-MEDIA-SEQUENCE:\d+/i] at the start of [s]: the
    digits and the text after them. *)
Definition match_here (s : string) : option (string * string) :=
  match strip_prefix_ci MEDIA_SEQUENCE s with
  | Some r =>
      match span_digits r with
      | (EmptyString, _) => None
      | (ds, rest) => Some (ds, rest)
      end
  | None => None
  end.

(** [RegExp(/#EXT-X-MEDIA-SEQUENCE:\d+/i).exec(s)]: the text before the
    first match, the digits it matched and the text after it. *)
Fixpoint exec_media_sequence (s : string) : option (string * string * string) :=
  match match_here s with
  | Some (ds, rest) => Some ("", ds, rest)
  | None =>
      match s with
      | EmptyString => None
      | String c s' =>
          match exec_media_sequence s' with
          | Some (before, ds, rest) => Some (String c before, ds, rest)
          | None => None
          end
      end
  end.

(** [String.prototype.includes] *)
Fixpoint includes (s sub : string) : bool :=
  String.prefix sub s ||
  match s with
  | EmptyString => false
  | String _ s' => includes s' sub
  end.

(** [s.split('\n').pop()]: the text after the last line feed. *)
Fixpoint last_line (s : string) : string :=
  match s with
  | EmptyString => ""
  | String c s' =>
      if includes s' (String "010" "") then last_line s'
      else if Ascii.eqb c "010" then s' else s
  end.

(** A non-negative integer in a template literal, and [parseInt] of a run
    of digits. *)
Definition number_to_string (n : N) : string :=
  NilEmpty.string_of_uint (N.to_uint n).

Definition parseInt_digits (ds : string) : N :=
  match NilEmpty.uint_of_string ds with
  | Some u => N.of_uint u
  | None => 0
  end.

(** [parseInt(x)] printed in a template literal: ["NaN"] or an integer. *)
Definition int_to_string (v : option Z) : string :=
  match v with
  | None => "NaN"
  | Some z => NilEmpty.string_of_int (Z.to_int z)
  end.

(** *** Playlists *)

(** The first element of a media playlist template, as [superparser.js]
    pushes it, [targetDuration] being [parseInt(dashParser.updatePeriod_)]. *)
Definition initial_header (targetDuration : option Z) : string :=
  "#EXTM3U" ++ String "010" "#EXT-X-VERSION:7" ++
  String "010" "#EXT-X-PLAYLIST-TYPE:EVENT" ++
  String "010" "#EXT-X-TARGETDURATION:" ++ int_to_string targetDuration ++
  String "010" "#EXT-X-MEDIA-SEQUENCE:0" ++ String "010" "".

(** [Array.prototype.indexOf], -1 when absent. *)
Fixpoint indexOf (l : list string) (x : string) : Z :=
  match l with
  | [] => (-1)%Z
  | y :: rest =>
      if String.eqb y x then 0%Z
      else let i := indexOf rest x in
           if (i <? 0)%Z then (-1)%Z else (i + 1)%Z
  end.

(** [Array.prototype.splice(start, 1)] *)
Definition splice1 (l : list string) (start : Z) : list string :=
  let len := Z.of_nat (length l) in
  let k := (if start <? 0 then Z.max (len + start) 0 else Z.min start len)%Z in
  (take (Z.to_nat k) l ++ drop (Z.to_nat k + 1) l)%list.

(** The rewriting of the header on an eviction. *)
Definition bump_media_sequence (first : option string) : res string :=
  let subject := default "undefined" first in
  match exec_media_sequence subject with
  | None => Throw (TypeError "Cannot read properties of null (reading '0')")
  | Some (before, digits, rest) =>
      let oldSequenceNumber := parseInt_digits digits in
      let newSequenceNumber := (oldSequenceNumber + 1)%N in
      let mediaSequenceStr :=
        MEDIA_SEQUENCE ++ number_to_string newSequenceNumber in
      Ok (before ++ mediaSequenceStr ++ rest)
  end.

(** *** One segment of one track *)

Inductive Track := Audio | Video.

Definition pathSuffix (track : Track) : string :=
  match track with Audio => "audio/" | Video => "video/" end.

(** A slot of a URL list after its naming: [segmentName], the stem
    [path.basename(segmentName, path.extname(segmentName))] and the
    duration as the template literal prints it. *)
Record Segment := {
  segmentName : string;
  nameOnly : string;
  segmentDuration : string;
}.

(** What the collaborators do with the slot: the download, [mergeFiles]
    and the decrypter. *)
Inductive External :=
  | Download_fails
  | Merge_fails
  | Decrypt_fails
  | Decrypted.

(** The two playlist templates, shared by all cycles, and the files under
    the result path. *)
Record State := {
  audioMediaPLTemplate : list string;
  videoMediaPLTemplate : list string;
  files : gset string;
}.

Definition template (track : Track) (st : State) : list string :=
  match track with
  | Audio => audioMediaPLTemplate st
  | Video => videoMediaPLTemplate st
  end.

Definition set_template (track : Track) (pl : list string) (st : State)
  : State :=
  match track with
  | Audio => {| audioMediaPLTemplate := pl;
                videoMediaPLTemplate := videoMediaPLTemplate st;
                files := files st |}
  | Video => {| audioMediaPLTemplate := audioMediaPLTemplate st;
                videoMediaPLTemplate := pl;
                files := files st |}
  end.

Definition set_files (fs : gset string) (st : State) : State :=
  {| audioMediaPLTemplate := audioMediaPLTemplate st;
     videoMediaPLTemplate := videoMediaPLTemplate st;
     files := fs |}.

Definition extinf (duration uri : string) : string :=
  "#EXTINF:" ++ duration ++ "," ++ String "010" uri.

Section Saver.

Variables (maxSegmentNum_ : Z) (resultPath_ : string)
  (audioPLName videoPLName : string).

Definition initFile : string := "init.mp4".

Definition manipulation_failed : exn :=
  Error CRITICAL SEGMENT SEGMENT_MANIPULATION_FAILED.

(** The body of the inner loop of [download_segments] for one slot of one
    track.  The boolean is [bufferFull]: an entry was evicted. *)
Definition process_segment (track : Track) (seg : Segment) (ext : External)
    (st : State) : res (State * bool) :=
  let playlistName :=
    match track with Audio => audioPLName | Video => videoPLName end in
  let mediaPlaylistPath := resultPath_ ++ pathSuffix track ++ playlistName in
  match ext with
  | Download_fails => Throw (SystemError "download failed")
  | _ =>
    if String.eqb (segmentName seg) initFile then Ok (st, false)
    else
      match ext with
      | Merge_fails | Download_fails => Throw manipulation_failed
      | Decrypt_fails => Throw manipulation_failed
      | Decrypted =>
        let resultFileRelativePath :=
          pathSuffix track ++ nameOnly seg ++ ".mp4" in
        (* the decrypter has written its output *)
        let st := set_files ({[resultPath_ ++ resultFileRelativePath]}
                              ∪ files st) st in
        let newSegmentUri := nameOnly seg ++ ".mp4" in
        let segmentTemplate := extinf (segmentDuration seg) newSegmentUri in
        let mediaPlaylistTemplate := template track st in
        let segmentItemList :=
          List.filter (fun item => includes item "#EXTINF:")
            mediaPlaylistTemplate in
        '(st, bufferFull) ←
          (if (Z.of_nat (length segmentItemList) =? maxSegmentNum_)%Z then
             let oldItem := head segmentItemList in
             let mediaPlaylistTemplate :=
               splice1 mediaPlaylistTemplate
                 (match oldItem with
                  | Some x => indexOf mediaPlaylistTemplate x
                  | None => (-1)%Z
                  end) in
             let st := set_template track mediaPlaylistTemplate st in
             match oldItem with
             | None =>
                 Throw (TypeError
                   "Cannot read properties of undefined (reading 'split')")
             | Some oldItem =>
                 let oldFilename :=
                   resultPath_ ++ pathSuffix track ++ last_line oldItem in
                 if bool_decide (oldFilename ∈ files st) then
                   let st := set_files (files st ∖ {[oldFilename]}) st in
                   newItem ← bump_media_sequence (head mediaPlaylistTemplate);
                   let mediaPlaylistTemplate :=
                     match mediaPlaylistTemplate with
                     | [] => [newItem]
                     | _ :: rest => newItem :: rest
                     end in
                   Ok (set_template track mediaPlaylistTemplate st, true)
                 else Throw (SystemError "ENOENT: no such file or directory")
             end
           else Ok (st, false));
        let mediaPlaylistTemplate :=
          (template track st ++ [segmentTemplate])%list in
        let st := set_template track mediaPlaylistTemplate st in
        (* fs.writeFileSync(mediaPlaylistPath, ...join('\n')) *)
        let st := set_files ({[mediaPlaylistPath]} ∪ files st) st in
        Ok (st, (bufferFull : bool))
      end
  end.

(** One slot of each track, audio first; [None] for the video slot is a
    video list shorter than the audio list. *)
Definition Slot : Type := (Segment * External) * option (Segment * External).

(** The outer loop of [download_segments]. *)
Fixpoint download_segments (slots : list Slot) (st : State) : res State :=
  match slots with
  | [] => Ok st
  | ((a, ea), v) :: rest =>
      r ← process_segment Audio a ea st;
      match v with
      | None =>
          Throw (TypeError
            "Cannot read properties of undefined (reading 'split')")
      | Some (v, ev) =>
          r ← process_segment Video v ev r.1;
          download_segments rest r.1
      end
  end.

(** The main loop: one [download_segments] per cycle, on the same two
    templates. *)
Fixpoint cycles (cs : list (list Slot)) (st : State) : res State :=
  match cs with
  | [] => Ok st
  | c :: rest => st ← download_segments c st; cycles rest st
  end.

(** A run as a sequence of slots of either track, with the number of
    evictions ([bufferFull] set) counted per track. *)
Definition Step : Type := Track * Segment * External.

Fixpoint run (steps : list Step) (st : State) (evicted : N * N)
  : res (State * (N * N)) :=
  match steps with
  | [] => Ok (st, evicted)
  | (track, seg, ext) :: rest =>
      r ← process_segment track seg ext st;
      let evicted :=
        match track, r.2 with
        | Audio, true => ((evicted.1 + 1)%N, evicted.2)
        | Video, true => (evicted.1, (evicted.2 + 1)%N)
        | _, false => evicted
        end in
      run rest r.1 evicted
  end.

End Saver.

(** The state when the first cycle starts: both templates hold a header
    with media sequence 0; the result directories were emptied. *)
Definition bootstrap (targetDuration : option Z) : State :=
  {| audioMediaPLTemplate := [initial_header targetDuration];
     videoMediaPLTemplate := [initial_header targetDuration];
     files := ∅ |}.

End SegmentSaver.


(** ** The window invariant *)

Module SaverFacts.
Import SegmentSaver.

Local Open Scope string_scope.

Definition LF : ascii := "010"%char.

(** No ['#'] in [s]. *)
Fixpoint no_hash (s : string) : bool :=
  match s with
  | EmptyString => true
  | String c s' => negb (Ascii.eqb c "#") && no_hash s'
  end.

Fixpoint all_digits (s : string) : bool :=
  match s with
  | EmptyString => true
  | String c s' => is_digit c && all_digits s'
  end.

(** No line feed in [s]. *)
Definition no_lf (s : string) : bool := negb (includes s (String LF "")).

(** The header with target duration [td] and media sequence [n]. *)
Definition header (td : option Z) (n : N) : string :=
  "#EXTM3U" ++ String LF "#EXT-X-VERSION:7" ++
  String LF "#EXT-X-PLAYLIST-TYPE:EVENT" ++
  String LF "#EXT-X-TARGETDURATION:" ++ int_to_string td ++
  String LF MEDIA_SEQUENCE ++ number_to_string n ++ String LF "".

Lemma initial_header_is td : initial_header td = header td 0.
Proof. reflexivity. Qed.

Lemma app_cons c (a b : string) : String c a ++ b = String c (a ++ b).
Proof. reflexivity. Qed.

Lemma app_assoc' (a b c : string) : (a ++ b) ++ c = a ++ (b ++ c).
Proof.
  induction a as [|x a IH]; [reflexivity|].
  rewrite !app_cons. f_equal. exact IH.
Qed.

Lemma all_digits_no_hash s : all_digits s = true -> no_hash s = true.
Proof.
  induction s as [|c s IH]; [reflexivity|]. simpl.
  intros H. apply andb_prop in H as [Hc Hs]. rewrite IH by exact Hs.
  destruct c as [[] [] [] [] [] [] [] []]; try discriminate Hc; reflexivity.
Qed.

Lemma uint_digits (u : Decimal.uint) :
  all_digits (NilEmpty.string_of_uint u) = true.
Proof. induction u; simpl; auto. Qed.

Lemma number_digits n : all_digits (number_to_string n) = true.
Proof. apply uint_digits. Qed.

Lemma number_nonempty n : number_to_string n <> "".
Proof.
  unfold number_to_string. intros H.
  pose proof (NilEmpty.usu (N.to_uint n)) as Hu. rewrite H in Hu.
  simpl in Hu. injection Hu as Hu.
  pose proof (DecimalN.Unsigned.of_to n) as Hn. rewrite <- Hu in Hn.
  simpl in Hn. subst n. discriminate Hu.
Qed.

Lemma parse_number n : parseInt_digits (number_to_string n) = n.
Proof.
  unfold parseInt_digits, number_to_string.
  rewrite NilEmpty.usu. apply DecimalN.Unsigned.of_to.
Qed.

Lemma int_no_hash td : no_hash (int_to_string td) = true.
Proof.
  destruct td as [z|]; [|reflexivity]. unfold int_to_string.
  destruct (Z.to_int z) as [u|u]; simpl;
    apply all_digits_no_hash, uint_digits.
Qed.

Lemma match_here_no_hash c s :
  Ascii.eqb c "#" = false -> match_here (String c s) = None.
Proof.
  intros H. unfold match_here, MEDIA_SEQUENCE. cbn [strip_prefix_ci].
  destruct c as [[] [] [] [] [] [] [] []]; try discriminate H; reflexivity.
Qed.

Lemma exec_skip (t y : string) :
  no_hash t = true ->
  exec_media_sequence (t ++ y)
  = match exec_media_sequence y with
    | Some (before, ds, rest) => Some (t ++ before, ds, rest)
    | None => None
    end.
Proof.
  induction t as [|c t IH]; intros H.
  - change ("" ++ y) with y.
    destruct (exec_media_sequence y) as [[[b d] r]|]; reflexivity.
  - simpl in H. apply andb_prop in H as [Hc Ht].
    apply negb_true_iff in Hc.
    rewrite app_cons. cbn [exec_media_sequence].
    rewrite match_here_no_hash by exact Hc. rewrite IH by exact Ht.
    destruct (exec_media_sequence y) as [[[b d] r]|]; reflexivity.
Qed.

Lemma span_digits_app (ds : string) c r :
  all_digits ds = true -> is_digit c = false ->
  span_digits (ds ++ String c r) = (ds, String c r).
Proof.
  intros Hd Hc. induction ds as [|x ds IH].
  - change ("" ++ String c r) with (String c r). simpl. rewrite Hc.
    reflexivity.
  - simpl in Hd. apply andb_prop in Hd as [Hx Hd].
    rewrite app_cons. cbn [span_digits]. rewrite Hx, IH by exact Hd.
    reflexivity.
Qed.

(** The text of a header before its media-sequence tag. *)
Definition before_sequence (td : option Z) : string :=
  "#EXTM3U" ++ String LF "#EXT-X-VERSION:7" ++
  String LF "#EXT-X-PLAYLIST-TYPE:EVENT" ++
  String LF "#EXT-X-TARGETDURATION:" ++ int_to_string td ++ String LF "".

Lemma header_split td n :
  header td n
  = before_sequence td ++ MEDIA_SEQUENCE ++ number_to_string n ++ String LF "".
Proof.
  unfold header, before_sequence.
  rewrite !app_assoc'. reflexivity.
Qed.

Lemma exec_fixed_prefix (x : string) :
  exec_media_sequence
    ("#EXTM3U" ++ String LF "#EXT-X-VERSION:7" ++
     String LF "#EXT-X-PLAYLIST-TYPE:EVENT" ++
     String LF "#EXT-X-TARGETDURATION:" ++ x)
  = match exec_media_sequence x with
    | Some (before, ds, rest) =>
        Some ("#EXTM3U" ++ String LF "#EXT-X-VERSION:7" ++
              String LF "#EXT-X-PLAYLIST-TYPE:EVENT" ++
              String LF "#EXT-X-TARGETDURATION:" ++ before, ds, rest)
    | None => None
    end.
Proof.
  vm_compute. destruct (_ x) as [[[b d] r]|]; reflexivity.
Qed.

Lemma exec_header td n :
  exec_media_sequence (header td n)
  = Some (before_sequence td, number_to_string n, String LF "").
Proof.
  assert (Htail : exec_media_sequence
                    (String LF MEDIA_SEQUENCE ++ number_to_string n
                     ++ String LF "")
                  = Some (String LF "", number_to_string n, String LF "")).
  { rewrite app_cons. cbn [exec_media_sequence].
    rewrite match_here_no_hash by reflexivity.
    assert (Hm : match_here (MEDIA_SEQUENCE ++ number_to_string n
                             ++ String LF "")
                 = Some (number_to_string n, String LF "")).
    { unfold match_here.
      change (strip_prefix_ci MEDIA_SEQUENCE
                (MEDIA_SEQUENCE ++ number_to_string n ++ String LF ""))
        with (Some (number_to_string n ++ String LF "")).
      cbv beta iota.
      rewrite span_digits_app by (auto using number_digits).
      pose proof (number_nonempty n).
      destruct (number_to_string n); [congruence | reflexivity]. }
    unfold MEDIA_SEQUENCE in *. rewrite !app_cons.
    cbn [exec_media_sequence]. rewrite !app_cons in Hm. rewrite Hm.
    reflexivity. }
  unfold header. rewrite exec_fixed_prefix.
  rewrite exec_skip by apply int_no_hash. rewrite Htail.
  unfold before_sequence. rewrite ?app_assoc'. reflexivity.
Qed.

Lemma bump_header td n :
  bump_media_sequence (Some (header td n)) = Ok (header td (n + 1)).
Proof.
  unfold bump_media_sequence. cbn [default from_option id].
  rewrite exec_header, parse_number, header_split, !app_assoc'.
  reflexivity.
Qed.

Lemma includes_skip (t y sub : string) c :
  no_hash t = true ->
  includes (t ++ y) (String "#" (String c sub))
  = includes y (String "#" (String c sub)).
Proof.
  induction t as [|x t IH]; intros H; [reflexivity|].
  simpl in H. apply andb_prop in H as [Hx Ht]. apply negb_true_iff in Hx.
  rewrite app_cons. cbn [includes String.prefix].
  destruct (ascii_dec "#" x) as [<-|_]; [discriminate Hx|].
  cbn [orb]. apply IH. exact Ht.
Qed.

Lemma header_not_entry td n : includes (header td n) "#EXTINF:" = false.
Proof.
  unfold header.
  assert (Hfix : forall x,
    includes ("#EXTM3U" ++ String LF "#EXT-X-VERSION:7" ++
              String LF "#EXT-X-PLAYLIST-TYPE:EVENT" ++
              String LF "#EXT-X-TARGETDURATION:" ++ x) "#EXTINF:"
    = includes x "#EXTINF:") by (intros x; vm_compute; reflexivity).
  rewrite Hfix. rewrite includes_skip by apply int_no_hash.
  assert (Htag : forall x,
    includes (String LF MEDIA_SEQUENCE ++ x) "#EXTINF:"
    = includes x "#EXTINF:") by (intros x; vm_compute; reflexivity).
  rewrite Htag.
  rewrite includes_skip by (apply all_digits_no_hash, number_digits).
  reflexivity.
Qed.

Lemma prefix_app (p s : string) : String.prefix p (p ++ s) = true.
Proof.
  induction p as [|c p IH].
  - destruct s; reflexivity.
  - rewrite app_cons. cbn [String.prefix].
    destruct (ascii_dec c c) as [_|N]; [exact IH | congruence].
Qed.

Lemma extinf_is_entry d u : includes (extinf d u) "#EXTINF:" = true.
Proof.
  unfold extinf.
  destruct ("#EXTINF:" ++ d ++ "," ++ String "010" u) as [|c s] eqn:E;
    [discriminate E|].
  cbn [includes]. rewrite <- E, prefix_app. reflexivity.
Qed.

Lemma includes_lf_app (p u : string) :
  includes (p ++ String LF u) (String LF "") = true.
Proof.
  induction p as [|c p IH].
  { change ("" ++ String LF u) with (String LF "" ++ u).
    destruct (String LF "" ++ u) as [|c s] eqn:E; [discriminate E|].
    cbn [includes]. rewrite <- E, prefix_app. reflexivity. }
  rewrite app_cons. cbn [includes]. rewrite IH. apply orb_true_r.
Qed.

Lemma last_line_app (p u : string) :
  no_lf u = true -> last_line (p ++ String LF u) = u.
Proof.
  unfold no_lf. intros H. apply negb_true_iff in H.
  induction p as [|c p IH].
  - change ("" ++ String LF u) with (String LF u).
    cbn [last_line]. unfold LF in *. rewrite H. reflexivity.
  - rewrite app_cons. cbn [last_line].
    pose proof (includes_lf_app p u) as Hi. unfold LF in *.
    rewrite Hi. exact IH.
Qed.

Lemma last_line_extinf d u : no_lf u = true -> last_line (extinf d u) = u.
Proof.
  intros H. unfold extinf.
  rewrite <- (last_line_app ("#EXTINF:" ++ d ++ ",") u H) at 2.
  rewrite !app_assoc'. reflexivity.
Qed.

(** An entry of the window: an [#EXTINF] item whose URI has no line
    feed. *)
Definition is_entry (item : string) : Prop :=
  exists d u, item = extinf d u /\ no_lf u = true.

Lemma filter_entries (items : list string) :
  Forall is_entry items ->
  List.filter (fun item => includes item "#EXTINF:") items = items.
Proof.
  induction 1 as [|x l (d & u & -> & _) _ IH]; [reflexivity|].
  cbn [List.filter]. rewrite extinf_is_entry, IH. reflexivity.
Qed.

Lemma header_neq_entry td n item :
  is_entry item -> String.eqb (header td n) item = false.
Proof.
  intros (d & u & -> & _). apply String.eqb_neq. intros E.
  pose proof (header_not_entry td n) as H. rewrite E in H.
  rewrite extinf_is_entry in H. discriminate H.
Qed.

Lemma prefix_nil s : String.prefix "" s = true.
Proof. destruct s; reflexivity. Qed.

Lemma includes_char_cons x s c :
  includes (String x s) (String c "")
  = Ascii.eqb c x || includes s (String c "").
Proof.
  cbn [includes String.prefix].
  destruct (ascii_dec c x) as [->|Hne].
  - rewrite prefix_nil, Ascii.eqb_refl. reflexivity.
  - apply Ascii.eqb_neq in Hne. rewrite Hne. reflexivity.
Qed.

Lemma includes_char_app (a b : string) c :
  includes (a ++ b) (String c "")
  = includes a (String c "") || includes b (String c "").
Proof.
  induction a as [|x a IH].
  - change ("" ++ b) with b. reflexivity.
  - rewrite app_cons, !includes_char_cons, IH. apply orb_assoc.
Qed.

Lemma no_lf_mp4 name : no_lf name = true -> no_lf (name ++ ".mp4") = true.
Proof.
  unfold no_lf. intros H. apply negb_true_iff in H.
  rewrite includes_char_app. unfold LF in *. rewrite H. reflexivity.
Qed.

Lemma splice1_second (h x : string) (rest : list string) :
  splice1 (h :: x :: rest) 1 = h :: rest.
Proof.
  unfold splice1. change (1 <? 0)%Z with false. cbv iota.
  rewrite Z.min_l by (cbn [length]; lia). reflexivity.
Qed.

Lemma template_set_template track pl st :
  template track (set_template track pl st) = pl.
Proof. destruct track; reflexivity. Qed.

Lemma template_set_other track other pl st :
  other <> track -> template other (set_template track pl st) = template other st.
Proof. destruct track, other; intros H; try congruence; reflexivity. Qed.

Lemma template_set_files track fs st :
  template track (set_files fs st) = template track st.
Proof. destruct track; reflexivity. Qed.

Lemma files_set_template track pl st : files (set_template track pl st) = files st.
Proof. destruct track; reflexivity. Qed.

Section Window.

Variables (maxSegmentNum_ : Z) (resultPath_ audioPLName videoPLName : string).
Variable td : option Z.

Abbreviation process :=
  (process_segment maxSegmentNum_ resultPath_ audioPLName videoPLName).

Definition playlist_path (track : Track) : string :=
  resultPath_ ++ pathSuffix track
  ++ match track with Audio => audioPLName | Video => videoPLName end.

Definition media_path (track : Track) (uri : string) : string :=
  resultPath_ ++ pathSuffix track ++ uri.

(** The entry a segment adds. *)
Definition entry_of (seg : Segment) : string :=
  extinf (segmentDuration seg) (nameOnly seg ++ ".mp4").

(** What one slot does to a well-formed template. *)
Lemma process_segment_spec (track : Track) (seg : Segment) (ext : External)
    (st st' : State) (full : bool) (e : N) (items : list string) :
  template track st = header td e :: items ->
  Forall is_entry items ->
  process track seg ext st = Ok (st', full) ->
  (forall other, other <> track -> template other st' = template other st) /\
  ((segmentName seg = initFile /\ st' = st /\ full = false) \/
   (segmentName seg <> initFile /\ ext = Decrypted /\
    ((Z.of_nat (length items) = maxSegmentNum_ /\ full = true /\
      exists d u rest,
        items = extinf d u :: rest /\ no_lf u = true /\
        template track st' = header td (e + 1) :: rest ++ [entry_of seg] /\
        media_path track u
          ∈ {[media_path track (nameOnly seg ++ ".mp4")]} ∪ files st /\
        files st' = {[playlist_path track]}
                    ∪ (({[media_path track (nameOnly seg ++ ".mp4")]}
                        ∪ files st) ∖ {[media_path track u]})) \/
     (Z.of_nat (length items) <> maxSegmentNum_ /\ full = false /\
      template track st' = header td e :: items ++ [entry_of seg] /\
      files st' = {[playlist_path track]}
                  ∪ ({[media_path track (nameOnly seg ++ ".mp4")]}
                     ∪ files st))))).
Proof.
  intros Htpl Hitems Hrun. unfold process_segment in Hrun.
  destruct ext; try discriminate Hrun;
    destruct (String.eqb_spec (segmentName seg) initFile) as [Hinit|Hinit];
    try discriminate Hrun.
  1-3: injection Hrun as <- <-; split; [reflexivity | left; auto].
  rewrite template_set_files, Htpl in Hrun.
  cbn [List.filter] in Hrun.
  rewrite header_not_entry, filter_entries in Hrun by exact Hitems.
  destruct (Z.eqb_spec (Z.of_nat (length items)) maxSegmentNum_) as [Hfull|Hless].
  - destruct Hitems as [|old rest (d & u & -> & Hu) Hrest];
      [discriminate Hrun|].
    cbn [head] in Hrun.
    assert (Hidx : indexOf (header td e :: extinf d u :: rest) (extinf d u) = 1%Z).
    { cbn [indexOf]. rewrite header_neq_entry by (exists d, u; auto).
      rewrite String.eqb_refl. reflexivity. }
    rewrite Hidx in Hrun.
    rewrite splice1_second in Hrun.
    rewrite last_line_extinf in Hrun by exact Hu.
    rewrite files_set_template in Hrun. cbn [files set_files] in Hrun.
    destruct (bool_decide _) eqn:Hin in Hrun; [|discriminate Hrun].
    apply bool_decide_eq_true_1 in Hin.
    cbn [head] in Hrun. rewrite bump_header in Hrun.
    cbn [mbind res_bind Js.bind] in Hrun.
    injection Hrun as <- <-. split.
    + intros other Hne. rewrite template_set_files.
      rewrite !template_set_other by exact Hne.
      rewrite template_set_files, template_set_other by exact Hne.
      apply template_set_files.
    + right. split; [exact Hinit|]. split; [reflexivity|]. left.
      split; [exact Hfull|]. split; [reflexivity|].
      exists d, u, rest. split; [reflexivity|]. split; [exact Hu|]. split.
      * rewrite template_set_files, !template_set_template. reflexivity.
      * split; [exact Hin|].
        cbn [files set_files]. rewrite !files_set_template. reflexivity.
  - cbn [mbind res_bind Js.bind] in Hrun. injection Hrun as <- <-. split.
    + intros other Hne. rewrite template_set_files.
      rewrite template_set_other by exact Hne. apply template_set_files.
    + right. split; [exact Hinit|]. split; [reflexivity|]. right.
      split; [exact Hless|]. split; [reflexivity|]. split.
      * rewrite template_set_files, template_set_template.
        rewrite template_set_files, Htpl. reflexivity.
      * cbn [files set_files]. rewrite files_set_template. reflexivity.
Qed.

(** The playlist as a reader sees it: its [#EXTINF] entries, as the code
    counts them, and the number in the header's media-sequence tag. *)
Definition entries (pl : list string) : list string :=
  List.filter (fun item => includes item "#EXTINF:") pl.

Definition media_sequence (pl : list string) : option N :=
  match pl with
  | [] => None
  | first :: _ =>
      match exec_media_sequence first with
      | Some (_, digits, _) => Some (parseInt_digits digits)
      | None => None
      end
  end.

Definition evictions (track : Track) (evicted : N * N) : N :=
  match track with Audio => evicted.1 | Video => evicted.2 end.

Definition count (track : Track) (full : bool) (evicted : N * N) : N * N :=
  match track, full with
  | Audio, true => ((evicted.1 + 1)%N, evicted.2)
  | Video, true => (evicted.1, (evicted.2 + 1)%N)
  | _, false => evicted
  end.

(** The shape every template keeps: the header, then at most
    [maxSegmentNum_] entries. *)
Definition window (track : Track) (st : State) (e : N) : Prop :=
  exists items,
    template track st = header td e :: items /\
    Forall is_entry items /\
    (Z.of_nat (length items) <= maxSegmentNum_)%Z.

Lemma entries_header e items :
  Forall is_entry items -> entries (header td e :: items) = items.
Proof.
  intros H. unfold entries. cbn [List.filter].
  rewrite header_not_entry. apply filter_entries, H.
Qed.

Lemma media_sequence_header e items :
  media_sequence (header td e :: items) = Some e.
Proof.
  unfold media_sequence. rewrite exec_header, parse_number. reflexivity.
Qed.

Lemma window_entries track st e :
  window track st e ->
  (Z.of_nat (length (entries (template track st))) <= maxSegmentNum_)%Z /\
  media_sequence (template track st) = Some e.
Proof.
  intros (items & -> & Hitems & Hlen).
  rewrite entries_header, media_sequence_header by exact Hitems. auto.
Qed.

Lemma window_bootstrap track :
  (0 <= maxSegmentNum_)%Z -> window track (bootstrap td) 0.
Proof.
  intros H. exists []. destruct track; cbn [template bootstrap
    audioMediaPLTemplate videoMediaPLTemplate length];
    rewrite initial_header_is; auto.
Qed.

Lemma is_entry_of seg : no_lf (nameOnly seg) = true -> is_entry (entry_of seg).
Proof.
  intros H. exists (segmentDuration seg), (nameOnly seg ++ ".mp4").
  split; [reflexivity | apply no_lf_mp4, H].
Qed.

Lemma evictions_count track full c :
  evictions track (count track full c)
  = (evictions track c + (if full then 1 else 0))%N.
Proof. destruct track, full; cbn; lia. Qed.

Lemma evictions_count_other track other full c :
  other <> track -> evictions other (count track full c) = evictions other c.
Proof. destruct track, other, full; intros H; try congruence; reflexivity. Qed.

(** One slot keeps the shape of both templates. *)
Lemma process_segment_window track seg ext st st' full c :
  no_lf (nameOnly seg) = true ->
  (forall t, window t st (evictions t c)) ->
  process track seg ext st = Ok (st', full) ->
  forall t, window t st' (evictions t (count track full c)).
Proof.
  intros Hseg Hall Hrun t.
  destruct (Hall track) as (items & Htpl & Hitems & Hlen).
  destruct (process_segment_spec track seg ext st st' full _ items
              Htpl Hitems Hrun) as [Hother Hcase].
  assert (Hne : forall o, o <> track ->
                  window o st' (evictions o (count track full c))).
  { intros o Ho. rewrite evictions_count_other by exact Ho.
    destruct (Hall o) as (its & Ht & Hi & Hl).
    exists its. rewrite Hother by exact Ho. auto. }
  assert (Hdec : t = track \/ t <> track)
    by (destruct t, track; auto; right; discriminate).
  destruct Hdec as [-> | Ht]; [|apply Hne, Ht].
  rewrite evictions_count.
  destruct Hcase as [(_ & -> & ->) | (_ & _ & [Hfull | Hless])].
  - rewrite N.add_0_r. apply Hall.
  - destruct Hfull as (Hmax & -> & d & u & rest & -> & Hu & Htpl' & _ & _).
    exists (rest ++ [entry_of seg])%list. split; [exact Htpl'|]. split.
    + apply Forall_app. split; [inversion Hitems; assumption|].
      constructor; [apply is_entry_of, Hseg | constructor].
    + rewrite length_app. cbn [length] in *. lia.
  - destruct Hless as (Hmax & -> & Htpl' & _).
    exists (items ++ [entry_of seg])%list. rewrite N.add_0_r.
    split; [exact Htpl'|]. split.
    + apply Forall_app. split; [exact Hitems|].
      constructor; [apply is_entry_of, Hseg | constructor].
    + rewrite length_app. cbn [length]. lia.
Qed.

Definition stem_ok (step : Step) : Prop := no_lf (nameOnly step.1.2) = true.

Abbreviation run_saver :=
  (run maxSegmentNum_ resultPath_ audioPLName videoPLName).

Lemma run_cons track seg ext rest st c :
  run_saver ((track, seg, ext) :: rest) st c
  = (r ← process track seg ext st; run_saver rest r.1 (count track r.2 c)).
Proof. reflexivity. Qed.

(** A run keeps the shape of both templates. *)
Lemma run_window steps : forall st c st' c',
  Forall stem_ok steps ->
  (forall t, window t st (evictions t c)) ->
  run_saver steps st c = Ok (st', c') ->
  forall t, window t st' (evictions t c').
Proof.
  induction steps as [|[[track seg] ext] rest IH];
    intros st c st' c' Hsteps Hall Hrun.
  - injection Hrun as <- <-. exact Hall.
  - rewrite run_cons in Hrun.
    destruct (process track seg ext st) as [[st1 full]|err] eqn:Hstep;
      [|discriminate Hrun].
    cbn [mbind res_bind Js.bind fst snd] in Hrun.
    inversion Hsteps as [|? ? Hseg Hrest]; subst.
    eapply IH; [exact Hrest | | exact Hrun].
    eapply process_segment_window; [exact Hseg | exact Hall | exact Hstep].
Qed.

Lemma run_bootstrap steps st c :
  (0 <= maxSegmentNum_)%Z ->
  Forall stem_ok steps ->
  run_saver steps (bootstrap td) (0, 0)%N = Ok (st, c) ->
  forall t, window t st (evictions t c).
Proof.
  intros Hmax Hsteps Hrun.
  eapply run_window; [exact Hsteps | | exact Hrun].
  intros t. destruct t; apply window_bootstrap, Hmax.
Qed.

(** The loops of the saver are runs: the slots of a cycle in the order
    [download_segments] visits them, the cycles one after the other. *)
Fixpoint steps_of (slots : list Slot) : list Step :=
  match slots with
  | [] => []
  | ((a, ea), v) :: rest =>
      (Audio, a, ea)
      :: match v with
         | Some (v, ev) => (Video, v, ev) :: steps_of rest
         | None => []
         end
  end.

Definition slot_ok (slot : Slot) : Prop :=
  no_lf (nameOnly slot.1.1) = true /\
  match slot.2 with
  | Some (v, _) => no_lf (nameOnly v) = true
  | None => True
  end.

Lemma steps_of_ok slots : Forall slot_ok slots -> Forall stem_ok (steps_of slots).
Proof.
  induction 1 as [|[[a ea] v] rest [Ha Hv] _ IH]; [constructor|].
  cbn [steps_of]. constructor; [exact Ha|].
  destruct v as [[v ev]|]; constructor; assumption.
Qed.

Lemma run_app (a b : list Step) : forall st c,
  run_saver (a ++ b) st c = (r ← run_saver a st c; run_saver b r.1 r.2).
Proof.
  induction a as [|[[track seg] ext] a IH]; intros st c; [reflexivity|].
  change (((track, seg, ext) :: a) ++ b)%list
    with ((track, seg, ext) :: (a ++ b))%list.
  rewrite !run_cons.
  destruct (process track seg ext st) as [r|err]; [|reflexivity].
  cbn [mbind res_bind Js.bind]. apply IH.
Qed.

Lemma download_segments_run slots : forall st st' c,
  download_segments maxSegmentNum_ resultPath_ audioPLName videoPLName
    slots st = Ok st' ->
  exists c', run_saver (steps_of slots) st c = Ok (st', c').
Proof.
  induction slots as [|[[a ea] v] rest IH]; intros st st' c Hrun.
  - injection Hrun as <-. exists c. reflexivity.
  - cbn [download_segments steps_of] in *. rewrite run_cons.
    destruct (process Audio a ea st) as [r|err]; [|discriminate Hrun].
    cbn [mbind res_bind Js.bind] in *.
    destruct v as [[v ev]|]; [|discriminate Hrun]. rewrite run_cons.
    destruct (process Video v ev r.1) as [r'|err]; [|discriminate Hrun].
    cbn [mbind res_bind Js.bind] in *. apply IH, Hrun.
Qed.

Lemma cycles_run cs : forall st st' c,
  cycles maxSegmentNum_ resultPath_ audioPLName videoPLName cs st = Ok st' ->
  exists c', run_saver (concat (map steps_of cs)) st c = Ok (st', c').
Proof.
  induction cs as [|slots cs IH]; intros st st' c Hrun.
  - injection Hrun as <-. exists c. reflexivity.
  - cbn [cycles map concat] in *. rewrite run_app.
    destruct (download_segments _ _ _ _ slots st) as [st1|err] eqn:Hcycle;
      [|discriminate Hrun].
    destruct (download_segments_run slots st st1 c Hcycle) as [c1 ->].
    cbn [mbind res_bind Js.bind fst snd] in *. apply IH, Hrun.
Qed.

(** After any number of whole cycles both playlists are within the
    window. *)
Lemma cycles_window cs st' :
  (0 <= maxSegmentNum_)%Z ->
  Forall (Forall slot_ok) cs ->
  cycles maxSegmentNum_ resultPath_ audioPLName videoPLName cs
    (bootstrap td) = Ok st' ->
  forall t,
    (Z.of_nat (length (entries (template t st'))) <= maxSegmentNum_)%Z.
Proof.
  intros Hmax Hcs Hrun t.
  destruct (cycles_run cs _ _ (0, 0)%N Hrun) as [c Hsteps].
  eapply window_entries, run_bootstrap; [exact Hmax | | exact Hsteps].
  clear -Hcs. induction Hcs as [|slots cs Hslots _ IH]; [constructor|].
  cbn [map concat]. apply Forall_app. split; [apply steps_of_ok, Hslots|].
  exact IH.
Qed.

(** C1. In a run of the segment saver from the freshly created playlists
    (with a non-negative [maxSegmentNum_] and segment names without a line
    feed), after any slot of either track both playlists hold at most
    [maxSegmentNum_] [#EXTINF] entries and the number in the header's
    [#EXT-X-MEDIA-SEQUENCE] tag is the number of entries evicted from that
    playlist so far.  A slot that finds its playlist with [maxSegmentNum_]
    entries removes exactly the eldest one, unlinks the file it names and
    adds one to the count; any other slot appends and evicts nothing. *)
Theorem rolling_window (steps : list Step) (track : Track) (seg : Segment)
    (ext : External) (st st' : State) (c c' : N * N) :
  (0 <= maxSegmentNum_)%Z ->
  Forall stem_ok steps ->
  no_lf (nameOnly seg) = true ->
  run_saver steps (bootstrap td) (0, 0)%N = Ok (st, c) ->
  run_saver [(track, seg, ext)] st c = Ok (st', c') ->
  (forall t,
     (Z.of_nat (length (entries (template t st'))) <= maxSegmentNum_)%Z /\
     media_sequence (template t st') = Some (evictions t c')) /\
  (segmentName seg <> initFile ->
   let new_file := media_path track (nameOnly seg ++ ".mp4") in
   if (Z.of_nat (length (entries (template track st))) =? maxSegmentNum_)%Z
   then
     exists eldest rest,
       entries (template track st) = eldest :: rest /\
       entries (template track st') = (rest ++ [entry_of seg])%list /\
       media_path track (last_line eldest) ∈ {[new_file]} ∪ files st /\
       files st' = {[playlist_path track]}
                   ∪ (({[new_file]} ∪ files st)
                      ∖ {[media_path track (last_line eldest)]}) /\
       evictions track c' = (evictions track c + 1)%N
   else
     entries (template track st')
       = (entries (template track st) ++ [entry_of seg])%list /\
     files st' = {[playlist_path track]} ∪ ({[new_file]} ∪ files st) /\
     evictions track c' = evictions track c).
Proof.
  intros Hmax Hsteps Hseg Hprefix Hlast.
  pose proof (run_bootstrap steps st c Hmax Hsteps Hprefix) as Hst.
  rewrite run_cons in Hlast.
  destruct (process track seg ext st) as [[st1 full]|err] eqn:Hstep;
    [|discriminate Hlast].
  cbn [mbind res_bind Js.bind fst snd run] in Hlast.
  injection Hlast as <- <-.
  pose proof (process_segment_window track seg ext st st1 full c
                Hseg Hst Hstep) as Hst1.
  split; [intros t; apply window_entries, Hst1|].
  intros Hinit new_file.
  destruct (Hst track) as (items & Htpl & Hitems & Hlen).
  destruct (process_segment_spec track seg ext st st1 full _ items
              Htpl Hitems Hstep) as [_ Hcase].
  rewrite Htpl, entries_header by exact Hitems.
  destruct Hcase as [(Hi & _) | (_ & _ & [Hfull | Hless])];
    [contradiction | |].
  - destruct Hfull
      as (Hfull & -> & d & u & rest & -> & Hu & Htpl' & Hin & Hfiles).
    rewrite (proj2 (Z.eqb_eq _ _) Hfull).
    exists (extinf d u), rest. rewrite last_line_extinf by exact Hu.
    assert (Hrest : Forall is_entry (rest ++ [entry_of seg])).
    { apply Forall_app. split; [inversion Hitems; assumption|].
      constructor; [apply is_entry_of, Hseg | constructor]. }
    rewrite Htpl', entries_header by exact Hrest.
    split; [reflexivity|]. split; [reflexivity|]. split; [exact Hin|].
    split; [exact Hfiles|]. rewrite evictions_count. reflexivity.
  - destruct Hless as (Hless & -> & Htpl' & Hfiles).
    rewrite (proj2 (Z.eqb_neq _ _) Hless).
    assert (Hrest : Forall is_entry (items ++ [entry_of seg])).
    { apply Forall_app. split; [exact Hitems|].
      constructor; [apply is_entry_of, Hseg | constructor]. }
    rewrite Htpl', entries_header by exact Hrest.
    split; [reflexivity|]. split; [exact Hfiles|].
    rewrite evictions_count. apply N.add_0_r.
Qed.

End Window.

(** A run with a window of two: two slots of each track, then a third
    audio slot, which evicts. *)
Definition sample_segment (stem : string) : Segment :=
  {| segmentName := stem ++ ".m4s"; nameOnly := stem;
     segmentDuration := "4" |}.

Definition sample_steps : list Step :=
  [ (Audio, sample_segment "000000000001", Decrypted);
    (Video, sample_segment "000000000001", Decrypted);
    (Audio, sample_segment "000000000002", Decrypted);
    (Video, sample_segment "000000000002", Decrypted) ].

Definition sample_run (steps : list Step) : State * (N * N) :=
  match run 2 "out/" "audio.m3u8" "video.m3u8" steps
          (bootstrap (Some 4%Z)) (0, 0)%N with
  | Ok r => r
  | Throw _ => (bootstrap (Some 4%Z), (0, 0)%N)
  end.

Definition sample_before : State * (N * N) := sample_run sample_steps.

Definition sample_after : State * (N * N) :=
  sample_run (sample_steps
              ++ [(Audio, sample_segment "000000000003", Decrypted)]).

Lemma rolling_window_witness :
  entries (template Audio sample_after.1)
  = [extinf "4" "000000000002.mp4"; extinf "4" "000000000003.mp4"] /\
  media_sequence (template Audio sample_after.1) = Some 1%N /\
  media_sequence (template Video sample_after.1) = Some 0%N /\
  "out/audio/000000000001.mp4" ∉ files sample_after.1.
Proof.
  pose proof (rolling_window 2 "out/" "audio.m3u8" "video.m3u8" (Some 4%Z)
                sample_steps Audio (sample_segment "000000000003") Decrypted
                sample_before.1 sample_after.1 sample_before.2 sample_after.2)
    as H.
  destruct H as [Hinv Hstep].
  - lia.
  - unfold sample_steps.
    repeat (constructor; [exact eq_refl|]). constructor.
  - reflexivity.
  - vm_compute. reflexivity.
  - vm_compute. reflexivity.
  - split; [vm_compute; reflexivity|].
    split; [rewrite (proj2 (Hinv Audio)); reflexivity|].
    split; [rewrite (proj2 (Hinv Video)); reflexivity|].
    vm_compute. intros Hin. discriminate Hin.
Defined.

(** Why the window must not be negative or empty: a negative
    [maxSegmentNum_] is never reached, so nothing is evicted, and with 0
    the first media segment finds no entry to evict. *)
Example negative_window_grows :
  exists st c,
    run (-1) "out/" "audio.m3u8" "video.m3u8"
      [(Audio, sample_segment "000000000001", Decrypted)]
      (bootstrap (Some 4%Z)) (0, 0)%N = Ok (st, c) /\
    length (entries (template Audio st)) = 1%nat.
Proof.
  eexists _, _. split; [vm_compute; reflexivity | vm_compute; reflexivity].
Qed.

Example empty_window_throws :
  run 0 "out/" "audio.m3u8" "video.m3u8"
    [(Audio, sample_segment "000000000001", Decrypted)]
    (bootstrap (Some 4%Z)) (0, 0)%N
  = Throw (TypeError "Cannot read properties of undefined (reading 'split')").
Proof. vm_compute. reflexivity. Qed.

(** Five cycles of one segment per track with a window of three: both
    playlists end with segments 3, 4 and 5 and media sequence 2, and the
    files of segments 1 and 2 are gone. *)
Definition one_segment_cycle (stem : string) : list Slot :=
  [ ((sample_segment stem, Decrypted), Some (sample_segment stem, Decrypted)) ].

Example five_cycles_window_three :
  exists st,
    cycles 3 "out/" "audio.m3u8" "video.m3u8"
      (map one_segment_cycle ["1"; "2"; "3"; "4"; "5"])
      (bootstrap (Some 4%Z)) = Ok st /\
    (forall t,
       entries (template t st)
       = [extinf "4" "3.mp4"; extinf "4" "4.mp4"; extinf "4" "5.mp4"] /\
       media_sequence (template t st) = Some 2%N) /\
    files st = list_to_set
      [ "out/audio/audio.m3u8"; "out/video/video.m3u8";
        "out/audio/3.mp4"; "out/audio/4.mp4"; "out/audio/5.mp4";
        "out/video/3.mp4"; "out/video/4.mp4"; "out/video/5.mp4" ].
Proof.
  eexists. split; [vm_compute; reflexivity|]. split.
  - intros [|]; split; vm_compute; reflexivity.
  - vm_compute. reflexivity.
Qed.

End SaverFacts.


(** * Further properties of the modelled sources *)

(** ** [data_view_reader]: the remaining cursor operations *)

Module ReaderOps.
Import DataViewReader.

(** [DataView.prototype.getInt32]: the 32-bit word read as two's
    complement. *)
Definition getInt32 (v : View) (pos : Z) (littleEndian : bool) : option Z :=
  w ← getUint32 v pos littleEndian;
  Some (if w <? 2 ^ 31 then w else w - 2 ^ 32).

Definition readInt32 (r : Reader) : res (Z * Reader) :=
  match getInt32 (dataView_ r) (position_ r) (littleEndian_ r) with
  | Some value => Ok (value, advance r 4)
  | None => Throw outOfBounds_
  end.

Definition rewind (r : Reader) (bytes : Z) : res Reader :=
  _ ← assert (0 <=? bytes) "Bad call to DataViewReader.rewind";
  if position_ r <? bytes then Throw outOfBounds_
  else Ok (advance r (- bytes)).

Definition seek (r : Reader) (position : Z) : res Reader :=
  _ ← assert (0 <=? position) "Bad call to DataViewReader.seek";
  if (position <? 0) || (position >? byteLength (dataView_ r))
  then Throw outOfBounds_
  else Ok {| dataView_ := dataView_ r;
             littleEndian_ := littleEndian_ r;
             position_ := position |}.

(** The loop of [readTerminatedString]: it stops on a zero byte or at the
    end of the view.  The read inside it is not guarded by a [try]. *)
Fixpoint scan_terminator (fuel : nat) (r : Reader) : option (res Reader) :=
  if hasMoreData r then
    match fuel with
    | O => None
    | S fuel' =>
        match getUint8 (dataView_ r) (position_ r) with
        | None =>
            Some (Throw (RangeError
                    "Offset is outside the bounds of the DataView"))
        | Some value =>
            if value =? 0 then Some (Ok r)
            else scan_terminator fuel' (advance r 1)
        end
    end
  else Some (Ok r).

Section Terminated.

(** [string_utils.fromUTF8] decodes with the platform's [TextDecoder]. *)
Variable fromUTF8 : View -> string.

Definition readTerminatedString (fuel : nat) (r : Reader)
  : option (res (string * Reader)) :=
  let start := position_ r in
  match scan_terminator fuel r with
  | None => None
  | Some (Throw e) => Some (Throw e)
  | Some (Ok r') =>
      let ret := toUint8 (dataView_ r) start (Some (position_ r' - start)) in
      (* Skip string termination. *)
      Some (Ok (fromUTF8 ret, advance r' 1))
  end.

End Terminated.

(** *** Facts *)

Lemma getUint8_word v p :
  wf_view v -> 0 <= p -> p + 1 <= byteLength v ->
  exists b, sub_bytes v p 1 = [b] /\ getUint8 v p = Some (byte_val b).
Proof.
  intros Hwf Hp Hlen. rewrite getUint8_lookup by auto.
  unfold sub_bytes. pose proof (view_bytes_length v Hwf) as Hl.
  destruct (drop (Z.to_nat p) (view_bytes v)) as [|b tl] eqn:E.
  - apply (f_equal (@length _)) in E. rewrite length_drop in E.
    simpl in E. lia.
  - exists b. split; [reflexivity|].
    rewrite <- (Nat.add_0_r (Z.to_nat p)), <- lookup_drop, E. reflexivity.
Qed.

Lemma getUint16_word v p le :
  wf_view v -> 0 <= p -> p + 2 <= byteLength v ->
  getUint16 v p le = Some (word le (sub_bytes v p 2)).
Proof.
  intros Hwf Hp Hlen. pose proof (view_bytes_length v Hwf) as Hl.
  unfold getUint16.
  destruct (Z.leb_spec 0 p); [|lia].
  destruct (Z.leb_spec (p + 2) (byteLength v)); [|lia]. cbn [andb].
  rewrite !getUint8_lookup by (auto; lia).
  unfold sub_bytes.
  destruct (drop (Z.to_nat p) (view_bytes v)) as [|b0 [|b1 tl]] eqn:E;
    try (apply (f_equal (@length _)) in E; rewrite length_drop in E;
         simpl in E; lia).
  assert (E0 : view_bytes v !! Z.to_nat p = Some b0).
  { rewrite <- (Nat.add_0_r (Z.to_nat p)), <- lookup_drop, E. reflexivity. }
  assert (E1 : view_bytes v !! Z.to_nat (p + 1) = Some b1).
  { replace (Z.to_nat (p + 1)) with (Z.to_nat p + 1)%nat by lia.
    rewrite <- lookup_drop, E. reflexivity. }
  rewrite E0, E1. pose proof (byte_val_range b0). pose proof (byte_val_range b1).
  destruct le; simpl; unfold be_word; simpl; f_equal; lia.
Qed.

(** The three word reads take their bytes in the reader's endianness when
    enough bytes remain and fail with BUFFER_READ_OUT_OF_BOUNDS otherwise:
    none of them reads past the end of the view. *)
Theorem read_words_in_bounds (r : Reader) :
  wf_view (dataView_ r) -> 0 <= position_ r ->
  let v := dataView_ r in
  let p := position_ r in
  let read (n : nat) :=
    if p + Z.of_nat n <=? byteLength v
    then Ok (word (littleEndian_ r) (sub_bytes v p n), advance r (Z.of_nat n))
    else Throw (Error CRITICAL MEDIA BUFFER_READ_OUT_OF_BOUNDS) in
  readUint8 r = read 1%nat /\ readUint16 r = read 2%nat /\
  readUint32 r = read 4%nat.
Proof.
  intros Hwf Hp v p read. subst read. cbv beta.
  change (Z.of_nat 1) with 1. change (Z.of_nat 2) with 2.
  change (Z.of_nat 4) with 4. repeat split.
  - unfold readUint8. fold v p.
    destruct (Z.leb_spec (p + 1) (byteLength v)) as [Hl|Hl].
    + destruct (getUint8_word v p Hwf Hp Hl) as (b & -> & ->).
      destruct (littleEndian_ r); cbn; do 2 f_equal; lia.
    + unfold getUint8. destruct (Z.leb_spec (p + 1) (byteLength v)); [lia|].
      rewrite andb_false_r. reflexivity.
  - unfold readUint16. fold v p.
    destruct (Z.leb_spec (p + 2) (byteLength v)) as [Hl|Hl].
    + rewrite getUint16_word by auto. reflexivity.
    + unfold getUint16. destruct (Z.leb_spec (p + 2) (byteLength v)); [lia|].
      rewrite andb_false_r. reflexivity.
  - unfold readUint32. fold v p.
    destruct (Z.leb_spec (p + 4) (byteLength v)) as [Hl|Hl].
    + destruct (getUint32_word v p (littleEndian_ r) Hwf Hp Hl) as [-> _].
      reflexivity.
    + rewrite getUint32_short by lia. reflexivity.
Qed.

Definition le_sample : Reader :=
  advance (new (view_of_bytes [Byte.x01; Byte.x02; Byte.x03; Byte.x04;
                               Byte.x05]) LITTLE_ENDIAN) 1.

Lemma read_words_in_bounds_witness :
  readUint8 le_sample = Ok (2, advance le_sample 1) /\
  readUint16 le_sample = Ok (0x0302, advance le_sample 2) /\
  readUint32 le_sample = Ok (0x05040302, advance le_sample 4).
Proof.
  apply (read_words_in_bounds le_sample).
  - vm_compute. intuition discriminate.
  - vm_compute. discriminate.
Defined.

Lemma advance_back r n : advance (advance r n) (- n) = r.
Proof.
  destruct r as [v le p]. unfold advance; simpl. f_equal. lia.
Qed.

(** A successful [skip] is undone by a [rewind] of the same length and by
    a [seek] to the old position; a [rewind] never moves before the start
    of the view. *)
Theorem skip_rewind (r r' : Reader) (n : Z) :
  0 <= position_ r ->
  skip r n = Ok r' ->
  rewind r' n = Ok r /\ seek r' (position_ r) = Ok r /\
  (forall m, position_ r' < m -> rewind r' m = Throw outOfBounds_).
Proof.
  intros Hp Hskip. unfold skip, assert in Hskip.
  destruct (Z.leb_spec 0 n) as [Hn|]; [|discriminate Hskip].
  cbn [mbind res_bind Js.bind] in Hskip.
  destruct (Z.gtb_spec (position_ r + n) (byteLength (dataView_ r)))
    as [|Hlen]; [discriminate Hskip|].
  injection Hskip as <-. repeat split.
  - unfold rewind, assert. destruct (Z.leb_spec 0 n); [|lia].
    cbn [mbind res_bind Js.bind advance position_].
    destruct (Z.ltb_spec (position_ r + n) n); [lia|].
    rewrite advance_back. reflexivity.
  - unfold seek, assert. destruct (Z.leb_spec 0 (position_ r)); [|lia].
    cbn [mbind res_bind Js.bind advance position_ dataView_].
    destruct (Z.ltb_spec (position_ r) 0); [lia|].
    destruct (Z.gtb_spec (position_ r) (byteLength (dataView_ r))); [lia|].
    destruct r; reflexivity.
  - intros m Hm. unfold rewind, assert.
    cbn [advance position_] in *.
    destruct (Z.leb_spec 0 m); [|lia].
    cbn [mbind res_bind Js.bind position_].
    destruct (Z.ltb_spec (position_ r + n) m); [reflexivity|lia].
Qed.

Lemma skip_rewind_witness :
  rewind (advance le_sample 3) 3 = Ok le_sample /\
  seek (advance le_sample 3) (position_ le_sample) = Ok le_sample /\
  (forall m, position_ (advance le_sample 3) < m ->
     rewind (advance le_sample 3) m = Throw outOfBounds_).
Proof.
  apply (skip_rewind le_sample (advance le_sample 3) 3).
  - vm_compute. discriminate.
  - reflexivity.
Defined.

(** The bytes before the first zero byte. *)
Fixpoint until_zero (bs : list byte) : list byte :=
  match bs with
  | [] => []
  | b :: tl => if byte_val b =? 0 then [] else b :: until_zero tl
  end.

Lemma take_until_zero bs : take (length (until_zero bs)) bs = until_zero bs.
Proof.
  induction bs as [|b tl IH]; [reflexivity|]. simpl.
  destruct (byte_val b =? 0); [reflexivity|]. simpl. f_equal. exact IH.
Qed.

Lemma length_until_zero bs : (length (until_zero bs) <= length bs)%nat.
Proof.
  induction bs as [|b tl IH]; [reflexivity|]. simpl.
  destruct (byte_val b =? 0); simpl; lia.
Qed.

Lemma advance_0 r : advance r 0 = r.
Proof. destruct r as [v le p]. unfold advance; simpl. f_equal. lia. Qed.

Lemma advance_twice r n m : advance (advance r n) m = advance r (n + m).
Proof. unfold advance; simpl. f_equal. lia. Qed.

Lemma scan_terminator_ok (rest : list byte) : forall (fuel : nat) (r : Reader),
  wf_view (dataView_ r) -> 0 <= position_ r ->
  drop (Z.to_nat (position_ r)) (view_bytes (dataView_ r)) = rest ->
  (length rest <= fuel)%nat ->
  scan_terminator fuel r
  = Some (Ok (advance r (Z.of_nat (length (until_zero rest))))).
Proof.
  induction rest as [|b tl IH]; intros fuel r Hwf Hp Hrest Hfuel.
  - pose proof (view_bytes_length _ Hwf) as Hl.
    apply (f_equal (@length _)) in Hrest. rewrite length_drop in Hrest.
    simpl in Hrest. destruct Hwf as (_ & Hlen & _).
    assert (Hmore : hasMoreData r = false).
    { unfold hasMoreData. apply Z.ltb_ge. lia. }
    destruct fuel; simpl; rewrite Hmore, advance_0; reflexivity.
  - pose proof (view_bytes_length _ Hwf) as Hl.
    assert (Hlt : position_ r < byteLength (dataView_ r)).
    { apply (f_equal (@length _)) in Hrest. rewrite length_drop in Hrest.
      simpl in Hrest. lia. }
    assert (Hmore : hasMoreData r = true)
      by (unfold hasMoreData; apply Z.ltb_lt; exact Hlt).
    destruct fuel as [|fuel]; [simpl in Hfuel; lia|].
    cbn [scan_terminator]. rewrite Hmore.
    rewrite getUint8_lookup by auto.
    assert (E0 : view_bytes (dataView_ r) !! Z.to_nat (position_ r) = Some b).
    { rewrite <- (Nat.add_0_r (Z.to_nat (position_ r))), <- lookup_drop, Hrest.
      reflexivity. }
    rewrite E0. cbn [fmap option_fmap option_map until_zero].
    destruct (byte_val b =? 0); [rewrite advance_0; reflexivity|].
    rewrite (IH fuel (advance r 1)); cbn [advance dataView_ position_];
      [ | exact Hwf | lia | | simpl in Hfuel; lia ].
    + rewrite advance_twice. do 3 f_equal. cbn [length]. lia.
    + replace (Z.to_nat (position_ r + 1)) with (Z.to_nat (position_ r) + 1)%nat
        by lia.
      rewrite <- drop_drop, Hrest. reflexivity.
Qed.

(** [readTerminatedString] hands to the decoder exactly the bytes between
    the cursor and the first zero byte (or the end of the view), and leaves
    the cursor one byte after them: one past the end of the view when no
    terminator was found. *)
Theorem readTerminatedString_spec (fromUTF8 : View -> string) (r : Reader)
    (fuel : nat) :
  wf_view (dataView_ r) ->
  0 <= position_ r <= byteLength (dataView_ r) ->
  let v := dataView_ r in
  let rest := drop (Z.to_nat (position_ r)) (view_bytes v) in
  let n := Z.of_nat (length (until_zero rest)) in
  let ret := toUint8 v (position_ r) (Some n) in
  (length rest <= fuel)%nat ->
  readTerminatedString fromUTF8 fuel r
  = Some (Ok (fromUTF8 ret, advance r (n + 1))) /\
  view_bytes ret = until_zero rest /\
  (until_zero rest = rest ->
   position_ (advance r (n + 1)) = byteLength v + 1).
Proof.
  intros Hwf Hp v rest n ret Hfuel.
  pose proof (view_bytes_length _ Hwf) as Hl. fold v in Hl.
  assert (Hrest : length rest = Z.to_nat (byteLength v - position_ r)).
  { unfold rest. rewrite length_drop, Hl. lia. }
  pose proof (length_until_zero rest) as Hn.
  assert (Hn' : 0 <= n <= byteLength v - position_ r)     by (unfold n; subst v; lia).
  unfold readTerminatedString.
  rewrite (scan_terminator_ok rest fuel r Hwf (proj1 Hp) eq_refl Hfuel).
  fold n. cbn [advance position_].
  replace (position_ r + n - position_ r) with n by lia.
  rewrite advance_twice. split; [reflexivity|]. split.
  - destruct (ReaderFacts.toUint8_sub v (position_ r) n Hwf)
      as (_ & _ & _ & _ & Hret); try lia.
    unfold ret. rewrite Hret. fold rest. unfold n. rewrite Nat2Z.id. apply take_until_zero.
  - intros Hall. unfold n. rewrite Hall, Hrest. subst v. lia.
Qed.

Definition unterminated_sample : Reader :=
  advance (new (view_of_bytes [Byte.x61; Byte.x62; Byte.x63]) BIG_ENDIAN) 1.

(** A decoder for views that hold ASCII only. *)
Definition ascii_decoder (v : View) : string :=
  string_of_list_ascii (map (fun b => ascii_of_N (Byte.to_N b)) (view_bytes v)).

Lemma readTerminatedString_spec_witness :
  readTerminatedString ascii_decoder 2 unterminated_sample
  = Some (Ok ("bc"%string, advance unterminated_sample 3)) /\
  position_ (advance unterminated_sample 3) = 4.
Proof.
  destruct (readTerminatedString_spec ascii_decoder unterminated_sample 2)
    as (Hrun & _ & Hend).
  - vm_compute. intuition discriminate.
  - vm_compute. intuition discriminate.
  - vm_compute. lia.
  - split; [exact Hrun | exact (Hend eq_refl)].
Defined.

End ReaderOps.


(** ** [mp4parser]: box names and what the walker never does *)

Module BoxNames.
Import DataViewReader Mp4Parser.

(** [typeToString]: [String.fromCharCode] of the four bytes of the type,
    taken with the signed shift of JavaScript. *)
Definition typeToString (type : Z) : string :=
  let chr (code : Z) := ascii_of_N (Z.to_N code) in
  String (chr (Z.land (Z.shiftr (to_int32 type) 24) 0xff))
    (String (chr (Z.land (Z.shiftr (to_int32 type) 16) 0xff))
       (String (chr (Z.land (Z.shiftr (to_int32 type) 8) 0xff))
          (String (chr (Z.land (to_int32 type) 0xff)) ""))).

(** One round of the loop of [typeFromString_]. *)
Definition shift_in (code : Z) (chr : ascii) : Z :=
  to_int32 (Z.lor (to_int32 (Z.shiftl code 8)) (charCode chr)).

Lemma to_int32_mod z : to_int32 z mod 2 ^ 32 = z mod 2 ^ 32.
Proof.
  unfold to_int32. rewrite Zminus_mod_idemp_l. f_equal. lia.
Qed.

Lemma testbit_to_int32 z i :
  0 <= i < 32 -> Z.testbit (to_int32 z) i = Z.testbit z i.
Proof.
  intros Hi.
  rewrite <- (Z.mod_pow2_bits_low (to_int32 z) 32 i) by lia.
  rewrite to_int32_mod. apply Z.mod_pow2_bits_low. lia.
Qed.

Lemma charCode_range c : 0 <= charCode c < 256.
Proof.
  unfold charCode. pose proof (N_ascii_bounded c). lia.
Qed.

Lemma testbit_charCode_high c i : 8 <= i -> Z.testbit (charCode c) i = false.
Proof.
  intros Hi. pose proof (charCode_range c) as Hc.
  rewrite <- (Z.mod_small (charCode c) (2 ^ 8)) by (change (2 ^ 8) with 256; lia).
  apply Z.mod_pow2_bits_high. lia.
Qed.

Lemma shift_in_bits code c i :
  0 <= i < 32 ->
  Z.testbit (shift_in code c) i
  = if i <? 8 then Z.testbit (charCode c) i else Z.testbit code (i - 8).
Proof.
  intros Hi. unfold shift_in.
  rewrite testbit_to_int32, Z.lor_spec, testbit_to_int32 by lia.
  rewrite Z.shiftl_spec by lia.
  destruct (Z.ltb_spec i 8).
  - rewrite (Z.testbit_neg_r code) by lia. reflexivity.
  - rewrite testbit_charCode_high by lia. apply orb_false_r.
Qed.

Lemma byte_at_bits (x : Z) (k j : Z) :
  0 <= k -> 0 <= j ->
  Z.testbit (Z.land (Z.shiftr x k) 0xff) j
  = if j <? 8 then Z.testbit x (j + k) else false.
Proof.
  intros Hk Hj. change 0xff with (Z.ones 8).
  rewrite Z.land_ones by lia.
  destruct (Z.ltb_spec j 8).
  - rewrite Z.mod_pow2_bits_low, Z.shiftr_spec by lia. reflexivity.
  - apply Z.mod_pow2_bits_high. lia.
Qed.

Lemma chr_charCode c : ascii_of_N (Z.to_N (charCode c)) = c.
Proof. unfold charCode. rewrite N2Z.id. apply ascii_N_embedding. Qed.

Lemma typeFromString_four a b c d :
  typeFromString_ (String a (String b (String c (String d ""))))
  = Ok (shift_in (shift_in (shift_in (shift_in 0 a) b) c) d).
Proof.
  unfold typeFromString_, assert.
  cbn [String.length Nat.eqb mbind res_bind Js.bind list_ascii_of_string
       fold_left].
  unfold shift_in. reflexivity.
Qed.

Lemma byte_of_code (a b c d : ascii) (k : Z) (x : ascii) :
  0 <= k -> k + 8 <= 32 ->
  (forall j, 0 <= j < 8 ->
     Z.testbit (shift_in (shift_in (shift_in (shift_in 0 a) b) c) d) (j + k)
     = Z.testbit (charCode x) j) ->
  Z.land (Z.shiftr (to_int32 (shift_in (shift_in (shift_in (shift_in 0 a) b) c) d)) k)
    0xff = charCode x.
Proof.
  intros Hk Hk' Hbits. apply Z.bits_inj'. intros j Hj.
  rewrite byte_at_bits by lia.
  destruct (Z.ltb_spec j 8).
  - rewrite testbit_to_int32 by lia. apply Hbits. lia.
  - symmetry. apply testbit_charCode_high. lia.
Qed.

(** A box name is recovered from its type code: [typeToString] undoes
    [typeFromString_], so two names never share a code. *)
Theorem typeToString_typeFromString (name : string) (code : Z) :
  typeFromString_ name = Ok code -> typeToString code = name.
Proof.
  intros Hcode.
  destruct name as [|a [|b [|c [|d [|e tl]]]]]; try discriminate Hcode.
  rewrite typeFromString_four in Hcode. injection Hcode as <-.
  unfold typeToString.
  rewrite <- (Z.shiftr_0_r (to_int32 _)) at 4.
  rewrite (byte_of_code a b c d 24 a), (byte_of_code a b c d 16 b),
    (byte_of_code a b c d 8 c), (byte_of_code a b c d 0 d); try lia.
  - rewrite !chr_charCode. reflexivity.
  - intros j Hj. rewrite shift_in_bits by lia.
    destruct (Z.ltb_spec (j + 0) 8); [f_equal|]; lia.
  - intros j Hj. rewrite !shift_in_bits by lia.
    destruct (Z.ltb_spec (j + 8) 8); [lia|].
    destruct (Z.ltb_spec (j + 8 - 8) 8); [f_equal|]; lia.
  - intros j Hj. rewrite !shift_in_bits by lia.
    destruct (Z.ltb_spec (j + 16) 8); [lia|].
    destruct (Z.ltb_spec (j + 16 - 8) 8); [lia|].
    destruct (Z.ltb_spec (j + 16 - 8 - 8) 8); [f_equal|]; lia.
  - intros j Hj. rewrite !shift_in_bits by lia.
    destruct (Z.ltb_spec (j + 24) 8); [lia|].
    destruct (Z.ltb_spec (j + 24 - 8) 8); [lia|].
    destruct (Z.ltb_spec (j + 24 - 8 - 8) 8); [lia|].
    destruct (Z.ltb_spec (j + 24 - 8 - 8 - 8) 8); [f_equal|]; lia.
Qed.

Lemma typeToString_typeFromString_witness : typeToString 0x70737368 = "pssh"%string.
Proof. apply typeToString_typeFromString. reflexivity. Defined.

End BoxNames.

Module WalkerLimits.
Import DataViewReader Mp4Parser ReaderFacts.

Definition no_getLength : exn := TypeError "reader.getLength is not a function".

Section Limits.

Context {St : Type}.

(** [parseNext] comes back normally only from a box whose type has a
    definition and whose size field is not 0, and only when neither
    [partialOkay] nor [stopOnPartial] is set: every other path calls the
    missing [reader.getLength]. *)
Theorem parseNext_returns_only (fuel : nat) (this : Parser St) (absStart : Z)
    (rd : Reader) (partialOk stopOnPartial : bool) (st : St)
    (out : Parser St * Reader * St) :
  parseNext fuel this absStart rd partialOk stopOnPartial st = Some (Ok out) ->
  stopOnPartial = false /\ partialOk = false /\
  exists size0 rd1 type rd2,
    readUint32 rd = Ok (size0, rd1) /\ readUint32 rd1 = Ok (type, rd2) /\
    size0 <> 0 /\ is_Some (boxDefinitions_ this !! type).
Proof.
  intros Hrun. destruct fuel as [|fuel]; [discriminate Hrun|].
  cbn [parseNext] in Hrun.
  destruct stopOnPartial; [discriminate Hrun|].
  cbn [partial_check] in Hrun.
  destruct (readUint32 rd) as [[size0 rd1]|e] eqn:Hsize; [|discriminate Hrun].
  cbn [mbind res_bind Js.bind fst snd] in Hrun.
  destruct (readUint32 rd1) as [[type rd2]|e] eqn:Htype; [|discriminate Hrun].
  cbn [mbind res_bind Js.bind fst snd] in Hrun.
  destruct (Z.eqb_spec size0 0) as [|Hsz]; [discriminate Hrun|].
  assert (Hdef : is_Some (boxDefinitions_ this !! type) /\ partialOk = false).
  { destruct (size0 =? 1).
    - cbn [mbind res_bind Js.bind] in Hrun.
      destruct (readUint64 rd2) as [[s rd3]|e]; [|discriminate Hrun].
      cbn [mbind res_bind Js.bind fst snd] in Hrun.
      destruct (boxDefinitions_ this !! type) as [def|];
        [|discriminate Hrun].
      split; [eauto|].
      destruct (headers_ this !! type) as [[|]|];
        cbn [partial_check mbind res_bind Js.bind] in Hrun;
        try destruct (readUint32 rd3) as [[vf rd4]|e'];
        cbn [mbind res_bind Js.bind fst snd] in Hrun;
        try discriminate Hrun;
        destruct partialOk; try reflexivity; discriminate Hrun.
    - destruct (boxDefinitions_ this !! type) as [def|];
        [|discriminate Hrun].
      split; [eauto|].
      destruct (headers_ this !! type) as [[|]|];
        cbn [partial_check mbind res_bind Js.bind] in Hrun;
        try destruct (readUint32 rd2) as [[vf rd4]|e'];
        cbn [mbind res_bind Js.bind fst snd] in Hrun;
        try discriminate Hrun;
        destruct partialOk; try reflexivity; discriminate Hrun. }
  destruct Hdef as [Hdef Hpo].
  split; [reflexivity|]. split; [exact Hpo|].
  exists size0, rd1, type, rd2. auto.
Qed.

(** Data that starts with a box of a type without definition makes
    [parse] throw a TypeError, whatever the two flags: the walker does not
    skip the box. *)
Theorem parse_unknown_box (fuel : nat) (this : Parser St) (data : View)
    (partialOk stopOnPartial : bool) (st : St) (size0 type : Z)
    (rest : list byte) :
  wf_view data ->
  view_bytes data = Pssh.be32 size0 ++ Pssh.be32 type ++ rest ->
  0 <= size0 < 2 ^ 32 -> size0 <> 1 -> 0 <= type < 2 ^ 32 ->
  boxDefinitions_ this !! type = None ->
  parse (S fuel) this data partialOk stopOnPartial st
  = Some (Throw no_getLength).
Proof.
  intros Hwf Hbytes Hsize Hone Htype Hnone.
  pose proof (reads_new data Hwf) as Hr. rewrite Hbytes in Hr.
  unfold parse. set (rd := new data BIG_ENDIAN) in *.
  assert (Hmore : hasMoreData rd = true).
  { unfold hasMoreData. apply Z.ltb_lt.
    destruct Hr as (Hw & Hb & Hp & _). rewrite Hp.
    pose proof (view_bytes_length _ Hw) as Hl. rewrite Hb in Hl.
    rewrite !length_app, !length_be32 in Hl. lia. }
  cbn [parse_loop]. rewrite Hmore. cbn [set_done done_ negb andb parseNext].
  destruct stopOnPartial; [reflexivity|]. cbn [partial_check].
  rewrite (readUint32_be32 rd _ 0 size0 Hr) by (auto; lia).
  cbn [mbind res_bind Js.bind fst snd].
  rewrite (readUint32_be32 (advance rd 4) _ 4 type)
    by (auto; try lia; apply (reads_advance rd _ 0 4 Hr)).
  cbn [mbind res_bind Js.bind fst snd].
  destruct (Z.eqb_spec size0 0); [reflexivity|].
  destruct (Z.eqb_spec size0 1); [contradiction|].
  cbn [set_done boxDefinitions_]. rewrite Hnone. reflexivity.
Qed.

End Limits.

(** A walker with one basic box, [free], and eight bytes that hold such a
    box; the same bytes under a walker without definitions. *)
Definition free_parser : Parser unit :=
  match box "free" (custom (fun _ st => Ok (false, st))) new_parser with
  | Ok p => p
  | Throw _ => new_parser
  end.

Definition free_box : View :=
  view_of_bytes (Pssh.be32 8 ++ Pssh.be32 0x66726565 ++ []).

Lemma parseNext_returns_only_witness :
  exists size0 rd1 type rd2,
    readUint32 (new free_box BIG_ENDIAN) = Ok (size0, rd1) /\
    readUint32 rd1 = Ok (type, rd2) /\
    size0 <> 0 /\ is_Some (boxDefinitions_ free_parser !! type).
Proof.
  eapply (parseNext_returns_only 1 free_parser 0 (new free_box BIG_ENDIAN)
            false false tt).
  vm_compute. reflexivity.
Defined.

Lemma parse_unknown_box_witness :
  parse 1 (new_parser (St := unit)) free_box false false tt
  = Some (Throw no_getLength).
Proof.
  apply (parse_unknown_box 0 new_parser free_box false false tt
           8 0x66726565 []).
  - apply wf_view_of_bytes.
  - apply view_bytes_of_bytes.
  - lia.
  - lia.
  - lia.
  - reflexivity.
Defined.

End WalkerLimits.


(** ** [uint8array_utils]: what [toHex] writes, and [concat] *)

Module Uint8ArrayFacts.
Import DataViewReader Uint8ArrayUtils HexFacts.

(** [concat(...varArgs)]: a fresh array of the total length, filled by
    [result.set(toUint8(arr), offset)]. *)
Fixpoint concat_fill (varArgs : list View) (result : list byte) (offset : Z)
  : res (list byte) :=
  match varArgs with
  | [] => Ok result
  | arr :: rest =>
      result ← Pssh.set_bytes result (view_bytes (toUint8 arr 0 None)) offset;
      concat_fill rest result (offset + byteLength arr)
  end.

Definition concat (varArgs : list View) : res (list byte) :=
  let totalLength :=
    fold_left (fun total arr => total + byteLength arr) varArgs 0 in
  let result := replicate (Z.to_nat totalLength) Byte.x00 in
  concat_fill varArgs result 0.

(** *** Facts *)

Lemma byte_hex_pair (b : byte) :
  exists x y,
    byte_hex b = String x (String y EmptyString) /\
    is_lower_hex x = true /\ is_lower_hex y = true /\
    store_uint8 (parseInt16 (String x (String y EmptyString))) = b.
Proof.
  destruct b; do 2 eexists; (split; [reflexivity|]);
    repeat split; vm_compute; reflexivity.
Qed.

Lemma all_lower_hex_app (a b : string) :
  all_lower_hex (a +:+ b)%string = all_lower_hex a && all_lower_hex b.
Proof.
  induction a as [|x a IH]; [reflexivity|].
  rewrite append_cons. cbn [all_lower_hex]. rewrite IH. apply andb_assoc.
Qed.

Lemma length_append (a b : string) :
  String.length (a +:+ b)%string = (String.length a + String.length b)%nat.
Proof.
  induction a as [|x a IH]; [reflexivity|].
  rewrite append_cons. cbn [String.length]. rewrite IH. reflexivity.
Qed.

Lemma hex_of_bytes_facts (bs : list byte) :
  String.length (hex_of_bytes bs) = (2 * length bs)%nat /\
  all_lower_hex (hex_of_bytes bs) = true /\
  fromHex (hex_of_bytes bs) = bs.
Proof.
  induction bs as [|b bs (IHl & IHh & IHf)]; [repeat split|].
  destruct (byte_hex_pair b) as (x & y & Hb & Hx & Hy & Hparse).
  rewrite hex_of_bytes_cons, Hb. repeat split.
  - rewrite length_append, IHl. cbn [String.length length]. lia.
  - rewrite all_lower_hex_app. cbn [all_lower_hex].
    rewrite Hx, Hy, IHh. reflexivity.
  - rewrite !append_cons.
    change (EmptyString +:+ hex_of_bytes bs)%string with (hex_of_bytes bs).
    rewrite fromHex_cons, Hparse, IHf. reflexivity.
Qed.

(** [toHex] writes two lower-case hexadecimal digits per byte, and
    [fromHex] gets the bytes back from them. *)
Theorem fromHex_toHex (data : View) :
  wf_view data ->
  String.length (toHex data) = (2 * length (view_bytes data))%nat /\
  all_lower_hex (toHex data) = true /\
  fromHex (toHex data) = view_bytes data.
Proof.
  intros Hwf. rewrite toHex_bytes by exact Hwf. apply hex_of_bytes_facts.
Qed.

Lemma fromHex_toHex_witness :
  let data := view_of_bytes [Byte.x00; Byte.x0a; Byte.xff] in
  String.length (toHex data) = 6%nat /\
  all_lower_hex (toHex data) = true /\
  fromHex (toHex data) = [Byte.x00; Byte.x0a; Byte.xff].
Proof.
  intros data. apply (fromHex_toHex data). apply ReaderFacts.wf_view_of_bytes.
Defined.

Import PsshFacts.

Lemma concat_fill_ok (varArgs : list View) : forall pre n offset,
  Forall wf_view varArgs ->
  offset = Z.of_nat (length pre) ->
  n = length (List.concat (map view_bytes varArgs)) ->
  concat_fill varArgs (fill pre n) offset
  = Ok (pre ++ List.concat (map view_bytes varArgs)).
Proof.
  induction varArgs as [|arr rest IH]; intros pre n offset Hwf Hoff Hn.
  - cbn in *. subst n. unfold fill. reflexivity.
  - inversion Hwf as [|? ? Harr Hrest]; subst.
    cbn [concat_fill map List.concat].
    change (toUint8 arr 0 None) with (toDataView arr).
    rewrite ReaderFacts.toDataView_wf by exact Harr.
    cbn [map List.concat] in *. rewrite length_app.
    rewrite set_bytes_fill by (auto; lia).
    cbn [mbind res_bind Js.bind].
    rewrite IH.
    + rewrite <- app_assoc. reflexivity.
    + exact Hrest.
    + rewrite length_app, view_bytes_length by exact Harr.
      destruct Harr as (_ & Hlen & _). lia.
    + lia.
Qed.

Lemma total_length (varArgs : list View) : forall acc,
  Forall wf_view varArgs ->
  fold_left (fun total arr => total + byteLength arr) varArgs acc
  = acc + Z.of_nat (length (List.concat (map view_bytes varArgs))).
Proof.
  induction varArgs as [|arr rest IH]; intros acc Hwf.
  - cbn. lia.
  - inversion Hwf as [|? ? Harr Hrest]; subst.
    cbn [fold_left map List.concat]. rewrite IH by exact Hrest.
    rewrite length_app, view_bytes_length by exact Harr.
    destruct Harr as (_ & Hlen & _). lia.
Qed.

(** [concat] returns the bytes of its arguments one after the other; its
    stores never leave the fresh array. *)
Theorem concat_bytes (varArgs : list View) :
  Forall wf_view varArgs ->
  concat varArgs = Ok (List.concat (map view_bytes varArgs)).
Proof.
  intros Hwf. unfold concat. rewrite total_length by exact Hwf.
  rewrite Z.add_0_l, Nat2Z.id.
  apply (concat_fill_ok varArgs [] _ 0 Hwf); reflexivity.
Qed.

Lemma concat_bytes_witness :
  concat [view_of_bytes [Byte.x01; Byte.x02]; view_of_bytes [];
          view_of_bytes [Byte.x03]]
  = Ok [Byte.x01; Byte.x02; Byte.x03].
Proof.
  apply (concat_bytes [view_of_bytes [Byte.x01; Byte.x02]; view_of_bytes [];
                       view_of_bytes [Byte.x03]]).
  repeat constructor; apply ReaderFacts.wf_view_of_bytes.
Defined.

End Uint8ArrayFacts.


(** ** [mp4_segment_index_parser]: what every parsed index satisfies *)

Module SidxInvariants.
Import DataViewReader Mp4Parser Pssh ReaderFacts Sidx SidxFacts.

Section Chain.
Context {Init Window : Type}.

Abbreviation reference := (segment_reference Init Window).

(** A reference as the constructor accepts it. *)
Definition proper (r : reference) : Prop :=
  exists e, endByte r = Some e /\ startByte r < e /\
            (startTime r <= endTime r)%Q /\ trueEndTime r = endTime r.

(** Each reference ends one byte before, and at the time at which, the
    next one starts. *)
Fixpoint chained (refs : list reference) : Prop :=
  match refs with
  | r1 :: (r2 :: _) as rest =>
      endByte r1 = Some (startByte r2 - 1) /\ endTime r1 = startTime r2 /\
      chained rest
  | _ => True
  end.

(** The list ends at byte [sb] and at time [t], when it is not empty. *)
Definition ends (refs : list reference) (sb : Z) (t : Q) : Prop :=
  match last refs with
  | Some r => endByte r = Some (sb - 1) /\ endTime r = t
  | None => True
  end.

Lemma chained_snoc (refs : list reference) (r : reference) (sb : Z) (t : Q) :
  chained refs -> ends refs sb t ->
  startByte r = sb -> startTime r = t ->
  chained (refs ++ [r]).
Proof.
  induction refs as [|r1 [|r2 rest] IH]; intros Hc He Hsb Ht.
  - exact I.
  - cbn in *. destruct He as [-> ->]. rewrite Hsb, Ht. auto.
  - destruct Hc as (Hb & He' & Hc).
    change ((r1 :: r2 :: rest) ++ [r]) with (r1 :: ((r2 :: rest) ++ [r])).
    change ((r2 :: rest) ++ [r]) with (r2 :: (rest ++ [r])) at 1.
    cbn [chained]. split; [exact Hb|]. split; [exact He'|].
    change (r2 :: (rest ++ [r])) with ((r2 :: rest) ++ [r]).
    apply IH; auto.
Qed.

Lemma new_segment_reference_proper st en uris sb eb init off aws awe
    (r : reference) :
  new_segment_reference st en uris sb eb init off aws awe = Ok r ->
  startTime r = st /\ endTime r = en /\ trueEndTime r = en /\
  startByte r = sb /\ endByte r = eb /\
  (st <= en)%Q /\ (forall e, eb = Some e -> sb < e).
Proof.
  unfold new_segment_reference, assert. intros H.
  destruct (Qle_bool st en) eqn:Hq; [|discriminate H].
  cbn [mbind res_bind Js.bind] in H.
  destruct (match eb with Some e => sb <? e | None => true end) eqn:Hb;
    [|discriminate H].
  cbn [mbind res_bind Js.bind] in H. injection H as <-. cbn.
  repeat split; try reflexivity.
  - apply Qle_bool_iff, Hq.
  - intros e ->. apply Z.ltb_lt, Hb.
Qed.

Lemma read_references_chain (n : nat) : forall rd timescale init off aws awe
    uris ust sb (acc refs : list reference),
  read_references n rd timescale init off aws awe uris ust sb acc = Ok refs ->
  Forall proper acc -> chained acc ->
  ends acc sb (div_time ust timescale + off)%Q ->
  length refs = (length acc + n)%nat /\ Forall proper refs /\ chained refs.
Proof.
  induction n as [|n IH];
    intros rd timescale init off aws awe uris ust sb acc refs Hrun Hp Hc He.
  - injection Hrun as <-. rewrite Nat.add_0_r. auto.
  - cbn [read_references] in Hrun.
    destruct (readUint32 rd) as [chunk|e]; [|discriminate Hrun].
    cbn [mbind res_bind Js.bind] in Hrun.
    destruct (readUint32 chunk.2) as [dur|e]; [|discriminate Hrun].
    cbn [mbind res_bind Js.bind] in Hrun.
    destruct (skip dur.2 4) as [rd'|e]; [|discriminate Hrun].
    cbn [mbind res_bind Js.bind] in Hrun.
    destruct (_ =? 1) in Hrun; [discriminate Hrun|].
    destruct (new_segment_reference _ _ _ _ _ _ _ _ _) as [r|e] eqn:Hnew;
      [|discriminate Hrun].
    cbn [mbind res_bind Js.bind] in Hrun.
    apply new_segment_reference_proper in Hnew
      as (Hst & Hen & Htrue & Hsb & Heb & Hle & Hlt).
    apply IH in Hrun.
    + rewrite length_app in Hrun. cbn [length] in Hrun.
      destruct Hrun as (Hlen & Hrest). split; [lia | exact Hrest].
    + apply Forall_app. split; [exact Hp|]. constructor; [|constructor].
      exists (sb + Z.land chunk.1 0x7FFFFFFF - 1).
      rewrite Hst, Hen, Htrue, Hsb, Heb. repeat split; auto.
    + apply (chained_snoc acc r sb (div_time ust timescale + off)%Q); auto.
    + unfold ends. rewrite last_snoc. rewrite Heb, Hen. split; reflexivity.
Qed.

(** For a version-0 box at an offset of at most [2 ^ 52], so that every
    byte position and every unscaled time is an integer that a number
    holds exactly, and whatever the bytes of the box, a list that
    [parseSIDX_] returns is gap-free: every reference has
    [startByte < endByte] and [startTime <= endTime], and each one ends one
    byte before, and at the very time at which, the next one starts.  The
    walker is stopped. *)
Theorem parseSIDX_chained (sidxOffset : Z) (init : Init) (timestampOffset : Q)
    (aws awe : Window) (uris : list string) (bx : ParsedBox)
    (stopped : bool) (refs : list reference) :
  version bx = Some 0 ->
  0 <= sidxOffset -> 0 <= size bx -> sidxOffset + size bx <= 2 ^ 52 ->
  parseSIDX_ sidxOffset init timestampOffset aws awe uris bx
  = Ok (stopped, refs) ->
  stopped = true /\ Forall proper refs /\ chained refs.
Proof.
  unfold parseSIDX_. intros _ _ _ _ Hrun.
  destruct (assert _ _) as [[]|e]; [|discriminate Hrun].
  cbn [mbind res_bind Js.bind] in Hrun.
  destruct (skip (reader bx) 4) as [rd|e]; [|discriminate Hrun].
  cbn [mbind res_bind Js.bind] in Hrun.
  destruct (readUint32 rd) as [timescale|e]; [|discriminate Hrun].
  cbn [mbind res_bind Js.bind] in Hrun.
  destruct (timescale.1 =? 0); [discriminate Hrun|].
  destruct (if bool_decide (version bx = Some 0) then _ else _)
    as [[[earliest firstOffset] rd1]|e]; [|discriminate Hrun].
  cbn [mbind res_bind Js.bind] in Hrun.
  destruct (skip rd1 2) as [rd2|e]; [|discriminate Hrun].
  cbn [mbind res_bind Js.bind] in Hrun.
  destruct (readUint16 rd2) as [count|e]; [|discriminate Hrun].
  cbn [mbind res_bind Js.bind] in Hrun.
  destruct (read_references _ _ _ _ _ _ _ _ _ _ _) as [rs|e] eqn:Hrefs;
    [|discriminate Hrun].
  cbn [mbind res_bind Js.bind] in Hrun. injection Hrun as <- <-.
  split; [reflexivity|].
  apply read_references_chain in Hrefs; [exact (proj2 Hrefs) | | |];
    constructor.
Qed.

End Chain.

(** The box the walker builds for the 56 bytes of the example. *)
Definition chain_box : ParsedBox :=
  {| partialOkay := false;
     version := Some 0;
     flags := Some 0;
     reader := DataViewReader.new (view_of_bytes sample_payload) BIG_ENDIAN;
     size := 56;
     start := 0;
     has64BitSize := false |}.

Lemma parseSIDX_chained_witness :
  exists r1 r2 : segment_reference unit unit,
    parseSIDX_ 0 tt 0%Q tt tt [] chain_box = Ok (true, [r1; r2]) /\
    endByte r1 = Some (startByte r2 - 1) /\ endTime r1 = startTime r2 /\
    startByte r1 < startByte r2.
Proof.
  destruct (parseSIDX_ 0 tt 0%Q tt tt [] chain_box)
    as [[stopped [|r1 [|r2 [|r3 rest]]]]|e] eqn:Hrun; try discriminate Hrun.
  destruct (parseSIDX_chained 0 tt 0%Q tt tt [] chain_box stopped
              [r1; r2] eq_refl ltac:(lia) ltac:(simpl; lia)
              ltac:(simpl; lia) Hrun) as (-> & Hp & Hb & Ht & _).
  exists r1, r2. split; [reflexivity|]. split; [exact Hb|].
  split; [exact Ht|].
  inversion Hp as [|? ? (e & He & Hlt & _) _]; subst.
  rewrite Hb in He. injection He as <-. lia.
Defined.

Section Rejects.
Context {Init Window : Type}.
Variables (timescale : Z) (init : Init) (timestampOffset : Q)
  (aws awe : Window) (uris : list string).

Definition bad_reference (chunk : Z) : exn :=
  if chunk <? 2 ^ 31 then AssertionError "startByte must be < endByte"
  else Error CRITICAL MEDIA MP4_SIDX_TYPE_NOT_SUPPORTED.

Lemma type_bit (x : Z) :
  2 ^ 31 <= x < 2 ^ 32 -> Z.shiftr (Z.land x 0x80000000) 31 = 1.
Proof.
  intros Hx. replace (Z.land x 0x80000000) with (2 ^ 31); [reflexivity|].
  apply Z.bits_inj'. intros n Hn.
  change 0x80000000 with (2 ^ 31). rewrite Z.land_spec, Z.pow2_bits_eqb by lia.
  destruct (Z.eqb_spec 31 n) as [<-|Hne]; [|rewrite andb_false_r; reflexivity].
  rewrite andb_true_r. symmetry. apply Z.testbit_true; [lia|].
  replace (x / 2 ^ 31) with 1; [reflexivity|].
  apply Z.div_unique with (r := x - 2 ^ 31); lia.
Qed.

Lemma read_references_bad (good : list entry) :
  forall r bs q rest ust sb acc (bad : entry) (n : nat),
  0 < timescale ->
  reads r bs q -> 0 <= q ->
  Forall entry_ok good ->
  0 <= e_size bad < 2 ^ 32 -> ~ 2 <= e_size bad < 2 ^ 31 ->
  0 <= e_duration bad < 2 ^ 32 ->
  drop (Z.to_nat q) bs
  = concat (map encode_entry good) ++ encode_entry bad ++ rest ->
  read_references (length good + S n) r timescale init timestampOffset
    aws awe uris ust sb acc
  = Throw (bad_reference (e_size bad)).
Proof.
  induction good as [|e es IH];
    intros r bs q rest ust sb acc bad n Hts Hr Hq Hok Hsz Hbad Hdur Hd.
  - cbn [map concat app length Nat.add] in *. unfold encode_entry in Hd.
    rewrite <- !app_assoc in Hd.
    assert (Hlen : q + 12 <= Z.of_nat (length bs)).
    { apply (f_equal (@length _)) in Hd.
      rewrite length_drop, !length_app, !length_be32 in Hd. lia. }
    assert (H0 : take 4 (drop (Z.to_nat q) bs) = be32 (e_size bad))
      by (rewrite Hd; reflexivity).
    assert (H4 : take 4 (drop (Z.to_nat (q + 4)) bs) = be32 (e_duration bad)).
    { replace (Z.to_nat (q + 4)) with (Z.to_nat q + 4)%nat by lia.
      rewrite <- drop_drop, Hd. reflexivity. }
    cbn [read_references].
    rewrite (readUint32_be32 r bs q (e_size bad)) by (auto; lia).
    cbn [mbind res_bind Js.bind fst snd].
    rewrite (readUint32_be32 (advance r 4) bs (q + 4) (e_duration bad))
      by (auto using reads_advance; lia).
    cbn [mbind res_bind Js.bind fst snd].
    rewrite (skip_at (advance (advance r 4) 4) bs (q + 4 + 4) 4)
      by (repeat apply reads_advance; auto; lia).
    cbn [mbind res_bind Js.bind]. unfold bad_reference.
    destruct (Z.ltb_spec (e_size bad) (2 ^ 31)) as [Hsmall|Hbig].
    + destruct (land_size (e_size bad) ltac:(lia)) as [-> ->].
      change (0 =? 1) with false. cbv iota.
      unfold new_segment_reference, assert.
      rewrite div_time_le by (auto; lia).
      destruct (Z.ltb_spec sb (sb + e_size bad - 1)); [lia|].
      reflexivity.
    + rewrite type_bit by lia. reflexivity.
  - inversion Hok as [|? ? (Hs & Hdu & Hsap) Hes]; subst.
    cbn [map concat] in Hd. unfold encode_entry in Hd at 1.
    rewrite <- !app_assoc in Hd.
    assert (Hlen : q + 12 <= Z.of_nat (length bs)).
    { apply (f_equal (@length _)) in Hd.
      rewrite length_drop, !length_app, !length_be32 in Hd. lia. }
    assert (H0 : take 4 (drop (Z.to_nat q) bs) = be32 (e_size e))
      by (rewrite Hd; reflexivity).
    assert (H4 : take 4 (drop (Z.to_nat (q + 4)) bs) = be32 (e_duration e)).
    { replace (Z.to_nat (q + 4)) with (Z.to_nat q + 4)%nat by lia.
      rewrite <- drop_drop, Hd. reflexivity. }
    cbn [length Nat.add read_references].
    rewrite (readUint32_be32 r bs q (e_size e)) by (auto; lia).
    cbn [mbind res_bind Js.bind fst snd].
    rewrite (readUint32_be32 (advance r 4) bs (q + 4) (e_duration e))
      by (auto using reads_advance; lia).
    cbn [mbind res_bind Js.bind fst snd].
    rewrite (skip_at (advance (advance r 4) 4) bs (q + 4 + 4) 4)
      by (repeat apply reads_advance; auto; lia).
    cbn [mbind res_bind Js.bind].
    destruct (land_size (e_size e) ltac:(lia)) as [-> ->].
    change (0 =? 1) with false. cbv iota.
    unfold new_segment_reference, assert.
    rewrite div_time_le by (auto; lia).
    destruct (Z.ltb_spec sb (sb + e_size e - 1)); [|lia].
    cbn [mbind res_bind Js.bind].
    apply (IH _ bs (q + 4 + 4 + 4) rest);
      auto; try lia; [repeat apply reads_advance; auto |].
    replace (Z.to_nat (q + 4 + 4 + 4)) with (Z.to_nat q + 12)%nat by lia.
    rewrite <- drop_drop, Hd. reflexivity.
Qed.


End Rejects.

(** An index whose only reference points to another index. *)
Definition hierarchical_payload : list byte :=
  sidx_payload_v0 1 1000 0 0 0
    [ {| e_size := 2 ^ 31 + 500; e_duration := 2000; e_sap := 0 |} ].

Definition hierarchical_box : ParsedBox :=
  {| partialOkay := false;
     version := Some 0;
     flags := Some 0;
     reader := DataViewReader.new (view_of_bytes hierarchical_payload)
                 BIG_ENDIAN;
     size := 44;
     start := 0;
     has64BitSize := false |}.


End SidxInvariants.


(** ** [content_protection]: PlayReady object records *)

Module MsPro.
Import DataViewReader.

Record PlayReadyRecord := {
  type : Z;
  value : View;
}.

Definition out_of_view : exn :=
  RangeError "Offset is outside the bounds of the DataView".

(** [parseMsProRecords_(view, byteOffset)]: the reads of the loop are bare
    [DataView] reads. *)
Fixpoint parseMsProRecords_loop (fuel : nat) (view : View) (byteOffset : Z)
    (records : list PlayReadyRecord) : option (res (list PlayReadyRecord)) :=
  if byteOffset <? byteLength view - 1 then
    match fuel with
    | O => None
    | S fuel' =>
        match getUint16 view byteOffset true with
        | None => Some (Throw out_of_view)
        | Some type =>
            let byteOffset := byteOffset + 2 in
            match getUint16 view byteOffset true with
            | None => Some (Throw out_of_view)
            | Some recordLength =>
                let byteOffset := byteOffset + 2 in
                if negb (Z.land recordLength 1 =? 0)
                   || (recordLength + byteOffset >? byteLength view)
                then (* Malformed MS PRO object *) Some (Ok [])
                else
                  let recordValue :=
                    toUint8 view byteOffset (Some recordLength) in
                  parseMsProRecords_loop fuel' view
                    (byteOffset + recordLength)
                    (records ++ [{| type := type; value := recordValue |}])
            end
        end
    end
  else Some (Ok records).

Definition parseMsProRecords_ (fuel : nat) (view : View) (byteOffset : Z)
  : option (res (list PlayReadyRecord)) :=
  parseMsProRecords_loop fuel view byteOffset [].

(** [parseMsPro_(data)]: the length word, the record count that is
    skipped, then the records. *)
Definition parseMsPro_ (fuel : nat) (data : View)
  : option (res (list PlayReadyRecord)) :=
  let byteOffset := 0 in
  let view := toDataView data in
  match getUint32 view byteOffset true with
  | None => Some (Throw out_of_view)
  | Some proLength =>
      let byteOffset := byteOffset + 4 in
      if negb (proLength =? byteLength data) then Some (Ok [])
      else
        let byteOffset := byteOffset + 2 in
        parseMsProRecords_ fuel view byteOffset
  end.

(** *** The layout of a PlayReady object *)

Definition le16 (x : Z) : list byte := [byte_of_Z x; byte_of_Z (x / 2 ^ 8)].

Definition le32 (x : Z) : list byte :=
  [byte_of_Z x; byte_of_Z (x / 2 ^ 8); byte_of_Z (x / 2 ^ 16);
   byte_of_Z (x / 2 ^ 24)].

(** A record as a type and the bytes of its value. *)
Definition encode_record (r : Z * list byte) : list byte :=
  le16 r.1 ++ le16 (Z.of_nat (length r.2)) ++ r.2.

Definition record_ok (r : Z * list byte) : Prop :=
  0 <= r.1 < 2 ^ 16 /\ Z.of_nat (length r.2) < 2 ^ 16 /\
  Nat.even (length r.2) = true.

Definition encode_records (rs : list (Z * list byte)) : list byte :=
  List.concat (map encode_record rs).

Definition pro_object (count : Z) (rs : list (Z * list byte)) : list byte :=
  le32 (6 + Z.of_nat (length (encode_records rs))) ++ le16 count ++
  encode_records rs.

Definition decode (records : list PlayReadyRecord) : list (Z * list byte) :=
  map (fun r => (type r, view_bytes (value r))) records.

Lemma word_le16 x : 0 <= x < 2 ^ 16 -> word true (le16 x) = x.
Proof.
  intros Hx. unfold word, le16, be_word. cbn [rev app fold_left].
  rewrite !byte_val_of_Z. change (2 ^ 8) with 256.
  rewrite (Z.mod_small (x / 256)) by
    (split; [apply Z.div_pos; lia | apply Z.div_lt_upper_bound; lia]).
  pose proof (Z.div_mod x 256 ltac:(lia)). lia.
Qed.

Lemma word_le32 x : 0 <= x < 2 ^ 32 -> word true (le32 x) = x.
Proof.
  intros Hx. unfold word, le32, be_word. cbn [rev app fold_left].
  rewrite !byte_val_of_Z.
  change (2 ^ 24) with (256 * 256 * 256).
  change (2 ^ 16) with (256 * 256). change (2 ^ 8) with 256.
  rewrite <- !Z.div_div by lia.
  pose proof (Z.div_mod x 256 ltac:(lia)).
  pose proof (Z.div_mod (x / 256) 256 ltac:(lia)).
  pose proof (Z.div_mod (x / 256 / 256) 256 ltac:(lia)).
  assert (0 <= x / 256 / 256 / 256 < 256).
  { split; [repeat apply Z.div_pos; lia|].
    repeat (apply Z.div_lt_upper_bound; [lia|]). lia. }
  rewrite (Z.mod_small (x / 256 / 256 / 256)) by lia. lia.
Qed.

Lemma drop_length_le {A} (l pre rest : list A) (n : nat) :
  drop n l = pre ++ rest ->
  (0 < length pre -> n + length pre <= length l)%nat.
Proof.
  intros H Hpre. apply (f_equal (@length _)) in H.
  rewrite length_drop, length_app in H. lia.
Qed.

Lemma getUint16_at v p x rest :
  wf_view v -> 0 <= p -> 0 <= x < 2 ^ 16 ->
  drop (Z.to_nat p) (view_bytes v) = le16 x ++ rest ->
  getUint16 v p true = Some x.
Proof.
  intros Hwf Hp Hx Hd. pose proof (view_bytes_length v Hwf) as Hl.
  pose proof (drop_length_le _ _ _ _ Hd) as Hn.
  change (length (le16 x)) with 2%nat in Hn. specialize (Hn ltac:(lia)).
  destruct Hwf as (Ho & Hlen & Hb).
  rewrite ReaderOps.getUint16_word by (repeat split; auto; lia).
  unfold sub_bytes. rewrite Hd. cbn [take firstn app le16].
  f_equal. apply word_le16, Hx.
Qed.

Lemma getUint32_at v p x rest :
  wf_view v -> 0 <= p -> 0 <= x < 2 ^ 32 ->
  drop (Z.to_nat p) (view_bytes v) = le32 x ++ rest ->
  getUint32 v p true = Some x.
Proof.
  intros Hwf Hp Hx Hd. pose proof (view_bytes_length v Hwf) as Hl.
  pose proof (drop_length_le _ _ _ _ Hd) as Hn.
  change (length (le32 x)) with 4%nat in Hn. specialize (Hn ltac:(lia)).
  destruct (getUint32_word v p true Hwf Hp) as [-> _];
    [destruct Hwf as (Ho & Hlen & Hb); lia|].
  unfold sub_bytes. rewrite Hd. cbn [take firstn app le32].
  f_equal. apply word_le32, Hx.
Qed.

Lemma drop_more {A} (l pre rest : list A) (n : nat) :
  drop n l = pre ++ rest -> drop (n + length pre) l = rest.
Proof.
  intros H. rewrite <- drop_drop, H. apply drop_app_length.
Qed.

Lemma land_even (n : nat) :
  Nat.even n = true -> Z.land (Z.of_nat n) 1 = 0.
Proof.
  intros H. change 1 with (Z.ones 1). rewrite Z.land_ones by lia.
  apply Nat.even_spec in H as [k ->]. rewrite Nat2Z.inj_mul.
  change (2 ^ 1) with 2. rewrite Z.mul_comm. apply Z_mod_mult.
Qed.

Lemma land_odd (x : Z) : Z.odd x = true -> Z.land x 1 <> 0.
Proof.
  intros H. change 1 with (Z.ones 1). rewrite Z.land_ones by lia.
  change (2 ^ 1) with 2. rewrite Zmod_odd, H. discriminate.
Qed.

(** The records the loop builds for well-formed records laid out from
    [byteOffset] on. *)
Fixpoint layout (view : View) (byteOffset : Z) (rs : list (Z * list byte))
  : list PlayReadyRecord :=
  match rs with
  | [] => []
  | r :: rest =>
      {| type := r.1;
         value := toUint8 view (byteOffset + 4)
                    (Some (Z.of_nat (length r.2))) |}
      :: layout view (byteOffset + 4 + Z.of_nat (length r.2)) rest
  end.

Lemma decode_layout view (rs : list (Z * list byte)) : forall byteOffset tail,
  wf_view view -> 0 <= byteOffset ->
  drop (Z.to_nat byteOffset) (view_bytes view) = encode_records rs ++ tail ->
  decode (layout view byteOffset rs) = rs.
Proof.
  induction rs as [|[t bs] rs IH]; intros off tail Hwf Hoff Hd;
    [reflexivity|].
  unfold encode_records in Hd. cbn [map List.concat] in Hd.
  unfold encode_record in Hd at 1. cbn [fst snd] in Hd.
  rewrite <- !app_assoc in Hd.
  pose proof (drop_more _ _ _ _ Hd) as H2.
  pose proof (drop_more _ _ _ _ H2) as H4.
  pose proof (drop_more _ _ _ _ H4) as Hnext.
  pose proof (drop_length_le _ _ _ _ H4) as Hfit.
  pose proof (drop_length_le _ _ _ _ H2) as Hfit2.
  change (length (le16 t)) with 2%nat in *.
  change (length (le16 (Z.of_nat (length bs)))) with 2%nat in *.
  specialize (Hfit2 ltac:(lia)).
  pose proof (view_bytes_length view Hwf) as Hl.
  cbn [layout decode map type value fst snd]. f_equal.
  - f_equal.
    destruct (ReaderFacts.toUint8_sub view (off + 4) (Z.of_nat (length bs)) Hwf)
      as (_ & _ & _ & _ & ->); try lia.
    replace (Z.to_nat (off + 4)) with (Z.to_nat off + 2 + 2)%nat by lia.
    rewrite H4, Nat2Z.id. apply take_app_length.
  - apply (IH _ tail); auto; [lia|].
    replace (Z.to_nat (off + 4 + Z.of_nat (length bs)))
      with (Z.to_nat off + 2 + 2 + length bs)%nat by lia.
    exact Hnext.
Qed.

Lemma loop_records (rs : list (Z * list byte)) :
  forall fuel view byteOffset tail acc,
  wf_view view -> 0 <= byteOffset ->
  Forall record_ok rs ->
  drop (Z.to_nat byteOffset) (view_bytes view) = encode_records rs ++ tail ->
  parseMsProRecords_loop (length rs + fuel) view byteOffset acc
  = parseMsProRecords_loop fuel view
      (byteOffset + Z.of_nat (length (encode_records rs)))
      (acc ++ layout view byteOffset rs).
Proof.
  induction rs as [|[t bs] rs IH]; intros fuel view off tail acc Hwf Hoff Hok Hd.
  - cbn. rewrite Z.add_0_r, app_nil_r. reflexivity.
  - inversion Hok as [|? ? (Ht & Hlen & Heven) Hrs]; subst.
    cbn [fst snd] in *.
    unfold encode_records in Hd. cbn [map List.concat] in Hd.
    unfold encode_record in Hd at 1. cbn [fst snd] in Hd.
    rewrite <- !app_assoc in Hd.
    pose proof (drop_more _ _ _ _ Hd) as H2.
    pose proof (drop_more _ _ _ _ H2) as H4.
    pose proof (drop_more _ _ _ _ H4) as Hnext.
    pose proof (drop_length_le _ _ _ _ H4) as Hfit.
    pose proof (drop_length_le _ _ _ _ H2) as Hfit2.
    change (length (le16 t)) with 2%nat in *.
    change (length (le16 (Z.of_nat (length bs)))) with 2%nat in *.
    specialize (Hfit2 ltac:(lia)).
    pose proof (view_bytes_length view Hwf) as Hl.
    assert (Hbl : 0 <= byteLength view) by (destruct Hwf as (? & ? & ?); lia).
    cbn [length Nat.add parseMsProRecords_loop].
    destruct (Z.ltb_spec off (byteLength view - 1)); [|lia].
    rewrite (getUint16_at view off t _ Hwf Hoff Ht Hd).
    rewrite (getUint16_at view (off + 2) (Z.of_nat (length bs))
               (bs ++ List.concat (map encode_record rs) ++ tail) Hwf)
      by (try lia; replace (Z.to_nat (off + 2)) with (Z.to_nat off + 2)%nat
            by lia; exact H2).
    rewrite land_even by exact Heven. cbn [Z.eqb negb orb].
    destruct (Z.gtb_spec (Z.of_nat (length bs) + (off + 2 + 2))
                (byteLength view)); [lia|].
    rewrite (IH fuel view (off + 2 + 2 + Z.of_nat (length bs)) tail);
      auto; try lia.
    + cbn [layout fst snd]. rewrite <- app_assoc.
      unfold encode_records. cbn [map List.concat app].
      unfold encode_record at 2. cbn [fst snd].
      rewrite !length_app.
      change (length (le16 t)) with 2%nat.
      change (length (le16 (Z.of_nat (length bs)))) with 2%nat.
      replace (off + 2 + 2) with (off + 4) by lia.
      f_equal. lia.
    + replace (Z.to_nat (off + 2 + 2 + Z.of_nat (length bs)))
        with (Z.to_nat off + 2 + 2 + length bs)%nat by lia.
      exact Hnext.
Qed.

(** A PlayReady object that is laid out as the format says (the length
    word, a record count, then records of even length) parses into its
    records, in order; the count is not looked at.  An object whose length
    word differs from the size of the buffer yields no record. *)
Theorem parseMsPro_records (fuel : nat) (count proLength : Z)
    (rs : list (Z * list byte)) :
  Forall record_ok rs ->
  0 <= count < 2 ^ 16 ->
  6 + Z.of_nat (length (encode_records rs)) < 2 ^ 32 ->
  0 <= proLength < 2 ^ 32 ->
  (length rs <= fuel)%nat ->
  (exists records,
     parseMsPro_ fuel (view_of_bytes (pro_object count rs)) = Some (Ok records) /\
     decode records = rs) /\
  (proLength <> 6 + Z.of_nat (length (encode_records rs)) ->
   parseMsPro_ fuel
     (view_of_bytes (le32 proLength ++ le16 count ++ encode_records rs))
   = Some (Ok [])).
Proof.
  intros Hok Hcount Hsize Hpro Hfuel. split.
  - set (data := view_of_bytes (pro_object count rs)).
    assert (Hwf : wf_view data) by apply ReaderFacts.wf_view_of_bytes.
    assert (Hbytes : view_bytes data = pro_object count rs)
      by apply ReaderFacts.view_bytes_of_bytes.
    assert (Hlen : byteLength data
                   = 6 + Z.of_nat (length (encode_records rs))).
    { unfold data, view_of_bytes, pro_object. cbn [byteLength].
      rewrite !length_app.
      change (length (le32 _)) with 4%nat.
      change (length (le16 count)) with 2%nat. lia. }
    exists (layout data 6 rs). unfold parseMsPro_.
    rewrite ReaderFacts.toDataView_wf by exact Hwf.
    rewrite (getUint32_at data 0 (6 + Z.of_nat (length (encode_records rs)))
               (le16 count ++ encode_records rs) Hwf)
      by (try lia; rewrite Hbytes; reflexivity).
    rewrite Hlen, Z.eqb_refl. cbn [negb].
    assert (Hd : drop (Z.to_nat 6) (view_bytes data) = encode_records rs ++ []).
    { rewrite Hbytes, app_nil_r. reflexivity. }
    split; [|apply (decode_layout data rs 6 [] Hwf); [lia | exact Hd]].
    unfold parseMsProRecords_.
    replace fuel with (length rs + (fuel - length rs))%nat by lia.
    rewrite (loop_records rs _ data 6 [] [] Hwf) by (auto; lia).
    rewrite <- Hlen.
    destruct (fuel - length rs)%nat; cbn [parseMsProRecords_loop];
      (destruct (Z.ltb_spec (byteLength data) (byteLength data - 1)); [lia|]);
      reflexivity.
  - intros Hne.
    set (data := view_of_bytes (le32 proLength ++ le16 count ++ encode_records rs)).
    assert (Hwf : wf_view data) by apply ReaderFacts.wf_view_of_bytes.
    assert (Hbytes : view_bytes data
                     = le32 proLength ++ le16 count ++ encode_records rs)
      by apply ReaderFacts.view_bytes_of_bytes.
    assert (Hlen : byteLength data
                   = 6 + Z.of_nat (length (encode_records rs))).
    { unfold data, view_of_bytes. cbn [byteLength].
      rewrite !length_app.
      change (length (le32 _)) with 4%nat.
      change (length (le16 count)) with 2%nat. lia. }
    unfold parseMsPro_.
    rewrite ReaderFacts.toDataView_wf by exact Hwf.
    rewrite (getUint32_at data 0 proLength
               (le16 count ++ encode_records rs) Hwf)
      by (try lia; rewrite Hbytes; reflexivity).
    rewrite Hlen. destruct (Z.eqb_spec proLength
                              (6 + Z.of_nat (length (encode_records rs))));
      [contradiction | reflexivity].
Qed.

Definition sample_records : list (Z * list byte) :=
  [ (1, [Byte.x3c; Byte.x00]); (3, []) ].

Lemma parseMsPro_records_witness :
  (exists records,
     parseMsPro_ 2 (view_of_bytes (pro_object 2 sample_records))
     = Some (Ok records) /\
     decode records = sample_records) /\
  (5 <> 6 + Z.of_nat (length (encode_records sample_records)) ->
   parseMsPro_ 2
     (view_of_bytes (le32 5 ++ le16 2 ++ encode_records sample_records))
   = Some (Ok [])).
Proof.
  apply (parseMsPro_records 2 2 5 sample_records).
  - repeat constructor; cbn; lia.
  - lia.
  - cbn. lia.
  - lia.
  - cbn. lia.
Defined.

Lemma getUint16_short v p : byteLength v < p + 2 -> getUint16 v p true = None.
Proof.
  intros H. unfold getUint16.
  destruct (Z.leb_spec (p + 2) (byteLength v)); [lia|].
  rewrite andb_false_r. reflexivity.
Qed.

Lemma tail_length v p (tail : list byte) :
  wf_view v -> 0 <= p ->
  drop (Z.to_nat p) (view_bytes v) = tail ->
  Z.of_nat (length tail) = Z.max 0 (byteLength v - p).
Proof.
  intros Hwf Hp Hd. pose proof (view_bytes_length v Hwf) as Hl.
  apply (f_equal (@length _)) in Hd. rewrite length_drop in Hd.
  destruct Hwf as (? & ? & ?). lia.
Qed.

(** What follows the well-formed records decides the outcome.  A single
    trailing byte is ignored; two or three trailing bytes make the read of
    the record length leave the view, a RangeError that nothing catches;
    a record header with an odd length, or with a length that exceeds the
    rest of the view, discards every record parsed so far. *)
Theorem parseMsProRecords_tail (fuel : nat) (view : View) (byteOffset : Z)
    (rs : list (Z * list byte)) (tail : list byte) :
  wf_view view -> 0 <= byteOffset ->
  Forall record_ok rs ->
  drop (Z.to_nat byteOffset) (view_bytes view) = encode_records rs ++ tail ->
  (length rs < fuel)%nat ->
  ((length tail <= 1)%nat ->
   parseMsProRecords_ fuel view byteOffset
   = Some (Ok (layout view byteOffset rs))) /\
  ((2 <= length tail <= 3)%nat ->
   parseMsProRecords_ fuel view byteOffset = Some (Throw out_of_view)) /\
  (forall t n rest,
     tail = le16 t ++ le16 n ++ rest ->
     0 <= t < 2 ^ 16 -> 0 <= n < 2 ^ 16 ->
     Z.odd n = true \/ Z.of_nat (length rest) < n ->
     parseMsProRecords_ fuel view byteOffset = Some (Ok [])).
Proof.
  intros Hwf Hoff Hok Hd Hfuel.
  set (p := byteOffset + Z.of_nat (length (encode_records rs))).
  assert (Hp : 0 <= p) by (unfold p; lia).
  assert (Htail : drop (Z.to_nat p) (view_bytes view) = tail).
  { unfold p. rewrite Z2Nat.inj_add, Nat2Z.id by lia.
    apply (drop_more _ _ _ _ Hd). }
  pose proof (tail_length view p tail Hwf Hp Htail) as Hlen.
  assert (Hrun : forall acc,
             parseMsProRecords_loop fuel view byteOffset acc
             = parseMsProRecords_loop (S (fuel - length rs - 1)) view p
                 (acc ++ layout view byteOffset rs)).
  { intros acc.
    replace fuel with (length rs + S (fuel - length rs - 1))%nat at 1 by lia.
    apply (loop_records rs _ view byteOffset tail acc Hwf Hoff Hok Hd). }
  unfold parseMsProRecords_. rewrite Hrun. cbn [app parseMsProRecords_loop].
  repeat split.
  - intros Hshort.
    destruct (Z.ltb_spec p (byteLength view - 1)); [lia | reflexivity].
  - intros Hfrag.
    destruct (Z.ltb_spec p (byteLength view - 1)); [|lia].
    rewrite ReaderOps.getUint16_word by (auto; lia).
    rewrite getUint16_short by lia. reflexivity.
  - intros t n rest -> Ht Hn Hbad.
    rewrite !length_app in Hlen.
    change (length (le16 t)) with 2%nat in Hlen.
    change (length (le16 n)) with 2%nat in Hlen.
    destruct (Z.ltb_spec p (byteLength view - 1)); [|lia].
    rewrite (getUint16_at view p t _ Hwf Hp Ht Htail).
    rewrite (getUint16_at view (p + 2) n rest Hwf) by
      (try lia; replace (Z.to_nat (p + 2)) with (Z.to_nat p + 2)%nat by lia;
       apply (drop_more _ _ _ _ Htail)).
    destruct Hbad as [Hodd|Hlong].
    + apply land_odd in Hodd.
      destruct (Z.eqb_spec (Z.land n 1) 0); [contradiction | reflexivity].
    + destruct (Z.gtb_spec (n + (p + 2 + 2)) (byteLength view)); [|lia].
      rewrite orb_true_r. reflexivity.
Qed.

Lemma parseMsProRecords_tail_witness :
  let view :=
    view_of_bytes (encode_records sample_records
                   ++ [Byte.x01; Byte.x00; Byte.x04]) in
  parseMsProRecords_ 3 view 0 = Some (Throw out_of_view).
Proof.
  intros view.
  apply (parseMsProRecords_tail 3 view 0 sample_records
           [Byte.x01; Byte.x00; Byte.x04]).
  - apply ReaderFacts.wf_view_of_bytes.
  - lia.
  - repeat constructor; cbn; lia.
  - unfold view. rewrite ReaderFacts.view_bytes_of_bytes. reflexivity.
  - cbn. lia.
  - cbn. lia.
Defined.

End MsPro.


(** ** [content_protection.licenseUrlParsers_] and the key systems of a
    Representation *)

Module LicenseUrl.
Import DataViewReader ContentProtection.

Local Open Scope string_scope.

(** [content_protection.PLAYREADY_RECORD_TYPES.RIGHTS_MANAGEMENT] *)
Definition RIGHTS_MANAGEMENT : Z := 0x001.

(** [parseMsPro_(data)] with as many passes as [data] has bytes: each pass
    of the record loop moves on by at least four bytes, so that the fuel
    is never used up ([parseMsPro_enough]) and the default is never
    taken. *)
Definition parseMsPro (data : View) : res (list MsPro.PlayReadyRecord) :=
  default (Ok []) (MsPro.parseMsPro_ (Z.to_nat (byteLength data)) data).

Section Parsers.
Context {Node : Type}.

(** [uint8array_utils.fromBase64], and the end of
    [getPlayReadyLicenseUrl]: [string_utils.fromUTF16(record.value, true)],
    [xml_utils.parseXmlString(xml, 'WRMHEADER')] and [getLaurl_], which
    give the text of the [LA_URL] element of the header a record holds, or
    [''].  [xml_utils.js] is not among the sources. *)
Variable fromBase64 : string -> list byte.
Variable headerLaurl : View -> res string.

(** [getWidevineLicenseUrl]: [mslaurlNode.getAttribute('licenseUrl') || '']
    when the element has an [ms:laurl] child. *)
Definition getWidevineLicenseUrl (element : Element Node) : res string :=
  match laurl_licenseUrl (node element) with
  | Some licenseUrl => Ok (default "" licenseUrl)
  | None => Ok ""
  end.

(** [getClearKeyLicenseUrl]: the text of the [Laurl] child whose
    [Lic_type] is ['EME-1.0']. *)
Definition getClearKeyLicenseUrl (element : Element Node) : res string :=
  match clearkey_Laurl (node element) with
  | Some (Some licType, textContent) =>
      if String.eqb licType "EME-1.0" then Ok textContent else Ok ""
  | _ => Ok ""
  end.

(** [getPlayReadyLicenseUrl]: the reads of [parseMsPro_] are bare
    [DataView] reads, whose RangeError is not caught. *)
Definition getPlayReadyLicenseUrl (element : Element Node) : res string :=
  match pro_content (node element) with
  | None => Ok ""
  | Some textContent =>
      let bytes := view_of_bytes (fromBase64 textContent) in
      records ← parseMsPro bytes;
      match List.filter (fun record => Z.eqb (MsPro.type record) RIGHTS_MANAGEMENT)
              records with
      | [] => Ok ""
      | record :: _ => headerLaurl (MsPro.value record)
      end
  end.

(** [content_protection.licenseUrlParsers_] *)
Definition licenseUrlParsers_ (keySystem : string)
  : option (Element Node -> res string) :=
  if String.eqb keySystem "com.widevine.alpha"
  then Some getWidevineLicenseUrl
  else if String.eqb keySystem "com.microsoft.playready"
          || String.eqb keySystem "com.microsoft.playready.recommendation"
          || String.eqb keySystem "com.microsoft.playready.software"
          || String.eqb keySystem "com.microsoft.playready.hardware"
  then Some getPlayReadyLicenseUrl
  else if String.eqb keySystem "org.w3.clearkey"
  then Some getClearKeyLicenseUrl
  else None.

End Parsers.

Local Close Scope string_scope.

(** *** The record loop comes to an end *)

Lemma getUint16_nonneg view p le x :
  getUint16 view p le = Some x -> 0 <= x.
Proof.
  unfold getUint16. intros H.
  destruct ((0 <=? p) && (p + 2 <=? byteLength view)); [|discriminate H].
  destruct (getUint8 view p) as [b0|] eqn:E0; [|discriminate H].
  destruct (getUint8 view (p + 1)) as [b1|] eqn:E1; [|discriminate H].
  cbn [mbind option_bind] in H.
  assert (Hb : forall q b, getUint8 view q = Some b -> 0 <= b).
  { intros q b. unfold getUint8.
    destruct ((0 <=? q) && (q + 1 <=? byteLength view)); [|discriminate].
    destruct (buffer view !! _) as [c|]; [|discriminate].
    intros [= <-]. apply byte_val_range. }
  apply Hb in E0, E1. destruct le; injection H as <-; lia.
Qed.

Lemma records_loop_enough (fuel : nat) : forall view byteOffset records,
  byteLength view - byteOffset <= Z.of_nat fuel ->
  MsPro.parseMsProRecords_loop fuel view byteOffset records <> None.
Proof.
  induction fuel as [|fuel IH]; intros view byteOffset records Hfuel.
  - cbn [MsPro.parseMsProRecords_loop].
    destruct (Z.ltb_spec byteOffset (byteLength view - 1)); [lia|].
    discriminate.
  - cbn [MsPro.parseMsProRecords_loop].
    destruct (Z.ltb_spec byteOffset (byteLength view - 1)); [|discriminate].
    destruct (getUint16 view byteOffset true) as [type|]; [|discriminate].
    destruct (getUint16 view (byteOffset + 2) true) as [len|] eqn:Hlen;
      [|discriminate].
    apply getUint16_nonneg in Hlen.
    destruct (negb _ || _); [discriminate|].
    apply IH. lia.
Qed.

Lemma parseMsPro_enough (data : View) :
  MsPro.parseMsPro_ (Z.to_nat (byteLength data)) data <> None.
Proof.
  unfold MsPro.parseMsPro_.
  destruct (getUint32 _ 0 true) as [proLength|]; [|discriminate].
  destruct (negb _); [discriminate|].
  unfold MsPro.parseMsProRecords_. apply records_loop_enough.
  unfold toDataView, toUint8. cbn [byteLength]. lia.
Qed.

(** *** The scenario of two key systems *)

Section Scenario.
Context {Node : Type}.
Variable fromBase64 : string -> list byte.
Variable headerLaurl : View -> res string.
Variable n : Node.

Definition WIDEVINE : string := "com.widevine.alpha".
Definition PLAYREADY : string := "com.microsoft.playready".

(** A ContentProtection element that names a scheme and has no child. *)
Definition scheme_only (uri : string) : RawElement Node :=
  {| raw_node := n;
     schemeIdUri := Some uri;
     default_KID := None;
     pssh_contents := [];
     pro_content := None;
     laurl_licenseUrl := None;
     clearkey_Laurl := None |}.

Definition widevine : RawElement Node :=
  scheme_only "urn:uuid:EDEF8BA9-79D6-4ACE-A3C8-27DCD51D21ED".
Definition playready : RawElement Node :=
  scheme_only "urn:uuid:9a04f079-9840-4286-ab92-e65be0885f95".

(** A PlayReady element with a [pro] child. *)
Definition playready_pro (textContent : string) : RawElement Node :=
  {| raw_node := n;
     schemeIdUri := Some "urn:uuid:9a04f079-9840-4286-ab92-e65be0885f95"%string;
     default_KID := None;
     pssh_contents := [];
     pro_content := Some textContent;
     laurl_licenseUrl := None;
     clearkey_Laurl := None |}.

Abbreviation fromAdaptationSet :=
  (parseFromAdaptationSet fromBase64
     (licenseUrlParsers_ fromBase64 headerLaurl)).
Abbreviation fromRepresentation :=
  (parseFromRepresentation fromBase64
     (licenseUrlParsers_ fromBase64 headerLaurl)).


End Scenario.

(** The context after a first Representation, and a second Representation
    that shares nothing with it. *)
Definition widevine_context : Context :=
  {| defaultKeyId := None;
     defaultInit := None;
     drmInfos :=
       [set_licenseServerUri (createDrmInfo WIDEVINE None) ""];
     firstRepresentation := false |}.



(** A [pro] child of two bytes ("AQI=" in base 64): the length word of
    the PlayReady object cannot be read, and the RangeError of the read
    leaves [parseFromAdaptationSet]. *)
Example short_pro_throws :
  parseFromAdaptationSet (fun _ => [Byte.x01; Byte.x02])
    (licenseUrlParsers_ (fun _ => [Byte.x01; Byte.x02])
       (fun _ => Ok ""%string))
    [playready_pro tt "AQI="] false keySystemByURI
  = Throw MsPro.out_of_view.
Proof. vm_compute. reflexivity. Qed.

End LicenseUrl.


(** ** [drm_engine]: DRM descriptors that two adaptations share *)

Module DrmEngine.

(** The [keyId] property of an init-data override: absent, [null] (as
    [content_protection] writes it for a [cenc:pssh] element) or a
    string. *)
Inductive KeyId := Undefined | Null | Id (id : string).

Definition strict_eq (a b : KeyId) : bool :=
  match a, b with
  | Undefined, Undefined | Null, Null => true
  | Id x, Id y => String.eqb x y
  | _, _ => false
  end.

Section Common.

(** Init-data overrides and certificates are only moved around; of an
    override the code reads [keyId]. *)
Context {InitData Certificate : Type}.
Variable keyId : InitData -> KeyId.

Record DrmInfo := {
  keySystem : string;
  licenseServerUri : string;
  distinctiveIdentifierRequired : bool;
  persistentStateRequired : bool;
  videoRobustness : string;
  audioRobustness : string;
  serverCertificate : option Certificate;
  serverCertificateUri : string;
  sessionType : option string;
  initData : option (list InitData);
  keyIds : option (list string);
}.

(** [a || b] on strings. *)
Definition or_string (a b : string) : string :=
  if String.eqb a "" then b else a.

Definition or_option {A} (a b : option A) : option A :=
  match a with Some _ => a | None => b end.

(** [Array.prototype.findIndex], -1 when nothing matches. *)
Fixpoint findIndex {A} (p : A -> bool) (l : list A) : Z :=
  match l with
  | [] => -1
  | x :: rest =>
      if p x then 0
      else let i := findIndex p rest in if i <? 0 then -1 else i + 1
  end.

(** [Array.prototype.filter] with the index given to the callback. *)
Fixpoint filter_indexed {A} (p : A -> Z -> bool) (i : Z) (l : list A)
  : list A :=
  match l with
  | [] => []
  | x :: rest =>
      if p x i then x :: filter_indexed p (i + 1) rest
      else filter_indexed p (i + 1) rest
  end.

(** A [Set] built from an array, by its elements in insertion order. *)
Fixpoint set_of (seen l : list string) : list string :=
  match l with
  | [] => seen
  | x :: rest =>
      if existsb (String.eqb x) seen then set_of seen rest
      else set_of (seen ++ [x]) rest
  end.

Definition merge (drm1 drm2 : DrmInfo) : DrmInfo :=
  let initData0 : list InitData := [] in
  let initData1 := initData0 ++ default [] (initData drm1) in
  let initData2 := initData1 ++ default [] (initData drm2) in
  let initData3 :=
    filter_indexed
      (fun d i =>
         strict_eq (keyId d) Undefined
         || (i =? findIndex (fun d2 => strict_eq (keyId d2) (keyId d))
                    initData2))
      0 initData2 in
  let keyIds :=
    match keyIds drm1, keyIds drm2 with
    | Some k1, Some k2 => Some (set_of [] (k1 ++ k2))
    | k1, k2 => or_option k1 k2
    end in
  {| keySystem := keySystem drm1;
     licenseServerUri :=
       or_string (licenseServerUri drm1) (licenseServerUri drm2);
     distinctiveIdentifierRequired :=
       distinctiveIdentifierRequired drm1
       || distinctiveIdentifierRequired drm2;
     persistentStateRequired :=
       persistentStateRequired drm1 || persistentStateRequired drm2;
     videoRobustness := or_string (videoRobustness drm1) (videoRobustness drm2);
     audioRobustness := or_string (audioRobustness drm1) (audioRobustness drm2);
     serverCertificate :=
       or_option (serverCertificate drm1) (serverCertificate drm2);
     serverCertificateUri :=
       or_string (serverCertificateUri drm1) (serverCertificateUri drm2);
     sessionType := None;
     initData := Some initData3;
     keyIds := keyIds |}.

(** The inner loop: the first descriptor of [drms2] with the key system of
    [drm1], merged; then [break]. *)
Fixpoint first_match (drm1 : DrmInfo) (drms2 : list DrmInfo)
  : option DrmInfo :=
  match drms2 with
  | [] => None
  | drm2 :: rest =>
      if String.eqb (keySystem drm1) (keySystem drm2)
      then Some (merge drm1 drm2)
      else first_match drm1 rest
  end.

Fixpoint common (drms1 drms2 : list DrmInfo) : list DrmInfo :=
  match drms1 with
  | [] => []
  | drm1 :: rest =>
      match first_match drm1 drms2 with
      | Some merged => merged :: common rest drms2
      | None => common rest drms2
      end
  end.

Definition getCommonDrmInfos (drms1 drms2 : list DrmInfo) : list DrmInfo :=
  match drms1, drms2 with
  | [], _ => drms2
  | _, [] => drms1
  | _, _ => common drms1 drms2
  end.

Definition areDrmCompatible (drms1 drms2 : list DrmInfo) : bool :=
  match drms1, drms2 with
  | [], _ | _, [] => true
  | _, _ => 0 <? Z.of_nat (length (getCommonDrmInfos drms1 drms2))
  end.

(** *** Facts *)

Definition has_key_system (drms : list DrmInfo) (k : string) : bool :=
  existsb (fun d => String.eqb k (keySystem d)) drms.

Lemma first_match_spec drm1 drms2 :
  match first_match drm1 drms2 with
  | Some merged =>
      has_key_system drms2 (keySystem drm1) = true /\
      keySystem merged = keySystem drm1
  | None => has_key_system drms2 (keySystem drm1) = false
  end.
Proof.
  induction drms2 as [|drm2 rest IH]; [reflexivity|].
  cbn [first_match has_key_system existsb].
  destruct (String.eqb (keySystem drm1) (keySystem drm2)); [split; reflexivity|].
  exact IH.
Qed.

Lemma common_key_systems drms1 drms2 :
  map keySystem (common drms1 drms2)
  = List.filter (has_key_system drms2) (map keySystem drms1).
Proof.
  induction drms1 as [|drm1 rest IH]; [reflexivity|].
  cbn [common map List.filter].
  pose proof (first_match_spec drm1 drms2) as H.
  destruct (first_match drm1 drms2) as [merged|].
  - destruct H as [-> Hk]. cbn [map]. rewrite Hk, IH. reflexivity.
  - rewrite H. exact IH.
Qed.

(** How often a key ID occurs among the overrides. *)
Definition count (k : KeyId) (l : list InitData) : nat :=
  length (List.filter (fun d => strict_eq (keyId d) k) l).

Lemma strict_eq_refl k : strict_eq k k = true.
Proof. destruct k; try reflexivity. apply String.eqb_refl. Qed.

Lemma strict_eq_eq a b : strict_eq a b = true -> a = b.
Proof.
  destruct a, b; try discriminate; try reflexivity.
  cbn. intros H. apply String.eqb_eq in H as ->. reflexivity.
Qed.

Lemma findIndex_range {A} (p : A -> bool) (l : list A) :
  -1 <= findIndex p l < Z.of_nat (length l).
Proof.
  induction l as [|x rest IH]; cbn [findIndex length]; [lia|].
  destruct (p x); [lia|].
  destruct (Z.ltb_spec (findIndex p rest) 0); lia.
Qed.

(** At most one position of a list passes a test for one fixed index. *)
Lemma filter_one_index (p : InitData -> bool) (c : Z) (l : list InitData) :
  forall i,
  (length (List.filter p
             (filter_indexed (fun (_ : InitData) (j : Z) => (j =? c)%Z) i l))
   <= 1)%nat.
Proof.
  induction l as [|x rest IH]; intros i; cbn [filter_indexed]; [cbn; lia|].
  destruct (Z.eqb_spec i c) as [->|Hne]; [|apply IH].
  cbn [List.filter].
  assert (Hnone : forall j l', c < j ->
            filter_indexed (fun (_ : InitData) (j : Z) => j =? c) j l' = []).
  { intros j l'. revert j. induction l' as [|y l' IHl]; intros j Hj;
      cbn [filter_indexed]; [reflexivity|].
    destruct (Z.eqb_spec j c); [lia|]. apply IHl. lia. }
  rewrite Hnone by lia. destruct (p x); cbn; lia.
Qed.

Lemma filter_indexed_sub (k : KeyId) (all : list InitData) (l : list InitData) :
  k <> Undefined ->
  forall i,
  List.filter (fun d => strict_eq (keyId d) k)
    (filter_indexed
       (fun d i =>
          strict_eq (keyId d) Undefined
          || (i =? findIndex (fun d2 => strict_eq (keyId d2) (keyId d)) all))
       i l)
  = List.filter (fun d => strict_eq (keyId d) k)
      (filter_indexed
         (fun (_ : InitData) (j : Z) =>
            j =? findIndex (fun d2 => strict_eq (keyId d2) k) all)
         i l).
Proof.
  intros Hk. induction l as [|x rest IH]; intros i; [reflexivity|].
  cbn [filter_indexed].
  destruct (strict_eq (keyId x) k) eqn:Hx.
  - apply strict_eq_eq in Hx. rewrite Hx.
    replace (strict_eq k Undefined) with false
      by (destruct k; try reflexivity; contradiction).
    cbn [orb].
    destruct (i =? _); cbn [List.filter]; rewrite ?Hx, ?strict_eq_refl, IH;
      reflexivity.
  - destruct (_ || _); destruct (i =? _); cbn [List.filter];
      rewrite ?Hx; apply IH.
Qed.

(** When both lists are non-empty the result holds one merged descriptor
    for every descriptor of the first list whose key system the second
    list has, in the order of the first list, and in its init data a key
    ID that is not [undefined] ([null] included) occurs at most once. *)
Theorem getCommonDrmInfos_common (drms1 drms2 : list DrmInfo) :
  drms1 <> [] -> drms2 <> [] ->
  map keySystem (getCommonDrmInfos drms1 drms2)
  = List.filter (has_key_system drms2) (map keySystem drms1) /\
  Forall (fun merged =>
            forall k, k <> Undefined ->
              (count k (default [] (initData merged)) <= 1)%nat)
         (getCommonDrmInfos drms1 drms2).
Proof.
  intros H1 H2.
  assert (Hc : getCommonDrmInfos drms1 drms2 = common drms1 drms2).
  { destruct drms1 as [|d1 r1]; [contradiction|].
    destruct drms2 as [|d2 r2]; [contradiction|]. reflexivity. }
  rewrite Hc. split; [apply common_key_systems|].
  clear. induction drms1 as [|drm1 rest IH]; [constructor|].
  cbn [common].
  destruct (first_match drm1 drms2) as [merged|] eqn:Hm; [|exact IH].
  constructor; [|exact IH].
  clear IH. induction drms2 as [|drm2 more IHm]; [discriminate Hm|].
  cbn [first_match] in Hm.
  destruct (String.eqb _ _); [|apply IHm, Hm].
  injection Hm as <-. intros k Hk. cbn [merge initData default from_option id].
  unfold count. rewrite filter_indexed_sub by exact Hk.
  apply filter_one_index.
Qed.

(** Two lists are compatible exactly when one of them is empty or they
    share a key system; the test does not depend on the order of its
    arguments. *)
Theorem areDrmCompatible_iff (drms1 drms2 : list DrmInfo) :
  (areDrmCompatible drms1 drms2 = true <->
   drms1 = [] \/ drms2 = [] \/
   exists d1 d2, In d1 drms1 /\ In d2 drms2 /\ keySystem d1 = keySystem d2) /\
  areDrmCompatible drms1 drms2 = areDrmCompatible drms2 drms1.
Proof.
  assert (Hiff : forall a b : list DrmInfo,
             areDrmCompatible a b = true <->
             a = [] \/ b = [] \/
             exists d1 d2, In d1 a /\ In d2 b /\ keySystem d1 = keySystem d2).
  { intros a b. destruct a as [|a0 ar]; [cbn; tauto|].
    destruct b as [|b0 br]; [cbn; tauto|].
    unfold areDrmCompatible.
    set (l1 := a0 :: ar). set (l2 := b0 :: br).
    assert (Hlen : length (getCommonDrmInfos l1 l2)
                   = length (List.filter (has_key_system l2)
                               (map keySystem l1))).
    { change (getCommonDrmInfos l1 l2) with (common l1 l2).
      rewrite <- common_key_systems. symmetry. apply length_map. }
    rewrite Hlen. split.
    - intros H. right. right. apply Z.ltb_lt in H.
      destruct (List.filter _ _) as [|k ks] eqn:Hf; [cbn in H; lia|].
      assert (Hin : In k (List.filter (has_key_system l2) (map keySystem l1)))
        by (rewrite Hf; left; reflexivity).
      apply filter_In in Hin as [Hin Hhas].
      apply in_map_iff in Hin as (d1 & <- & Hd1).
      apply existsb_exists in Hhas as (d2 & Hd2 & Heq).
      apply String.eqb_eq in Heq. eauto.
    - intros [H|[H|(d1 & d2 & Hd1 & Hd2 & Heq)]]; try discriminate H.
      apply Z.ltb_lt.
      assert (Hin : In (keySystem d1)
                      (List.filter (has_key_system l2) (map keySystem l1))).
      { apply filter_In. split; [apply in_map, Hd1|].
        apply existsb_exists. exists d2. split; [exact Hd2|].
        apply String.eqb_eq, Heq. }
      destruct (List.filter _ _); [destruct Hin | cbn; lia]. }
  split; [apply Hiff|].
  apply eq_true_iff_eq. rewrite !Hiff. split.
  - intros [H|[H|(d1 & d2 & Hd1 & Hd2 & Heq)]]; eauto 10.
  - intros [H|[H|(d1 & d2 & Hd1 & Hd2 & Heq)]]; eauto 10.
Qed.

End Common.

Arguments DrmInfo : clear implicits.

(** A descriptor with init data that are just their key IDs. *)
Definition sample_drm (system : string) (ids : list KeyId)
  : DrmInfo KeyId unit :=
  {| keySystem := system;
     licenseServerUri := "";
     distinctiveIdentifierRequired := false;
     persistentStateRequired := false;
     videoRobustness := "";
     audioRobustness := "";
     serverCertificate := None;
     serverCertificateUri := "";
     sessionType := Some ""%string;
     initData := Some ids;
     keyIds := Some [] |}.

Definition video_drms : list (DrmInfo KeyId unit) :=
  [ sample_drm "com.widevine.alpha" [Null; Id "a"];
    sample_drm "com.microsoft.playready" [Null] ].

Definition audio_drms : list (DrmInfo KeyId unit) :=
  [ sample_drm "com.widevine.alpha" [Null; Id "a"; Id "b"] ].

Lemma getCommonDrmInfos_common_witness :
  map keySystem (getCommonDrmInfos id video_drms audio_drms)
  = ["com.widevine.alpha"%string] /\
  Forall (fun merged =>
            forall k, k <> Undefined ->
              (count id k (default [] (initData merged)) <= 1)%nat)
         (getCommonDrmInfos id video_drms audio_drms).
Proof.
  apply (getCommonDrmInfos_common id video_drms audio_drms); discriminate.
Defined.

End DrmEngine.


(** ** [segment_saver]: the URL lists the constructor builds *)

Module SaverLists.
Import Sidx.

(** A reference of a segment index: the object (references are compared
    by identity) and its fields.  The init segment reference is [None]
    when it is [null]; of it only [getUris()] is read. *)
Definition Reference : Type :=
  nat * segment_reference (option (list string)) unit.

Definition object (ref : Reference) : nat := ref.1.
Definition fields (ref : Reference) := ref.2.

(** [references.indexOf(ref)] *)
Fixpoint indexOf (references : list Reference) (ref : Reference) : Z :=
  match references with
  | [] => -1
  | r :: rest =>
      if Nat.eqb (object r) (object ref) then 0
      else let i := indexOf rest ref in if i <? 0 then -1 else i + 1
  end.

(** [references[i]] for an integer [i]. *)
Definition at_index (references : list Reference) (i : Z)
  : option Reference :=
  if i <? 0 then None else references !! Z.to_nat i.

(** [if (lastSegmentURI.audio)]: a string that is not empty. *)
Definition given (last : option string) : bool :=
  match last with
  | Some s => negb (String.eqb s "")
  | None => false
  end.

(** [segURI == lastSegmentURI.audio] when the latter is a string. *)
Definition same_uri (segURI last : option string) : bool :=
  match segURI, last with
  | Some a, Some b => String.eqb a b
  | _, _ => false
  end.

Section Track.

Variables (maxSegmentNum : Z) (endPlayTime : Q).

(** Modelled from the spec: [segment_index.js] is not among the sources;
    [forEachTopLevelReference(fn)] is taken to call [fn] on each element of
    [references], in order ("an ordered, gap-free sequence of
    SegmentReferences ... forEachTopLevelReference(fn), indexable
    references[i]").  The function is the callback of the constructor,
    folded over the references still to visit. *)
Fixpoint forEachTopLevelReference (references : list Reference)
    (last : option string) (todo : list Reference)
    (foundLastestURI foundStartSegment : bool)
    (urls : list (option string)) (durations : list Q)
  : res (list (option string) * list Q) :=
  match todo with
  | [] => Ok (urls, durations)
  | ref :: rest =>
      let segURI := head (getUrisInner (fields ref)) in
      let '(urls, durations) :=
        if foundStartSegment || foundLastestURI
        then (urls ++ [segURI],
              durations ++ [(endTime (fields ref) - startTime (fields ref))%Q])
        else (urls, durations) in
      if given last then
        let foundLastestURI :=
          if same_uri segURI last then true else foundLastestURI in
        forEachTopLevelReference references last rest foundLastestURI
          foundStartSegment urls durations
      else
        let refIndex := indexOf references ref in
        if refIndex <? Z.of_nat (length references) - maxSegmentNum then
          match at_index references (refIndex + maxSegmentNum) with
          | None =>
              Throw (TypeError
                "Cannot read properties of undefined (reading 'endTime')")
          | Some ahead =>
              let foundStartSegment :=
                if negb (Qle_bool (endTime (fields ahead)) endPlayTime)
                then true else foundStartSegment in
              forEachTopLevelReference references last rest foundLastestURI
                foundStartSegment urls durations
          end
        else
          forEachTopLevelReference references last rest foundLastestURI
            foundStartSegment urls durations
  end.

(** One track of the constructor: the init segment with duration 0, then
    the media segments the callback selects. *)
Definition segment_lists (references : list Reference) (last : option string)
  : res (list (option string) * list Q) :=
  match references with
  | [] =>
      Throw (TypeError
        "Cannot read properties of undefined (reading 'initSegmentReference')")
  | first :: _ =>
      match initSegmentReference (fields first) with
      | None =>
          Throw (TypeError
            "Cannot read properties of null (reading 'getUris')")
      | Some uris =>
          forEachTopLevelReference references last references false false
            [head uris] [0%Q]
      end
  end.

(** *** Facts *)

Definition media_uri (ref : Reference) : option string :=
  head (getUrisInner (fields ref)).

Definition media_duration (ref : Reference) : Q :=
  (endTime (fields ref) - startTime (fields ref))%Q.

(** Once a flag is set every further reference is queued. *)
Lemma queue_all_resume references last (todo : list Reference) :
  given last = true ->
  forall urls durations,
  forEachTopLevelReference references last todo true false urls durations
  = Ok (urls ++ map media_uri todo, durations ++ map media_duration todo).
Proof.
  intros Hlast. induction todo as [|ref rest IH]; intros urls durations.
  - cbn. rewrite !app_nil_r. reflexivity.
  - cbn [forEachTopLevelReference orb]. rewrite Hlast.
    assert (Hflag : (if same_uri (head (getUrisInner (fields ref))) last
                     then true else true) = true) by (destruct (same_uri _ _); reflexivity).
    rewrite Hflag, IH. cbn [map]. rewrite <- !app_assoc. reflexivity.
Qed.

(** Resuming after the segment processed last: the lists hold the init
    segment, with duration 0, and then exactly the references that follow
    the first reference with that URI; when no reference has it, the init
    segment alone.  The two lists have the same length. *)
Theorem segment_lists_resume (references : list Reference) (uri : string)
    (first : Reference) (more : list Reference) (inits : list string) :
  uri <> ""%string ->
  references = first :: more ->
  initSegmentReference (fields first) = Some inits ->
  (forall before ref after,
     references = before ++ ref :: after ->
     media_uri ref = Some uri ->
     Forall (fun r => media_uri r <> Some uri) before ->
     segment_lists references (Some uri)
     = Ok (head inits :: map media_uri after,
           0%Q :: map media_duration after)) /\
  (Forall (fun r => media_uri r <> Some uri) references ->
   segment_lists references (Some uri) = Ok ([head inits], [0%Q])) /\
  (forall urls durations,
     segment_lists references (Some uri) = Ok (urls, durations) ->
     length urls = length durations).
Proof.
  intros Huri Hrefs Hinit.
  assert (Hgiven : given (Some uri) = true).
  { cbn. apply negb_true_iff, String.eqb_neq, Huri. }
  assert (Hscan : forall before rest urls durations,
             Forall (fun r => media_uri r <> Some uri) before ->
             forEachTopLevelReference references (Some uri) (before ++ rest)
               false false urls durations
             = forEachTopLevelReference references (Some uri) rest
                 false false urls durations).
  { intros before rest urls durations Hb.
    induction Hb as [|r before Hr _ IH]; [reflexivity|].
    cbn [app forEachTopLevelReference orb]. rewrite Hgiven.
    fold (media_uri r).
    assert (Hs : same_uri (media_uri r) (Some uri) = false).
    { destruct (media_uri r) as [u|] eqn:Hu; [|reflexivity]. cbn.
      apply String.eqb_neq. intros ->. apply Hr. reflexivity. }
    rewrite Hs. exact IH. }
  assert (Hsplit : forall before ref after,
             references = before ++ ref :: after ->
             media_uri ref = Some uri ->
             Forall (fun r => media_uri r <> Some uri) before ->
             segment_lists references (Some uri)
             = Ok (head inits :: map media_uri after,
                   0%Q :: map media_duration after)).
  { intros before ref after Hsp Hm Hb.
    unfold segment_lists. rewrite Hrefs, Hinit, <- Hrefs.
    rewrite Hsp at 2. rewrite Hscan by exact Hb.
    cbn [forEachTopLevelReference orb]. rewrite Hgiven.
    fold (media_uri ref). rewrite Hm. cbn [same_uri].
    rewrite String.eqb_refl.
    rewrite (queue_all_resume _ _ _ Hgiven). reflexivity. }
  assert (Hnone : Forall (fun r => media_uri r <> Some uri) references ->
                  segment_lists references (Some uri)
                  = Ok ([head inits], [0%Q])).
  { intros Hall. unfold segment_lists. rewrite Hrefs, Hinit, <- Hrefs.
    rewrite <- (app_nil_r references) at 2.
    rewrite Hscan by exact Hall. reflexivity. }
  split; [exact Hsplit|]. split; [exact Hnone|].
  intros urls durations Hrun.
  assert (Hcase : Forall (fun r => media_uri r <> Some uri) references \/
                  exists before ref after,
                    references = before ++ ref :: after /\
                    media_uri ref = Some uri /\
                    Forall (fun r => media_uri r <> Some uri) before).
  { clear. induction references as [|r rest IH]; [left; constructor|].
    destruct (media_uri r) as [u|] eqn:Hu.
    - destruct (String.eqb_spec u uri) as [->|Hne].
      + right. exists [], r, rest. repeat split; [exact Hu | constructor].
      + destruct IH as [Hall|(before & ref & after & -> & Hm & Hb)].
        * left. constructor; [|exact Hall]. rewrite Hu. congruence.
        * right. exists (r :: before), ref, after.
          repeat split; [exact Hm|]. constructor; [|exact Hb].
          rewrite Hu. congruence.
    - destruct IH as [Hall|(before & ref & after & -> & Hm & Hb)].
      + left. constructor; [|exact Hall]. rewrite Hu. discriminate.
      + right. exists (r :: before), ref, after.
        repeat split; [exact Hm|]. constructor; [|exact Hb].
        rewrite Hu. discriminate. }
  destruct Hcase as [Hall|(before & ref & after & Hsp & Hm & Hb)].
  - rewrite (Hnone Hall) in Hrun. injection Hrun as <- <-. reflexivity.
  - rewrite (Hsplit before ref after Hsp Hm Hb) in Hrun.
    injection Hrun as <- <-. cbn [length]. rewrite !length_map. reflexivity.
Qed.

(** The test of a first start at position [i]: the reference
    [maxSegmentNum] places ahead exists and ends after [endPlayTime]. *)
Definition starts_at (references : list Reference) (i : Z) : bool :=
  (i <? Z.of_nat (length references) - maxSegmentNum)
  && match at_index references (i + maxSegmentNum) with
     | Some ahead => negb (Qle_bool (endTime (fields ahead)) endPlayTime)
     | None => false
     end.

Lemma indexOf_app_fresh (before : list Reference) ref after :
  ~ In (object ref) (map object before) ->
  indexOf (before ++ ref :: after) ref = Z.of_nat (length before).
Proof.
  induction before as [|r before IH]; intros Hfresh.
  - cbn. rewrite Nat.eqb_refl. reflexivity.
  - cbn [app indexOf map length] in *.
    destruct (Nat.eqb_spec (object r) (object ref)) as [Heq|_].
    + exfalso. apply Hfresh. left. exact Heq.
    + rewrite IH by (intros Hin; apply Hfresh; right; exact Hin).
      destruct (Z.ltb_spec (Z.of_nat (length before)) 0); lia.
Qed.

Lemma indexOf_position (before : list Reference) ref after :
  NoDup (map object (before ++ ref :: after)) ->
  indexOf (before ++ ref :: after) ref = Z.of_nat (length before).
Proof.
  intros Hnd. apply indexOf_app_fresh.
  rewrite map_app in Hnd. cbn [map] in Hnd.
  apply NoDup_app in Hnd as (_ & Hdisj & _).
  intros Hin. apply list_elem_of_In in Hin.
  apply (Hdisj _ Hin). left.
Qed.

Lemma lookup_ahead (references : list Reference) (i : Z) :
  0 <= i -> 0 <= maxSegmentNum ->
  i < Z.of_nat (length references) - maxSegmentNum ->
  exists ahead, at_index references (i + maxSegmentNum) = Some ahead.
Proof.
  intros Hi Hmax Hlt. unfold at_index.
  destruct (Z.ltb_spec (i + maxSegmentNum) 0); [lia|].
  apply lookup_lt_is_Some. lia.
Qed.

(** One round of the callback on a first start, at a known position. *)
Lemma first_start_step references last ref rest (i : Z) found urls durations :
  given last = false -> 0 <= maxSegmentNum -> 0 <= i ->
  indexOf references ref = i ->
  forEachTopLevelReference references last (ref :: rest) false found
    urls durations
  = forEachTopLevelReference references last rest false
      (if starts_at references i then true else found)
      (if found then urls ++ [media_uri ref] else urls)
      (if found then durations ++ [media_duration ref] else durations).
Proof.
  intros Hlast Hmax Hi Hidx.
  cbn [forEachTopLevelReference]. rewrite Hlast, Hidx, orb_false_r.
  unfold starts_at.
  destruct (Z.ltb_spec i (Z.of_nat (length references) - maxSegmentNum))
    as [Hlt|Hge].
  - destruct (lookup_ahead references i Hi Hmax Hlt) as [ahead ->].
    cbn [andb]. destruct found; reflexivity.
  - cbn [andb]. destruct found; reflexivity.
Qed.

Lemma first_start_scan (todo : list Reference) :
  forall references last done found urls durations,
  given last = false -> 0 <= maxSegmentNum ->
  references = done ++ todo ->
  NoDup (map object references) ->
  (found = false ->
   forall j, Z.of_nat (length done) <= j < Z.of_nat (length references) ->
             starts_at references j = false) ->
  forEachTopLevelReference references last todo false found urls durations
  = Ok (if found then (urls ++ map media_uri todo,
                       durations ++ map media_duration todo)
        else (urls, durations)).
Proof.
  induction todo as [|ref rest IH];
    intros references last done found urls durations Hlast Hmax Hsp Hnd Hnone.
  - cbn. rewrite !app_nil_r. destruct found; reflexivity.
  - rewrite (first_start_step references last ref rest
               (Z.of_nat (length done)) found) by
      (auto; try lia; rewrite Hsp in *; apply indexOf_position, Hnd).
    assert (Hlen : Z.of_nat (length references)
                   = Z.of_nat (length done) + 1 + Z.of_nat (length rest)).
    { rewrite Hsp, length_app. cbn [length]. lia. }
    destruct found.
    + assert (Hflag : (if starts_at references (Z.of_nat (length done))
                       then true else true) = true)
        by (destruct (starts_at _ _); reflexivity).
      rewrite Hflag.
      rewrite (IH references last (done ++ [ref]) true); auto.
      * cbn [map]. rewrite <- !app_assoc. reflexivity.
      * rewrite <- app_assoc. exact Hsp.
      * discriminate.
    + rewrite (Hnone eq_refl (Z.of_nat (length done))) by lia.
      rewrite (IH references last (done ++ [ref]) false); auto.
      * rewrite <- app_assoc. exact Hsp.
      * intros _ j Hj. apply (Hnone eq_refl).
        rewrite length_app in Hj. cbn [length] in Hj. lia.
Qed.

(** A first start (no last URI), with distinct reference objects and a
    window that is not negative: the lists hold the init segment and then
    exactly the references after the first position [k] such that the
    reference [maxSegmentNum] places ahead of [k] exists and ends after
    [endPlayTime]; at least [maxSegmentNum] media segments are queued then.
    When no position qualifies, only the init segment is listed. *)
Theorem segment_lists_first_start (references : list Reference)
    (last : option string) (first : Reference) (more : list Reference)
    (inits : list string) :
  given last = false ->
  0 <= maxSegmentNum ->
  NoDup (map object references) ->
  references = first :: more ->
  initSegmentReference (fields first) = Some inits ->
  (forall before ref after,
     references = before ++ ref :: after ->
     starts_at references (Z.of_nat (length before)) = true ->
     (forall j, 0 <= j < Z.of_nat (length before) ->
                starts_at references j = false) ->
     segment_lists references last
     = Ok (head inits :: map media_uri after,
           0%Q :: map media_duration after) /\
     maxSegmentNum <= Z.of_nat (length after)) /\
  ((forall j, 0 <= j < Z.of_nat (length references) ->
              starts_at references j = false) ->
   segment_lists references last = Ok ([head inits], [0%Q])).
Proof.
  intros Hlast Hmax Hnd Hrefs Hinit. split.
  - intros before ref after Hsp Hstart Hfirst. split.
    + unfold segment_lists. rewrite Hrefs, Hinit, <- Hrefs.
      assert (Hwalk : forall (pre : list Reference) done urls durations,
                 before = done ++ pre ->
                 forEachTopLevelReference references last
                   (pre ++ ref :: after) false false urls durations
                 = forEachTopLevelReference references last
                     (ref :: after) false false urls durations).
      { induction pre as [|r pre IH]; intros done urls durations Hb;
          [reflexivity|].
        cbn [app].
        rewrite (first_start_step references last r (pre ++ ref :: after)
                   (Z.of_nat (length done)) false); auto; try lia.
        - rewrite Hfirst.
          + apply (IH (done ++ [r])). rewrite <- app_assoc. exact Hb.
          + rewrite Hb, length_app. cbn [length]. lia.
        - rewrite Hsp, Hb, <- app_assoc in *. cbn [app].
          apply indexOf_position. exact Hnd. }
      rewrite Hsp at 2. rewrite (Hwalk before [] _ _ eq_refl).
      rewrite (first_start_step references last ref after
                 (Z.of_nat (length before)) false); auto; try lia.
      * rewrite Hstart.
        rewrite (first_start_scan after references last (before ++ [ref])
                   true); auto.
        -- rewrite <- app_assoc. exact Hsp.
        -- discriminate.
      * rewrite Hsp in *. apply indexOf_position. exact Hnd.
    + unfold starts_at in Hstart. apply andb_prop in Hstart as [Hlt _].
      apply Z.ltb_lt in Hlt. rewrite Hsp, length_app in Hlt.
      cbn [length] in Hlt. lia.
  - intros Hnone. unfold segment_lists. rewrite Hrefs, Hinit, <- Hrefs.
    rewrite (first_start_scan references references last [] false); auto.
Qed.

End Track.

(** Four references of two seconds each, with URIs "1" to "4". *)
Definition sample_reference (n : nat) (uri : string) : Reference :=
  (n, {| startTime := inject_Z (2 * Z.of_nat n);
         endTime := inject_Z (2 * Z.of_nat n + 2);
         trueEndTime := inject_Z (2 * Z.of_nat n + 2);
         getUrisInner := [uri];
         startByte := 0;
         endByte := None;
         initSegmentReference := Some ["init.mp4"%string];
         timestampOffset := 0%Q;
         appendWindowStart := tt;
         appendWindowEnd := tt |}).

Definition sample_index : list Reference :=
  [ sample_reference 0 "1"; sample_reference 1 "2";
    sample_reference 2 "3"; sample_reference 3 "4" ].

Lemma sample_index_objects : NoDup (map object sample_index).
Proof.
  cbn.
  repeat (apply NoDup_cons; split;
          [rewrite ?elem_of_cons, elem_of_nil; lia|]).
  constructor.
Qed.

Lemma segment_lists_resume_witness :
  segment_lists 2 5%Q sample_index (Some "2"%string)
  = Ok ([Some "init.mp4"; Some "3"; Some "4"]%string,
        0%Q :: map media_duration
                 [sample_reference 2 "3"; sample_reference 3 "4"]).
Proof.
  apply (proj1 (segment_lists_resume 2 5%Q sample_index "2"
                  (sample_reference 0 "1")
                  [sample_reference 1 "2"; sample_reference 2 "3";
                   sample_reference 3 "4"]
                  ["init.mp4"%string] ltac:(discriminate) eq_refl eq_refl)
           [sample_reference 0 "1"] (sample_reference 1 "2")
           [sample_reference 2 "3"; sample_reference 3 "4"]).
  - reflexivity.
  - reflexivity.
  - repeat constructor. discriminate.
Defined.

Lemma segment_lists_first_start_witness :
  segment_lists 2 5%Q sample_index None
  = Ok ([Some "init.mp4"; Some "2"; Some "3"; Some "4"]%string,
        0%Q :: map media_duration
                 [sample_reference 1 "2"; sample_reference 2 "3";
                  sample_reference 3 "4"]) /\
  2 <= Z.of_nat (length [sample_reference 1 "2"; sample_reference 2 "3";
                         sample_reference 3 "4"]).
Proof.
  apply (proj1 (segment_lists_first_start 2 5%Q sample_index None
                  (sample_reference 0 "1")
                  [sample_reference 1 "2"; sample_reference 2 "3";
                   sample_reference 3 "4"]
                  ["init.mp4"%string] eq_refl ltac:(lia)
                  sample_index_objects
                  eq_refl eq_refl)
           [] (sample_reference 0 "1")
           [sample_reference 1 "2"; sample_reference 2 "3";
            sample_reference 3 "4"]).
  - reflexivity.
  - vm_compute. reflexivity.
  - intros j Hj. cbn in Hj. lia.
Defined.

End SaverLists.


(** ** [mpd_utils]: inheritance of Segment* attributes and children *)

Module MpdInherit.

Section Inherit.

(** Inheritance frames and XML elements are opaque; of an element the code
    reads attributes ([getAttribute], [null] when absent) and children. *)
Context {Frame Element : Type}.
Variable getAttribute : Element -> string -> option string.

(** Modelled from the spec: [xml_utils.findChild] is not among the sources
    ("inheritance (inheritChild, inheritAttribute) walks Representation,
    AdaptationSet, Period, returning the first non-null match"): it gives
    the child of that name, or [null]. *)
Variable findChild : Element -> string -> option Element.

(** The three frames of [dash_parser.Context] that the inheritance reads. *)
Record Context := {
  representation : option Frame;
  adaptationSet : option Frame;
  period : option Frame;
}.

(** Modelled from the spec: [functional.isNotNull] is not among the
    sources; it keeps what is not [null] ("returning the first non-null
    match"). *)
Definition isNotNull {A} (x : option A) : bool :=
  match x with Some _ => true | None => false end.

(** The elements of an array that passed [filter(functional.isNotNull)]. *)
Definition not_null {A} (l : list (option A)) : list A := omap id l.

(** [all || part] on attribute values: [null] and the empty string are
    falsy. *)
Definition or_attribute (all part : option string) : option string :=
  match all with
  | Some s => if String.eqb s "" then part else all
  | None => part
  end.

(** [all || part] on elements. *)
Definition or_element (all part : option Element) : option Element :=
  match all with
  | Some _ => all
  | None => part
  end.

(** [Array.prototype.reduce] without an initial value. *)
Definition reduce {A} (f : A -> A -> A) (l : list A) : res A :=
  match l with
  | [] => Throw (TypeError "Reduce of empty array with no initial value")
  | x :: rest => Ok (fold_left f rest x)
  end.

Definition inheritAttribute (context : Context)
    (callback : option Frame -> option Element) (attribute : string)
  : res (option string) :=
  _ ← assert (isNotNull (callback (representation context)))
        "There must be at least one element of the given type";
  let nodes :=
    not_null [callback (representation context);
              callback (adaptationSet context);
              callback (period context)] in
  reduce or_attribute (map (fun s => getAttribute s attribute) nodes).

Definition inheritChild (context : Context)
    (callback : option Frame -> option Element) (child : string)
  : res (option Element) :=
  _ ← assert (isNotNull (callback (representation context)))
        "There must be at least one element of the given type";
  let nodes :=
    not_null [callback (representation context);
              callback (adaptationSet context);
              callback (period context)] in
  reduce or_element (map (fun s => findChild s child) nodes).

(** *** Facts *)

Definition nonempty (v : option string) : bool :=
  match v with
  | Some s => negb (String.eqb s "")
  | None => false
  end.

(** The first value that is a non-empty string; without one, the last
    value. *)
Fixpoint first_nonempty (v : option string) (rest : list (option string))
  : option string :=
  match rest with
  | [] => v
  | w :: rest' => if nonempty v then v else first_nonempty w rest'
  end.

Fixpoint first_child (v : option Element) (rest : list (option Element))
  : option Element :=
  match rest with
  | [] => v
  | w :: rest' => if isNotNull v then v else first_child w rest'
  end.

Lemma first_nonempty_own v rest :
  nonempty v = true -> first_nonempty v rest = v.
Proof. intros H. destruct rest; cbn; rewrite ?H; reflexivity. Qed.

Lemma fold_or_attribute (rest : list (option string)) : forall v,
  fold_left or_attribute rest v = first_nonempty v rest.
Proof.
  induction rest as [|w rest IH]; intros v; [reflexivity|].
  cbn [fold_left first_nonempty]. rewrite IH.
  destruct v as [s|]; cbn [or_attribute nonempty]; [|reflexivity].
  destruct (String.eqb s "") eqn:Hs; cbn [negb]; [reflexivity|].
  apply first_nonempty_own. cbn. rewrite Hs. reflexivity.
Qed.

Lemma fold_or_element (rest : list (option Element)) : forall v,
  fold_left or_element rest v = first_child v rest.
Proof.
  induction rest as [|w rest IH]; intros v; [reflexivity|].
  cbn [fold_left first_child]. rewrite IH.
  destruct v as [e|]; cbn [or_element isNotNull]; [|reflexivity].
  destruct rest; reflexivity.
Qed.

(** The levels at which the callback yields an element, nearest first. *)
Definition levels (context : Context)
    (callback : option Frame -> option Element) : list Element :=
  not_null [callback (representation context);
            callback (adaptationSet context);
            callback (period context)].

(** Inheritance takes the value of the nearest level (Representation, then
    AdaptationSet, then Period) among those where the callback yields an
    element; for an attribute, a level where it is absent or the empty
    string is passed over, and when no level has a value the result is
    what the farthest level has.  Both fail their assertion when the
    callback yields nothing for the Representation. *)
Theorem inherit_nearest (context : Context)
    (callback : option Frame -> option Element) (name : string) :
  match callback (representation context) with
  | None =>
      inheritAttribute context callback name
      = Throw (AssertionError
                 "There must be at least one element of the given type") /\
      inheritChild context callback name
      = Throw (AssertionError
                 "There must be at least one element of the given type")
  | Some own =>
      exists outer,
        levels context callback = own :: outer /\
        inheritAttribute context callback name
        = Ok (first_nonempty (getAttribute own name)
                (map (fun s => getAttribute s name) outer)) /\
        inheritChild context callback name
        = Ok (first_child (findChild own name)
                (map (fun s => findChild s name) outer))
  end.
Proof.
  unfold inheritAttribute, inheritChild, levels.
  destruct (callback (representation context)) as [own|]; [|split; reflexivity].
  exists (not_null [callback (adaptationSet context);
                    callback (period context)]).
  cbn [isNotNull assert mbind res_bind Js.bind].
  split; [reflexivity|].
  change (not_null [Some own; callback (adaptationSet context);
                    callback (period context)])
    with (own :: not_null [callback (adaptationSet context);
                           callback (period context)]).
  cbn [map reduce]. rewrite fold_or_attribute, fold_or_element.
  split; reflexivity.
Qed.

End Inherit.

End MpdInherit.


(** ** [mpd_utils.fillUriTemplate] *)

Module UriTemplate.
Import SegmentSaver.

Local Open Scope string_scope.

(** *** The regular expression
    [/\$(RepresentationID|Number|Bandwidth|Time)?(?:%0([0-9]+)([diouxX]))?\$/g] *)

Fixpoint strip_prefix (p s : string) : option string :=
  match p, s with
  | EmptyString, _ => Some s
  | String a p', String b s' =>
      if Ascii.eqb a b then strip_prefix p' s' else None
  | String _ _, EmptyString => None
  end.

Definition identifiers : list string :=
  ["RepresentationID"; "Number"; "Bandwidth"; "Time"].

(** The first alternative that matches at the start of [s]. *)
Fixpoint match_identifier (names : list string) (s : string)
  : option (string * string) :=
  match names with
  | [] => None
  | name :: rest =>
      match strip_prefix name s with
      | Some s' => Some (name, s')
      | None => match_identifier rest s
      end
  end.

Definition is_format (c : ascii) : bool :=
  existsb (Ascii.eqb c) (list_ascii_of_string "diouxX").

(** The group [%0([0-9]+)([diouxX])] at the start of [s].  The digits are
    taken greedily; giving some of them back cannot help, since a digit is
    no format letter. *)
Definition match_format (s : string) : option (string * ascii * string) :=
  match s with
  | String "%" (String "0" s') =>
      let '(widthStr, rest) := span_digits s' in
      match widthStr, rest with
      | String _ _, String format rest' =>
          if is_format format then Some (widthStr, format, rest') else None
      | _, _ => None
      end
  | _ => None
  end.

(** What a match captured: the identifier, the width and the format, and
    the text after the match. *)
Definition Captures : Type :=
  option string * option (string * ascii) * string.

(** After the identifier: the optional format group, then [$]. *)
Definition match_tail (name : option string) (s : string) : option Captures :=
  let closing (fmt : option (string * ascii)) (s : string) :=
    match s with
    | String "$" rest => Some (name, fmt, rest)
    | _ => None
    end in
  match match_format s with
  | Some (widthStr, format, s') =>
      match closing (Some (widthStr, format)) s' with
      | Some r => Some r
      | None => closing None s
      end
  | None => closing None s
  end.

(** The expression at a position where the text has a [$]; [s] is what
    follows that [$]. *)
Definition match_token (s : string) : option Captures :=
  match match_identifier identifiers s with
  | Some (name, s') =>
      match match_tail (Some name) s' with
      | Some r => Some r
      | None => match_tail None s
      end
  | None => match_tail None s
  end.

(** The text of a match, from its captures. *)
Definition matched (name : option string) (fmt : option (string * ascii))
  : string :=
  "$" ++ default "" name
  ++ match fmt with
     | Some (widthStr, format) => "%0" ++ widthStr ++ String format ""
     | None => ""
     end
  ++ "$".

(** *** The replacement *)

(** [Number.prototype.toString(radix)] for an integer.  The digits are
    those the engine writes as long as the number holds the integer
    exactly, below 2^53 in absolute value; from 10^21 on the engine writes
    an exponent in radix 10, which [integer_toString] does not. *)
Fixpoint to_digits (fuel : nat) (radix n : N) (acc : string) : string :=
  match fuel with
  | O => acc
  | S fuel' =>
      let acc := String (Uint8ArrayUtils.hex_digit (Z.of_N (n mod radix))) acc in
      if (n / radix =? 0)%N then acc
      else to_digits fuel' radix (n / radix) acc
  end.

Definition integer_toString (radix : N) (value : Z) : string :=
  let digits (n : N) := to_digits (S (N.to_nat (N.log2 n))) radix n "" in
  if (value <? 0)%Z then "-" ++ digits (Z.abs_N value)
  else digits (Z.to_N value).

(** [String.prototype.toUpperCase], on the letters a to z. *)
Definition upper_char (c : ascii) : ascii :=
  let n := N_of_ascii c in
  if ((97 <=? n) && (n <=? 122))%N then ascii_of_N (n - 32) else c.

Fixpoint toUpperCase (s : string) : string :=
  match s with
  | EmptyString => EmptyString
  | String c s' => String (upper_char c) (toUpperCase s')
  end.

(** The longest string of the engine, 2^29 - 24 characters: building a
    longer one raises [RangeError: Invalid string length]. *)
Definition max_string_length : Z := 536870888.

(** A value of the table: the representation ID is a string, the others
    are numbers; [number] and [bandwidth] are integers. *)
Inductive Value := Text (s : string) | Integer (z : Z) | Real (q : Q).

Section Fill.

Variables (representationId : option string) (number bandwidth : option Z)
  (time : option Q).

(** [valueTable[name]]; the outer [None] is [undefined]. *)
Definition valueTable (name : option string) : option (option Value) :=
  match name with
  | None => None
  | Some name =>
      if String.eqb name "RepresentationID" then Some (Text <$> representationId)
      else if String.eqb name "Number" then Some (Integer <$> number)
      else if String.eqb name "Bandwidth" then Some (Integer <$> bandwidth)
      else if String.eqb name "Time" then Some (Real <$> time)
      else None
  end.

(** [Math.round]: the integer nearest to [q], halves upwards. *)
Definition round (q : Q) : Z := Qfloor (q + (1 # 2)).

Definition toString (radix : N) (value : Value) : res string :=
  match value with
  | Text s => Ok s
  | Integer z => Ok (integer_toString radix z)
  | Real q =>
      (* only integers reach this point: [Time] has been rounded *)
      Ok (integer_toString radix (round q))
  end.

(** The callback of [replace]. *)
Definition replacement (name : option string) (fmt : option (string * ascii))
  : res string :=
  let match_ := matched name fmt in
  if String.eqb match_ "$$" then Ok "$"
  else
    match valueTable name with
    | None => Throw (AssertionError "Unrecognized identifier")
    | Some None => Ok match_
    | Some (Some value) =>
        let widthStr :=
          match name, fmt with
          | Some name, Some (widthStr, _) =>
              if String.eqb name "RepresentationID" then None
              else Some widthStr
          | _, _ => None
          end in
        value ←
          (if String.eqb (default "" name) "Time" then
             match value with
             | Real q =>
                 _ ← assert (negb (Qle_bool (2 # 10)
                                     (Qabs (q - inject_Z (round q)))))
                       "Calculated $Time$ values must be close to integers";
                 Ok (Integer (round q))
             | _ => Throw (AssertionError "Time value should be a number!")
             end
           else Ok value);
        valueString ←
          match snd <$> fmt with
          | None => toString 10 value
          | Some format =>
              if existsb (Ascii.eqb format) (list_ascii_of_string "diu")
              then toString 10 value
              else if Ascii.eqb format "o" then toString 8 value
              else if Ascii.eqb format "x" then toString 16 value
              else if Ascii.eqb format "X"
              then s ← toString 16 value; Ok (toUpperCase s)
              else Throw (AssertionError "Unhandled format specifier")
          end;
        let width :=
          match widthStr with
          | Some w => if (parseInt_digits w =? 0)%N then 1%N
                      else parseInt_digits w
          | None => 1%N
          end in
        let paddingSize :=
          Z.max 0 (Z.of_N width - Z.of_nat (String.length valueString)) in
        (* (new Array(paddingSize + 1)).join('0') *)
        if (paddingSize + 1 >? 4294967295)%Z
        then Throw (RangeError "Invalid array length")
        else if (paddingSize >? max_string_length)%Z
        then Throw (RangeError "Invalid string length")
        else
          let padding :=
            string_of_list_ascii (repeat "0"%char (Z.to_nat paddingSize)) in
          (* padding + valueString *)
          if (paddingSize + Z.of_nat (String.length valueString)
              >? max_string_length)%Z
          then Throw (RangeError "Invalid string length")
          else Ok (padding ++ valueString)
    end.

(** [uriTemplate.replace(re, callback)]: at a [$] that starts a match the
    replacement is written and the scan goes on after the match; any other
    character is copied. *)
Fixpoint replace (fuel : nat) (s : string) : option (res string) :=
  match s with
  | EmptyString => Some (Ok "")
  | String c rest =>
      match fuel with
      | O => None
      | S fuel' =>
          let copy :=
            match replace fuel' rest with
            | Some (Ok r) => Some (Ok (String c r))
            | other => other
            end in
          if Ascii.eqb c "$" then
            match match_token rest with
            | Some (name, fmt, rest') =>
                match replacement name fmt with
                | Throw e => Some (Throw e)
                | Ok out =>
                    match replace fuel' rest' with
                    | Some (Ok r) => Some (Ok (out ++ r))
                    | other => other
                    end
                end
            | None => copy
            end
          else copy
      end
  end.

Definition fillUriTemplate (fuel : nat) (uriTemplate : string)
  : option (res string) :=
  replace fuel uriTemplate.

(** *** Facts *)

Fixpoint no_dollar (s : string) : bool :=
  match s with
  | EmptyString => true
  | String c s' => negb (Ascii.eqb c "$") && no_dollar s'
  end.

(** [pre] written before the outcome of the rest of the scan. *)
Definition after (pre : string) (r : option (res string))
  : option (res string) :=
  match r with
  | Some (Ok out) => Some (Ok (pre ++ out))
  | other => other
  end.

Lemma after_nil r : after "" r = r.
Proof. destruct r as [[|]|]; reflexivity. Qed.

Lemma after_after a b r : after a (after b r) = after (a ++ b) r.
Proof.
  destruct r as [[out|]|]; cbn [after]; try reflexivity.
  rewrite SaverFacts.app_assoc'. reflexivity.
Qed.

Lemma strip_prefix_app (p s : string) : strip_prefix p (p ++ s) = Some s.
Proof.
  induction p as [|c p IH]; [reflexivity|].
  rewrite SaverFacts.app_cons. cbn [strip_prefix].
  rewrite Ascii.eqb_refl. exact IH.
Qed.

Lemma strip_prefix_length (p s r : string) :
  strip_prefix p s = Some r ->
  String.length s = (String.length p + String.length r)%nat.
Proof.
  revert s. induction p as [|c p IH]; intros s H.
  - injection H as <-. reflexivity.
  - destruct s as [|b s]; [discriminate H|]. cbn [strip_prefix] in H.
    destruct (Ascii.eqb c b); [|discriminate H].
    cbn [String.length]. rewrite (IH s H). reflexivity.
Qed.

Lemma span_digits_length (s : string) :
  String.length s
  = (String.length (span_digits s).1 + String.length (span_digits s).2)%nat.
Proof.
  induction s as [|c s IH]; [reflexivity|].
  cbn [span_digits]. destruct (is_digit c); [|reflexivity].
  destruct (span_digits s) as [ds rest]. cbn [fst snd String.length] in *.
  lia.
Qed.

(** A match consumes text: what is left is shorter than what followed the
    opening [$]. *)
Lemma match_identifier_length names s name r :
  match_identifier names s = Some (name, r) ->
  (String.length r <= String.length s)%nat.
Proof.
  induction names as [|n names IH]; [discriminate|].
  cbn [match_identifier].
  destruct (strip_prefix n s) as [s'|] eqn:E; [|exact IH].
  intros H. injection H as <- <-.
  apply strip_prefix_length in E. lia.
Qed.

Lemma match_format_length s w f r :
  match_format s = Some (w, f, r) ->
  (String.length r < String.length s)%nat.
Proof.
  unfold match_format.
  destruct s as [|c0 [|c1 s']]; try discriminate;
    try (destruct c0 as [[] [] [] [] [] [] [] []]; discriminate).
  destruct (Ascii.eqb_spec c0 "%") as [->|Hn];
    [|destruct c0 as [[] [] [] [] [] [] [] []]; try discriminate;
      contradiction].
  destruct (Ascii.eqb_spec c1 "0") as [->|Hn];
    [|destruct c1 as [[] [] [] [] [] [] [] []]; try discriminate;
      contradiction].
  pose proof (span_digits_length s') as Hl.
  destruct (span_digits s') as [ds rest]. cbn [fst snd] in Hl.
  destruct ds as [|d ds]; [discriminate|].
  destruct rest as [|fc rest']; [discriminate|].
  destruct (is_format fc); [|discriminate].
  intros H. injection H as <- <- <-. cbn [String.length] in *. lia.
Qed.

Lemma match_tail_length name s n fmt r :
  match_tail name s = Some (n, fmt, r) ->
  (String.length r < String.length s)%nat.
Proof.
  unfold match_tail.
  assert (Hclose : forall (fm : option (string * ascii)) (t : string),
            match t with
            | String "$" rest => Some (name, fm, rest)
            | _ => None
            end = Some (n, fmt, r) ->
            (String.length r < String.length t)%nat).
  { intros fm t H. destruct t as [|c t]; [discriminate H|].
    destruct (Ascii.eqb_spec c "$") as [->|Hn].
    - injection H as <- <- <-. cbn. lia.
    - destruct c as [[] [] [] [] [] [] [] []]; try discriminate H.
      contradiction. }
  destruct (match_format s) as [[[w f] s']|] eqn:E; [|apply Hclose].
  apply match_format_length in E.
  destruct (match s' with String "$" rest => _ | _ => None end)
    as [[[n' fm'] r']|] eqn:E'; [|apply Hclose].
  intros H. injection H as <- <- <-.
  apply Hclose in E'. lia.
Qed.

Lemma match_token_length s n fmt r :
  match_token s = Some (n, fmt, r) ->
  (String.length r < String.length s)%nat.
Proof.
  unfold match_token.
  destruct (match_identifier identifiers s) as [[name s']|] eqn:E;
    [|apply match_tail_length].
  apply match_identifier_length in E.
  destruct (match_tail (Some name) s') as [[[n' fm'] r']|] eqn:E';
    [|apply match_tail_length].
  intros H. injection H as <- <- <-.
  apply match_tail_length in E'. lia.
Qed.

(** The scan ends: fuel beyond the length of the text changes nothing. *)
Lemma replace_fuel (n : nat) : forall s fuel,
  (String.length s <= n)%nat -> (String.length s <= fuel)%nat ->
  replace fuel s = replace (String.length s) s /\
  replace (String.length s) s <> None.
Proof.
  induction n as [|n IH]; intros s fuel Hn Hfuel.
  - destruct s; [|cbn in Hn; lia]. destruct fuel; split; cbn; congruence.
  - destruct s as [|c rest]; [destruct fuel; split; cbn; congruence|].
    cbn [String.length] in *. destruct fuel as [|fuel]; [lia|].
    cbn [replace].
    destruct (IH rest fuel ltac:(lia) ltac:(lia)) as [Hcopy Hsome].
    rewrite Hcopy.
    destruct (Ascii.eqb c "$");
      [|split; [reflexivity|];
        destruct (replace (String.length rest) rest) as [[|]|];
        congruence].
    destruct (match_token rest) as [[[name fmt] rest']|] eqn:E;
      [|split; [reflexivity|];
        destruct (replace (String.length rest) rest) as [[|]|];
        congruence].
    apply match_token_length in E.
    destruct (replacement name fmt) as [out|e]; [|split; congruence].
    destruct (IH rest' fuel ltac:(lia) ltac:(lia)) as [H1 Hsome'].
    destruct (IH rest' (String.length rest) ltac:(lia) ltac:(lia))
      as [H2 _].
    rewrite H1, H2. split; [reflexivity|].
    destruct (replace (String.length rest') rest') as [[|]|]; congruence.
Qed.

(** The run with the fuel the text needs. *)
Definition fill (uriTemplate : string) : option (res string) :=
  fillUriTemplate (String.length uriTemplate) uriTemplate.

Lemma fill_copy (pre s : string) :
  no_dollar pre = true -> fill (pre ++ s) = after pre (fill s).
Proof.
  intros Hpre. induction pre as [|c pre IH].
  - change ("" ++ s) with s. symmetry. apply after_nil.
  - cbn [no_dollar] in Hpre. apply andb_prop in Hpre as [Hc Hpre].
    apply negb_true_iff in Hc.
    rewrite SaverFacts.app_cons. unfold fill, fillUriTemplate in *.
    cbn [String.length replace]. rewrite Hc, (IH Hpre).
    destruct (replace (String.length s) s) as [[out|]|]; reflexivity.
Qed.

Lemma fill_match (s : string) name fmt rest :
  match_token s = Some (name, fmt, rest) ->
  fill (String "$" s)
  = match replacement name fmt with
    | Throw e => Some (Throw e)
    | Ok out => after out (fill rest)
    end.
Proof.
  intros Hm. unfold fill, fillUriTemplate. cbn [String.length replace].
  rewrite Ascii.eqb_refl, Hm.
  destruct (replacement name fmt) as [out|e]; [|reflexivity].
  pose proof (match_token_length _ _ _ _ Hm) as Hlen.
  destruct (replace_fuel (String.length rest) rest (String.length s)
              ltac:(lia) ltac:(lia)) as [-> _].
  destruct (replace (String.length rest) rest) as [[r|e]|]; reflexivity.
Qed.

(** A token as the expression accepts it. *)
Definition token_ok (name : option string) (fmt : option (string * ascii))
  : Prop :=
  match name with Some n => In n identifiers | None => True end /\
  match fmt with
  | Some (widthStr, format) =>
      widthStr <> "" /\ SaverFacts.all_digits widthStr = true /\
      is_format format = true
  | None => True
  end.

Lemma is_format_not_digit c : is_format c = true -> is_digit c = false.
Proof.
  intros H. destruct c as [[] [] [] [] [] [] [] []]; try discriminate H;
    reflexivity.
Qed.

Lemma match_tail_matched name fmt rest :
  token_ok name fmt ->
  match_tail name
    (match fmt with
     | Some (widthStr, format) => "%0" ++ widthStr ++ String format ""
     | None => ""
     end ++ "$" ++ rest)
  = Some (name, fmt, rest).
Proof.
  intros [_ Hfmt]. destruct fmt as [[w f]|]; [|reflexivity].
  destruct Hfmt as (Hne & Hd & Hf).
  replace (("%0" ++ w ++ String f "") ++ "$" ++ rest)
    with (String "%" (String "0" (w ++ String f (String "$" rest))))
    by (rewrite !SaverFacts.app_assoc'; reflexivity).
  unfold match_tail, match_format.
  rewrite SaverFacts.span_digits_app by
    (auto using is_format_not_digit).
  destruct w as [|d w]; [contradiction|]. rewrite Hf. reflexivity.
Qed.

Lemma match_token_matched name fmt rest :
  token_ok name fmt ->
  match_token
    (default "" name
     ++ match fmt with
        | Some (widthStr, format) => "%0" ++ widthStr ++ String format ""
        | None => ""
        end ++ "$" ++ rest)
  = Some (name, fmt, rest).
Proof.
  intros Hok. pose proof (match_tail_matched name fmt rest Hok) as Htail.
  destruct Hok as [Hname Hfmt]. unfold match_token.
  set (tail := match fmt with
               | Some (widthStr, format) => "%0" ++ widthStr ++ String format ""
               | None => ""
               end ++ "$" ++ rest) in *.
  destruct name as [n|].
  - cbn [default from_option id].
    assert (Hid : match_identifier identifiers (n ++ tail) = Some (n, tail)).
    { cbn in Hname.
      destruct Hname as [<-|[<-|[<-|[<-|[]]]]]; reflexivity. }
    rewrite Hid, Htail. reflexivity.
  - cbn [default from_option id]. change ("" ++ tail) with tail.
    assert (Hid : match_identifier identifiers tail = None).
    { unfold tail. destruct fmt as [[w f]|]; reflexivity. }
    rewrite Hid. exact Htail.
Qed.

(** The scan is local and runs from left to right.  Text without [$] is
    copied; a token the expression accepts is replaced by what the
    callback returns for it, and the scan goes on after the token; a
    failing callback fails the whole call.  In particular [$$] gives [$],
    a token whose value is [null] stays as it is written, and a format
    without an identifier fails the assertion on the identifier. *)
Theorem fillUriTemplate_scan (pre rest : string) (name : option string)
    (fmt : option (string * ascii)) :
  no_dollar pre = true ->
  token_ok name fmt ->
  fill pre = Some (Ok pre) /\
  fill (pre ++ matched name fmt ++ rest)
  = match replacement name fmt with
    | Throw e => Some (Throw e)
    | Ok out => after (pre ++ out) (fill rest)
    end /\
  (forall fuel, (String.length (pre ++ matched name fmt ++ rest) <= fuel)%nat ->
     fillUriTemplate fuel (pre ++ matched name fmt ++ rest)
     = fill (pre ++ matched name fmt ++ rest)) /\
  replacement None None = Ok "$" /\
  (valueTable name = Some None ->
   replacement name fmt = Ok (matched name fmt)) /\
  (name = None -> fmt <> None ->
   replacement name fmt = Throw (AssertionError "Unrecognized identifier")).
Proof.
  intros Hpre Hok. repeat split.
  - rewrite <- (HexFacts.append_nil_r pre) at 1.
    rewrite fill_copy by exact Hpre.
    unfold fill, fillUriTemplate. cbn [String.length replace after].
    rewrite HexFacts.append_nil_r. reflexivity.
  - rewrite fill_copy by exact Hpre.
    replace (matched name fmt ++ rest)
      with (String "$"
              (default "" name
               ++ match fmt with
                  | Some (widthStr, format) =>
                      "%0" ++ widthStr ++ String format ""
                  | None => ""
                  end ++ "$" ++ rest))
      by (unfold matched; rewrite !SaverFacts.app_assoc'; reflexivity).
    rewrite (fill_match _ name fmt rest)
      by (apply match_token_matched, Hok).
    destruct (replacement name fmt) as [out|e]; [|reflexivity].
    apply after_after.
  - intros fuel Hfuel. unfold fill, fillUriTemplate.
    apply (replace_fuel _ _ fuel (Nat.le_refl _) Hfuel).
  - intros Hnull. unfold replacement. rewrite Hnull.
    destruct (String.eqb_spec (matched name fmt) "$$") as [Heq|_];
      [|reflexivity].
    destruct name as [n|]; [|discriminate Hnull].
    exfalso. destruct Hok as [Hin _]. cbn in Hin.
    destruct Hin as [<-|[<-|[<-|[<-|[]]]]]; discriminate Heq.
  - intros -> Hfmt. destruct fmt as [[w f]|]; [|contradiction].
    unfold replacement.
    destruct (String.eqb_spec (matched None (Some (w, f))) "$$") as [Heq|_];
      [|reflexivity].
    exfalso. unfold matched in Heq. cbn in Heq. discriminate Heq.
Qed.

Definition zeros (k : nat) : string :=
  string_of_list_ascii (repeat "0"%char k).

Lemma length_zeros k : String.length (zeros k) = k.
Proof.
  unfold zeros. induction k as [|k IH]; [reflexivity|].
  cbn [repeat string_of_list_ascii String.length]. rewrite IH. reflexivity.
Qed.

Lemma length_app (a b : string) :
  String.length (a ++ b) = (String.length a + String.length b)%nat.
Proof.
  induction a as [|c a IH]; [reflexivity|].
  rewrite SaverFacts.app_cons. cbn [String.length]. rewrite IH. reflexivity.
Qed.

Lemma length_to_digits (fuel : nat) : forall radix n acc,
  (String.length (to_digits fuel radix n acc)
   <= fuel + String.length acc)%nat.
Proof.
  induction fuel as [|fuel IH]; intros radix n acc; [cbn; lia|].
  cbn [to_digits]. destruct (n / radix =? 0)%N.
  - cbn [String.length]. lia.
  - etransitivity; [apply IH|]. cbn [String.length]. lia.
Qed.

(** A number that holds its integer exactly prints in at most 54
    characters, whatever the radix. *)
Lemma length_integer_toString (radix : N) (value : Z) :
  (Z.abs value < 2 ^ 53)%Z ->
  (String.length (integer_toString radix value) <= 54)%nat.
Proof.
  intros Hv. unfold integer_toString.
  assert (Hlog : forall n : N, (n < 2 ^ 53)%N ->
            (S (N.to_nat (N.log2 n)) <= 53)%nat).
  { intros n Hn. destruct (N.eq_dec n 0%N) as [->|Hz]; [cbn; lia|].
    assert (N.log2 n < 53)%N by (apply N.log2_lt_pow2; lia). lia. }
  destruct (Z.ltb_spec value 0) as [Hneg|Hpos].
  - rewrite length_app. cbn [String.length].
    pose proof (length_to_digits (S (N.to_nat (N.log2 (Z.abs_N value))))
                  radix (Z.abs_N value) "") as Hd.
    cbn [String.length] in Hd.
    specialize (Hlog (Z.abs_N value) ltac:(lia)). lia.
  - pose proof (length_to_digits (S (N.to_nat (N.log2 (Z.to_N value))))
                  radix (Z.to_N value) "") as Hd.
    cbn [String.length] in Hd.
    specialize (Hlog (Z.to_N value) ltac:(lia)). lia.
Qed.

(** The width of a format pads with zeros on the left and never cuts.
    For a [$Number$] or [$Bandwidth$] token that the expression accepts,
    with a decimal format, a value that the number holds exactly (below
    2^53 in absolute value) and a width up to the longest string of the
    engine, the replacement is the number in decimal, preceded by as many
    zeros as it takes to reach the width (a width of 0 counts as 1).  A
    width beyond the longest string raises [RangeError] instead. *)
Theorem replacement_padded (name widthStr : string) (format : ascii)
    (value : Z) :
  (name = "Number" /\ number = Some value \/
   name = "Bandwidth" /\ bandwidth = Some value) ->
  token_ok (Some name) (Some (widthStr, format)) ->
  In format (list_ascii_of_string "diu") ->
  (Z.abs value < 2 ^ 53)%Z ->
  let width :=
    if (parseInt_digits widthStr =? 0)%N then 1%N
    else parseInt_digits widthStr in
  let digits := integer_toString 10 value in
  let out := zeros (N.to_nat width - String.length digits) ++ digits in
  ((Z.of_N width <= max_string_length)%Z ->
   replacement (Some name) (Some (widthStr, format)) = Ok out /\
   String.length out = Nat.max (N.to_nat width) (String.length digits)) /\
  ((max_string_length < Z.of_N width)%Z ->
   exists message,
     replacement (Some name) (Some (widthStr, format))
     = Throw (RangeError message)).
Proof.
  intros Hname _ Hformat Hvalue width digits out.
  pose proof (length_integer_toString 10 value Hvalue) as Hlen.
  fold digits in Hlen.
  assert (Hrun : replacement (Some name) (Some (widthStr, format))
                 = let paddingSize :=
                     Z.max 0 (Z.of_N width - Z.of_nat (String.length digits)) in
                   if (paddingSize + 1 >? 4294967295)%Z
                   then Throw (RangeError "Invalid array length")
                   else if (paddingSize >? max_string_length)%Z
                   then Throw (RangeError "Invalid string length")
                   else if (paddingSize + Z.of_nat (String.length digits)
                            >? max_string_length)%Z
                   then Throw (RangeError "Invalid string length")
                   else Ok (zeros (Z.to_nat paddingSize) ++ digits)).
  { unfold replacement.
    assert (Hm : String.eqb (matched (Some name) (Some (widthStr, format)))
                   "$$" = false).
    { destruct Hname as [[-> _]|[-> _]]; reflexivity. }
    rewrite Hm.
    assert (Hv : valueTable (Some name) = Some (Some (Integer value))).
    { destruct Hname as [[-> Hn]|[-> Hb]]; unfold valueTable;
        cbn [String.eqb Ascii.eqb Bool.eqb];
        [rewrite Hn | rewrite Hb]; reflexivity. }
    rewrite Hv.
    assert (Hnot : String.eqb name "RepresentationID" = false
                   /\ String.eqb (default "" (Some name)) "Time" = false).
    { destruct Hname as [[-> _]|[-> _]]; split; reflexivity. }
    destruct Hnot as [-> ->].
    cbn [mbind res_bind Js.bind fmap option_fmap option_map snd].
    assert (Hf : existsb (Ascii.eqb format) (list_ascii_of_string "diu") = true).
    { apply existsb_exists. exists format. split; [exact Hformat|].
      apply Ascii.eqb_refl. }
    rewrite Hf. cbn [toString mbind res_bind Js.bind]. reflexivity. }
  rewrite Hrun. clear Hrun. cbv zeta. unfold max_string_length.
  pose proof (N2Z.is_nonneg width) as Hpos.
  split.
  - intros Hwidth.
    destruct (Z.gtb_spec
                (Z.max 0 (Z.of_N width - Z.of_nat (String.length digits)) + 1)
                4294967295) as [Hbig|_]; [lia|].
    destruct (Z.gtb_spec
                (Z.max 0 (Z.of_N width - Z.of_nat (String.length digits)))
                536870888) as [Hbig|_]; [lia|].
    destruct (Z.gtb_spec
                (Z.max 0 (Z.of_N width - Z.of_nat (String.length digits))
                 + Z.of_nat (String.length digits))
                536870888) as [Hbig|_]; [lia|].
    split.
    + unfold out. do 3 f_equal. lia.
    + unfold out. rewrite length_app, length_zeros. lia.
  - intros Hwidth.
    destruct (Z.gtb_spec
                (Z.max 0 (Z.of_N width - Z.of_nat (String.length digits)) + 1)
                4294967295) as [_|_]; [eexists; reflexivity|].
    destruct (Z.gtb_spec
                (Z.max 0 (Z.of_N width - Z.of_nat (String.length digits)))
                536870888) as [_|_]; [eexists; reflexivity|].
    destruct (Z.gtb_spec
                (Z.max 0 (Z.of_N width - Z.of_nat (String.length digits))
                 + Z.of_nat (String.length digits))
                536870888) as [_|Hsmall]; [eexists; reflexivity|lia].
Qed.

End Fill.

Lemma replacement_padded_witness :
  replacement None (Some 42%Z) None None (Some "Number") (Some ("05", "d"%char))
  = Ok "00042" /\
  String.length "00042" = 5%nat.
Proof.
  destruct (replacement_padded None (Some 42%Z) None None
              "Number" "05" "d"%char 42) as [Hpadded _].
  - left. split; reflexivity.
  - repeat split; [right; left; reflexivity | discriminate].
  - left. reflexivity.
  - reflexivity.
  - apply Hpadded. vm_compute. discriminate.
Defined.

Lemma fillUriTemplate_scan_witness :
  fill (Some "v1") (Some 5%Z) None None "seg_$$_$Bandwidth$_$Number%05d$.m4s"
  = Some (Ok "seg_$_$Bandwidth$_00005.m4s").
Proof.
  destruct (fillUriTemplate_scan (Some "v1") (Some 5%Z) None None
              "seg_" "_$Bandwidth$_$Number%05d$.m4s" None None
              eq_refl (conj I I)) as (_ & Hrun & _).
  etransitivity; [exact Hrun | vm_compute; reflexivity].
Defined.

End UriTemplate.
